(** * AIWC plugin (WorkloadCharacterisation.cpp): shallow embedding and properties

    The plugin observes an OpenCL interpreter and accumulates, per kernel
    invocation, the counters from which the workload metrics are derived.
    This development embeds the callbacks of [WorkloadCharacterisation.cpp],
    the merge of a work-group, the reducer and the report of the destructor.

    Conventions of the embedding.
    - [size_t], [uint64_t], [uint32_t] and [uint16_t] values are integers of
      [Z] with the wrap-around of every arithmetic operation written out
      ([wrap64], [wrap32], [wrap16]).
    - [int] loop counters are integers of [Z]: signed overflow is undefined
      in C++, so the defined behaviours are the ones without overflow.
    - [std::unordered_map] is a [gmap]; a range-for over it is a fold over
      [map_to_list], and [m[k] += c] is [bump].
    - [std::vector] is a [list]; [v[i]] out of range is undefined behaviour
      and shows up as [None].
    - [double] and [float] values are real numbers or one of the special
      values of IEEE 754 (the two infinities and NaN), with the arithmetic
      of IEEE 754 on the special values; rounding, the sign of zero and the
      narrowing casts to [float] are not modelled.
    - [WorkloadCharacterisation.h] and the headers of the interpreter are
      not among the sources.  The members they declare keep their names
      and are typed by the way the .cpp file uses them; a width that the
      .cpp file shows (a local, a parameter, a [new] expression, a cast)
      wraps, a counter whose width only the header fixes is an integer
      without a bound. *)

From Stdlib Require Import ZArith Reals Lra Lia.
From stdpp Require Import gmap strings list fin_maps pretty sorting.

Local Open Scope Z_scope.

(** ** Machine integers *)

Definition wrap16 (z : Z) : Z := z mod 2 ^ 16.
Definition wrap32 (z : Z) : Z := z mod 2 ^ 32.
Definition wrap64 (z : Z) : Z := z mod 2 ^ 64.

(** ** Memory-transfer tracker

    The members [m_hostToDeviceCopy], [m_deviceToHostCopy],
    [m_last_kernel_name] and
    [m_numberOfHostToDeviceCopiesBeforeKernelNamed] of the plugin, the
    callbacks that touch them, and the report written by the destructor. *)

Module Transfer.

(** Modelled from the spec: the four members are declared in
    [WorkloadCharacterisation.h]; section 3 of the specification describes
    them as two sequences of kernel names, the name of the last kernel and
    a counter of the host-to-device entries not yet attributed. *)
Record t := mk {
  m_hostToDeviceCopy : list string;
  m_deviceToHostCopy : list string;
  m_last_kernel_name : string;
  m_numberOfHostToDeviceCopiesBeforeKernelNamed : Z
}.

(** The constructor. *)
Definition init : t := mk [] [] "" 0.

Definition hostMemoryLoad (s : t) : t :=
  mk (m_hostToDeviceCopy s)
     (m_deviceToHostCopy s ++ [m_last_kernel_name s])
     (m_last_kernel_name s)
     (m_numberOfHostToDeviceCopiesBeforeKernelNamed s).

Definition hostMemoryStore (s : t) : t :=
  mk (m_hostToDeviceCopy s ++ [m_last_kernel_name s])
     (m_deviceToHostCopy s)
     (m_last_kernel_name s)
     (m_numberOfHostToDeviceCopiesBeforeKernelNamed s + 1).

(** [for (int i = 0; i < n; i++) v[end_of_list - i] = name;] with [todo]
    iterations left.  An index outside the vector is undefined behaviour. *)
Fixpoint rename_loop (todo : nat) (i end_of_list : Z) (name : string)
    (v : list string) : option (list string) :=
  match todo with
  | O => Some v
  | S todo' =>
      let idx := end_of_list - i in
      if decide (0 <= idx < Z.of_nat (length v))
      then rename_loop todo' (i + 1) end_of_list name (<[Z.to_nat idx := name]> v)
      else None
  end.

(** The part of [kernelBegin] that updates the tracker. *)
Definition kernelBegin (name : string) (s : t) : option t :=
  let end_of_list := Z.of_nat (length (m_hostToDeviceCopy s)) - 1 in
  match rename_loop (Z.to_nat (m_numberOfHostToDeviceCopiesBeforeKernelNamed s))
          0 end_of_list name (m_hostToDeviceCopy s) with
  | Some v => Some (mk v (m_deviceToHostCopy s) name 0)
  | None => None
  end.

(** The callbacks of the plugin, as far as the tracker is concerned: every
    other callback leaves the four members alone. *)
Inductive event :=
| HostMemoryStore
| HostMemoryLoad
| KernelBegin (name : string)
| OtherCallback.

Definition step (s : t) (e : event) : option t :=
  match e with
  | HostMemoryStore => Some (hostMemoryStore s)
  | HostMemoryLoad => Some (hostMemoryLoad s)
  | KernelBegin name => kernelBegin name s
  | OtherCallback => Some s
  end.

Fixpoint run (evs : list event) (s : t) : option t :=
  match evs with
  | [] => Some s
  | e :: rest =>
      match step s e with
      | Some s' => run rest s'
      | None => None
      end
  end.

Definition is_naming (e : event) : bool :=
  match e with KernelBegin _ => true | _ => false end.

Definition is_store (e : event) : bool :=
  match e with HostMemoryStore => true | _ => false end.

(** The callbacks that came after the last kernel naming. *)
Fixpoint after_last_naming (evs : list event) : list event :=
  match evs with
  | [] => []
  | e :: rest =>
      if existsb is_naming rest then after_last_naming rest
      else if is_naming e then rest else e :: rest
  end.

Definition stores_in (evs : list event) : Z :=
  Z.of_nat (length (filter (λ e, is_store e = true) evs)).

(** *** The destructor *)

(** [std::unique] followed by the [resize]: of every run of adjacent equal
    elements the first one is kept. *)
Fixpoint unique_from (prev : string) (l : list string) : list string :=
  match l with
  | [] => []
  | y :: rest =>
      if decide (prev = y) then unique_from prev rest
      else y :: unique_from y rest
  end.

Definition unique (l : list string) : list string :=
  match l with
  | [] => []
  | x :: rest => x :: unique_from x rest
  end.

(** [std::count(v.begin(), v.end(), item)]. *)
Definition count (item : string) (v : list string) : Z :=
  Z.of_nat (length (filter (λ x, x = item) v)).

(** One direction of the report: the rows [(kernel, count)] in the order in
    which they are written. *)
Definition rows (v : list string) : list (string * Z) :=
  (λ item, (item, count item v)) <$> unique v.

Inductive direction := HostToDevice | DeviceToHost.

(** The rows after the header, host-to-device first. *)
Definition report (s : t) : list (direction * string * Z) :=
  ((λ r, (HostToDevice, r.1, r.2)) <$> rows (m_hostToDeviceCopy s)) ++
  ((λ r, (DeviceToHost, r.1, r.2)) <$> rows (m_deviceToHostCopy s)).

(** The name tried in iteration [logfile_count] of the destructor's loop. *)
Definition logfile_name (logfile_count : Z) : string :=
  "aiwc_memory_transfers_" +:+ pretty logfile_count +:+ ".csv".

(** The destructor's [while (true)] loop over candidate names; [fs] holds
    the names of the files that can be opened for reading.  The loop leaves
    through [break] when [std::ifstream(logfile_name)] is true. *)
Fixpoint logfile_loop (fs : gset string) (fuel : nat) (logfile_count : Z)
    : option Z :=
  match fuel with
  | O => None
  | S fuel' =>
      if decide (logfile_name logfile_count ∈ fs) then Some logfile_count
      else logfile_loop fs fuel' (logfile_count + 1)
  end.

(** The loop of [logMetrics] over the names of the per-kernel report, which
    leaves when [!std::ifstream(logfile_name)]. *)
Definition kernel_logfile_name (prefix kernel : string) (logfile_count : Z)
    : string :=
  prefix +:+ "aiwc_" +:+ kernel +:+ "_" +:+ pretty logfile_count +:+ ".csv".

Fixpoint kernel_logfile_loop (fs : gset string) (prefix kernel : string)
    (fuel : nat) (logfile_count : Z) : option Z :=
  match fuel with
  | O => None
  | S fuel' =>
      if decide (kernel_logfile_name prefix kernel logfile_count ∈ fs)
      then kernel_logfile_loop fs prefix kernel fuel' (logfile_count + 1)
      else Some logfile_count
  end.

(** *** What the specification says about the report *)

(** The maximal runs of adjacent equal names with their lengths. *)
Fixpoint runs_from (cur : string) (n : Z) (l : list string)
    : list (string * Z) :=
  match l with
  | [] => [(cur, n)]
  | y :: rest =>
      if decide (cur = y) then runs_from cur (n + 1) rest
      else (cur, n) :: runs_from y 1 rest
  end.

Definition runs (l : list string) : list (string * Z) :=
  match l with
  | [] => []
  | x :: rest => runs_from x 1 rest
  end.

(** The report as the specification describes it: for each direction one
    row per maximal run, carrying the length of that run. *)
Definition report_by_runs (s : t) : list (direction * string * Z) :=
  ((λ r, (HostToDevice, r.1, r.2)) <$> runs (m_hostToDeviceCopy s)) ++
  ((λ r, (DeviceToHost, r.1, r.2)) <$> runs (m_deviceToHostCopy s)).

End Transfer.

(** ** Counting maps *)

(** [m[k] += c] on an [unordered_map] whose mapped type wraps by [wrap]:
    [operator[]] creates a missing entry with value 0 first. *)
Definition bump `{Countable K} (wrap : Z → Z) (k : K) (c : Z)
    (m : gmap K Z) : gmap K Z :=
  <[k := wrap (default 0 (m !! k) + c)]> m.

(** The mapped type of a map that only the header declares: no wrap-around
    is modelled. *)
Definition unbounded (z : Z) : Z := z.

(** [for (auto const &item : src) dst[item.first] += item.second;] *)
Definition merge_into `{Countable K} (wrap : Z → Z) (src dst : gmap K Z)
    : gmap K Z :=
  foldl (λ acc item, bump wrap item.1 item.2 acc) dst (map_to_list src).

Definition sumZ (l : list Z) : Z := foldr Z.add 0 l.

Definition sumR (l : list R) : R := foldr Rplus 0%R l.

(** The sum of the counts of a counting map. *)
Definition sum_values `{Countable K} (m : gmap K Z) : Z :=
  sumZ (map_to_list m).*2.

(** The logarithm to base 2 of a real number. *)
Definition log2 (x : R) : R := (ln x / ln 2)%R.

(** ** Floating-point values *)

Inductive double :=
| Finite (r : R)
| PosInf
| NegInf
| NaN.

(** The sign of a real number. *)
Definition Rsign (r : R) : comparison :=
  match total_order_T r 0 with
  | inleft (left _) => Lt
  | inleft (right _) => Eq
  | inright _ => Gt
  end.

(** An infinity of the given sign; a zero times an infinity, and 0 / 0,
    are NaN. *)
Definition signed_inf (sign : comparison) : double :=
  match sign with
  | Lt => NegInf
  | Eq => NaN
  | Gt => PosInf
  end.

Definition of_Z (z : Z) : double := Finite (IZR z).

Definition dopp (x : double) : double :=
  match x with
  | Finite a => Finite (- a)
  | PosInf => NegInf
  | NegInf => PosInf
  | NaN => NaN
  end.

Definition dadd (x y : double) : double :=
  match x, y with
  | NaN, _ | _, NaN => NaN
  | Finite a, Finite b => Finite (a + b)
  | PosInf, NegInf | NegInf, PosInf => NaN
  | PosInf, _ | _, PosInf => PosInf
  | NegInf, _ | _, NegInf => NegInf
  end.

Definition dsub (x y : double) : double := dadd x (dopp y).

Definition dmul (x y : double) : double :=
  match x, y with
  | NaN, _ | _, NaN => NaN
  | Finite a, Finite b => Finite (a * b)
  | Finite a, PosInf | PosInf, Finite a => signed_inf (Rsign a)
  | Finite a, NegInf | NegInf, Finite a => signed_inf (CompOpp (Rsign a))
  | PosInf, PosInf | NegInf, NegInf => PosInf
  | PosInf, NegInf | NegInf, PosInf => NegInf
  end.

Definition ddiv (x y : double) : double :=
  match x, y with
  | NaN, _ | _, NaN => NaN
  | Finite a, Finite b =>
      match Rsign b with
      | Eq => signed_inf (Rsign a)
      | _ => Finite (a / b)
      end
  | Finite _, PosInf | Finite _, NegInf => Finite 0
  | PosInf, Finite b =>
      match Rsign b with Lt => NegInf | _ => PosInf end
  | NegInf, Finite b =>
      match Rsign b with Lt => PosInf | _ => NegInf end
  | PosInf, PosInf | PosInf, NegInf | NegInf, PosInf | NegInf, NegInf => NaN
  end.

(** [std::log2]: minus infinity at 0, NaN below 0. *)
Definition dlog2 (x : double) : double :=
  match x with
  | Finite a =>
      match Rsign a with
      | Gt => Finite (log2 a)
      | Eq => NegInf
      | Lt => NaN
      end
  | PosInf => PosInf
  | NegInf | NaN => NaN
  end.

(** [std::sqrt]: NaN below 0. *)
Definition dsqrt (x : double) : double :=
  match x with
  | Finite a =>
      match Rsign a with
      | Lt => NaN
      | _ => Finite (sqrt a)
      end
  | PosInf => PosInf
  | NegInf | NaN => NaN
  end.

Declare Scope double_scope.
Delimit Scope double_scope with D.
Bind Scope double_scope with double.
Infix "+" := dadd : double_scope.
Infix "-" := dsub : double_scope.
Infix "*" := dmul : double_scope.
Infix "/" := ddiv : double_scope.

(** ** Per-worker state *)

(** Modelled from the spec: [Size3] is declared in core/common.h; the
    three components are [size_t] values. *)
Module Size3.
Record t := mk { x : Z; y : Z; z : Z }.
End Size3.

(** Modelled from the spec: [ledgerElement] is declared in
    [WorkloadCharacterisation.h]; section 3 of the specification has it as
    the pair of a byte address and a timestep, and [threadMemoryLedger]
    fills it from a [size_t] and a [uint32_t]. *)
Record ledgerElement := mkLedgerElement {
  address : Z;
  timestep : Z
}.

(** Modelled from the spec: the address-space tags of core/common.h
    (section 3: Private, Local, Global, Constant). *)
Inductive AddrSpace :=
| AddrSpacePrivate
| AddrSpaceGlobal
| AddrSpaceConstant
| AddrSpaceLocal.

(** Modelled from the spec: the struct of the thread-local [m_state] is
    declared in [WorkloadCharacterisation.h]; the members are the ones that
    the .cpp file reads and writes (section 3, per-worker accumulator), the
    containers are typed as [workGroupBegin] allocates them.  [allocated]
    tells whether the containers behind the pointers ([storeOps] and the
    others) have been created. *)
Record WorkerState := mkWorkerState {
  allocated : bool;
  storeOps : gmap Z Z;
  loadOps : gmap Z Z;
  computeOps : gmap Z Z;
  branchOps : gmap Z (list bool);
  instructionsBetweenBarriers : list Z;
  instructionWidth : gmap Z Z;
  instructionsPerWorkitem : list Z;
  instructionsBetweenLoadOrStore : list Z;
  loadInstructionLabels : gmap string Z;
  storeInstructionLabels : gmap string Z;
  threads_invoked : Z;
  instruction_count : Z;
  workitem_instruction_count : Z;
  ops_between_load_or_store : Z;
  barriers_hit : Z;
  global_memory_access_count : Z;
  local_memory_access_count : Z;
  constant_memory_access_count : Z;
  previous_instruction_is_branch : bool;
  target1 : Z;
  target2 : Z;
  branch_loc : Z;
  ledger : list (list ledgerElement);
  psl_per_barrier : list (list double * Z)
}.

(** [m_state = {NULL}]: nothing allocated, every other member zero. *)
Definition m_state_initial : WorkerState :=
  mkWorkerState false ∅ ∅ ∅ ∅ [] ∅ [] [] ∅ ∅ 0 0 0 0 0 0 0 0 false 0 0 0 [] [].

(** The number of work-items of a group, as [size_t]. *)
Definition items_of (local_num : Size3.t) : Z :=
  wrap64 (Size3.x local_num * Size3.y local_num * Size3.z local_num).

Definition workGroupBegin (m_local_num : Size3.t) (m_state : WorkerState)
    : WorkerState :=
  mkWorkerState true ∅ ∅ ∅ ∅ [] ∅ [] [] ∅ ∅
    0 0 (workitem_instruction_count m_state)
    (ops_between_load_or_store m_state) 0 0 0 0 false 0 0 0
    ((λ _, []) <$>
       (if allocated m_state then ledger m_state
        else replicate (Z.to_nat (items_of m_local_num)) []))
    (if allocated m_state then psl_per_barrier m_state else []).

(** The row of the ledger that belongs to a work-item. *)
Definition ledger_row (m_local_num localID : Size3.t) : Z :=
  wrap64 (Size3.x localID * Size3.y m_local_num * Size3.z m_local_num
          + Size3.y localID * Size3.z m_local_num + Size3.z localID).

(** [ledger[row].push_back(le)]; a row outside the vector is undefined
    behaviour. *)
Definition ledger_push (row : Z) (le : ledgerElement)
    (l : list (list ledgerElement)) : option (list (list ledgerElement)) :=
  if decide (row < Z.of_nat (length l))
  then Some (alter (λ r, r ++ [le]) (Z.to_nat row) l)
  else None.

Definition set_ledger (l : list (list ledgerElement)) (s : WorkerState)
    : WorkerState :=
  mkWorkerState (allocated s) (storeOps s) (loadOps s) (computeOps s)
    (branchOps s) (instructionsBetweenBarriers s) (instructionWidth s)
    (instructionsPerWorkitem s) (instructionsBetweenLoadOrStore s)
    (loadInstructionLabels s) (storeInstructionLabels s) (threads_invoked s)
    (instruction_count s) (workitem_instruction_count s)
    (ops_between_load_or_store s) (barriers_hit s)
    (global_memory_access_count s) (local_memory_access_count s)
    (constant_memory_access_count s) (previous_instruction_is_branch s)
    (target1 s) (target2 s) (branch_loc s) l (psl_per_barrier s).

Definition set_loadOps (m : gmap Z Z) (s : WorkerState) : WorkerState :=
  mkWorkerState (allocated s) (storeOps s) m (computeOps s)
    (branchOps s) (instructionsBetweenBarriers s) (instructionWidth s)
    (instructionsPerWorkitem s) (instructionsBetweenLoadOrStore s)
    (loadInstructionLabels s) (storeInstructionLabels s) (threads_invoked s)
    (instruction_count s) (workitem_instruction_count s)
    (ops_between_load_or_store s) (barriers_hit s)
    (global_memory_access_count s) (local_memory_access_count s)
    (constant_memory_access_count s) (previous_instruction_is_branch s)
    (target1 s) (target2 s) (branch_loc s) (ledger s) (psl_per_barrier s).

Definition set_storeOps (m : gmap Z Z) (s : WorkerState) : WorkerState :=
  mkWorkerState (allocated s) m (loadOps s) (computeOps s)
    (branchOps s) (instructionsBetweenBarriers s) (instructionWidth s)
    (instructionsPerWorkitem s) (instructionsBetweenLoadOrStore s)
    (loadInstructionLabels s) (storeInstructionLabels s) (threads_invoked s)
    (instruction_count s) (workitem_instruction_count s)
    (ops_between_load_or_store s) (barriers_hit s)
    (global_memory_access_count s) (local_memory_access_count s)
    (constant_memory_access_count s) (previous_instruction_is_branch s)
    (target1 s) (target2 s) (branch_loc s) (ledger s) (psl_per_barrier s).

Definition threadMemoryLedger (m_local_num : Size3.t) (address timestep : Z)
    (localID : Size3.t) (m_state : WorkerState) : option WorkerState :=
  let le := mkLedgerElement address timestep in
  match ledger_push (ledger_row m_local_num localID) le (ledger m_state) with
  | Some l => Some (set_ledger l m_state)
  | None => None
  end.

Definition memoryLoad (m_local_num : Size3.t) (space : AddrSpace)
    (localID : Size3.t) (address : Z) (m_state : WorkerState)
    : option WorkerState :=
  match space with
  | AddrSpacePrivate => Some m_state
  | _ =>
      threadMemoryLedger m_local_num address 0 localID
        (set_loadOps (bump wrap32 address 1 (loadOps m_state)) m_state)
  end.

Definition memoryStore (m_local_num : Size3.t) (space : AddrSpace)
    (localID : Size3.t) (address : Z) (m_state : WorkerState)
    : option WorkerState :=
  match space with
  | AddrSpacePrivate => Some m_state
  | _ =>
      threadMemoryLedger m_local_num address 0 localID
        (set_storeOps (bump wrap32 address 1 (storeOps m_state)) m_state)
  end.

Definition workItemBegin (s : WorkerState) : WorkerState :=
  mkWorkerState (allocated s) (storeOps s) (loadOps s) (computeOps s)
    (branchOps s) (instructionsBetweenBarriers s) (instructionWidth s)
    (instructionsPerWorkitem s) (instructionsBetweenLoadOrStore s)
    (loadInstructionLabels s) (storeInstructionLabels s)
    (threads_invoked s + 1) 0 0 0 (barriers_hit s)
    (global_memory_access_count s) (local_memory_access_count s)
    (constant_memory_access_count s) (previous_instruction_is_branch s)
    (target1 s) (target2 s) (branch_loc s) (ledger s) (psl_per_barrier s).

Definition workItemComplete (s : WorkerState) : WorkerState :=
  mkWorkerState (allocated s) (storeOps s) (loadOps s) (computeOps s)
    (branchOps s)
    (instructionsBetweenBarriers s ++ [wrap32 (instruction_count s)])
    (instructionWidth s)
    (instructionsPerWorkitem s ++ [wrap32 (workitem_instruction_count s)])
    (instructionsBetweenLoadOrStore s)
    (loadInstructionLabels s) (storeInstructionLabels s) (threads_invoked s)
    (instruction_count s) (workitem_instruction_count s)
    (ops_between_load_or_store s) (barriers_hit s)
    (global_memory_access_count s) (local_memory_access_count s)
    (constant_memory_access_count s) (previous_instruction_is_branch s)
    (target1 s) (target2 s) (branch_loc s) (ledger s) (psl_per_barrier s).

Definition workItemBarrier (s : WorkerState) : WorkerState :=
  mkWorkerState (allocated s) (storeOps s) (loadOps s) (computeOps s)
    (branchOps s)
    (instructionsBetweenBarriers s ++ [wrap32 (instruction_count s)])
    (instructionWidth s) (instructionsPerWorkitem s)
    (instructionsBetweenLoadOrStore s)
    (loadInstructionLabels s) (storeInstructionLabels s) (threads_invoked s)
    0 (workitem_instruction_count s)
    (ops_between_load_or_store s) (barriers_hit s + 1)
    (global_memory_access_count s) (local_memory_access_count s)
    (constant_memory_access_count s) (previous_instruction_is_branch s)
    (target1 s) (target2 s) (branch_loc s) (ledger s) (psl_per_barrier s).

Definition workItemClearBarrier (s : WorkerState) : WorkerState :=
  mkWorkerState (allocated s) (storeOps s) (loadOps s) (computeOps s)
    (branchOps s) (instructionsBetweenBarriers s) (instructionWidth s)
    (instructionsPerWorkitem s) (instructionsBetweenLoadOrStore s)
    (loadInstructionLabels s) (storeInstructionLabels s) (threads_invoked s)
    0 (workitem_instruction_count s)
    (ops_between_load_or_store s) (barriers_hit s)
    (global_memory_access_count s) (local_memory_access_count s)
    (constant_memory_access_count s) (previous_instruction_is_branch s)
    (target1 s) (target2 s) (branch_loc s) (ledger s) (psl_per_barrier s).

(** What [instructionExecuted] reads from the [llvm::Instruction]. *)
Inductive MemoryInst :=
| NotMemory
| LoadInst (name : string) (space : AddrSpace)
| StoreInst (name : string) (space : AddrSpace).

Record Instruction := mkInstruction {
  inst_handle : Z;
  getOpcode : Z;
  memory_inst : MemoryInst;
  getParent : Z;
  (** operands 1 and 2 when the opcode is [Br], there are three operands
      and both are labels *)
  conditional_targets : option (Z * Z)
}.

(** [branchOps[site].push_back(b)] on the map behind [m_state.branchOps] *)
Definition push_outcome (site : Z) (b : bool) (m : gmap Z (list bool))
    : gmap Z (list bool) :=
  <[site := default [] (m !! site) ++ [b]]> m.

(** [None] is the path that prints "Error in branching!" and raises
    [SIGINT]. *)
Definition instructionExecuted (instruction : Instruction) (num : Z)
    (s : WorkerState) : option WorkerState :=
  let ops := ops_between_load_or_store s + 1 in
  let is_mem :=
    match memory_inst instruction with NotMemory => false | _ => true end in
  let space :=
    match memory_inst instruction with
    | NotMemory => AddrSpacePrivate
    | LoadInst _ sp | StoreInst _ sp => sp
    end in
  let resolved :=
    if previous_instruction_is_branch s then
      if decide (getParent instruction = target1 s)
      then Some (push_outcome (branch_loc s) true (branchOps s))
      else if decide (getParent instruction = target2 s)
      then Some (push_outcome (branch_loc s) false (branchOps s))
      else None
    else Some (branchOps s) in
  match resolved with
  | None => None
  | Some branchOps' =>
      Some (mkWorkerState (allocated s) (storeOps s) (loadOps s)
        (bump wrap64 (getOpcode instruction) 1 (computeOps s))
        branchOps'
        (instructionsBetweenBarriers s)
        (bump wrap64 (wrap16 num) 1 (instructionWidth s))
        (instructionsPerWorkitem s)
        (if is_mem then instructionsBetweenLoadOrStore s ++ [wrap32 ops]
         else instructionsBetweenLoadOrStore s)
        (match memory_inst instruction with
         | LoadInst name _ => bump wrap64 name 1 (loadInstructionLabels s)
         | _ => loadInstructionLabels s
         end)
        (match memory_inst instruction with
         | StoreInst name _ => bump wrap64 name 1 (storeInstructionLabels s)
         | _ => storeInstructionLabels s
         end)
        (threads_invoked s)
        (instruction_count s + 1)
        (workitem_instruction_count s + 1)
        (if is_mem then 0 else ops)
        (barriers_hit s)
        (match is_mem, space with
         | true, AddrSpaceGlobal => global_memory_access_count s + 1
         | _, _ => global_memory_access_count s
         end)
        (match is_mem, space with
         | true, AddrSpaceLocal => local_memory_access_count s + 1
         | _, _ => local_memory_access_count s
         end)
        (match is_mem, space with
         | true, AddrSpaceConstant => constant_memory_access_count s + 1
         | _, _ => constant_memory_access_count s
         end)
        (match conditional_targets instruction with
         | Some _ => true
         | None => false
         end)
        (match conditional_targets instruction with
         | Some (t1, _) => t1
         | None => target1 s
         end)
        (match conditional_targets instruction with
         | Some (_, t2) => t2
         | None => target2 s
         end)
        (match conditional_targets instruction with
         | Some _ => inst_handle instruction
         | None => branch_loc s
         end)
        (ledger s) (psl_per_barrier s))
  end.

(** ** Entropy of a sparse histogram and parallel spatial locality *)

(** The skips 1..10 of the inner loop of [entropy]. *)
Definition skips_1_10 : list Z := seqZ 1 10.

(** The skips 0..10 of the loops of [logMetrics]. *)
Definition skips_0_10 : list Z := seqZ 0 11.

(** [local_address_count[nskip][addr >> nskip] += count;] for one entry of
    the histogram and every [nskip] of [skips]. *)
Definition count_entry (skips : list Z) (item : Z * Z)
    (local_address_count : list (gmap Z Z)) : list (gmap Z Z) :=
  foldl (λ lac nskip,
           alter (bump wrap32 (item.1 ≫ nskip) item.2) (Z.to_nat nskip) lac)
        local_address_count skips.

(** The first loop of [entropy]: the eleven bucketed histograms and
    [total_access_count]. *)
Definition entropy_counts (histogram : gmap Z Z) : list (gmap Z Z) * Z :=
  foldl (λ st item, (count_entry skips_1_10 item st.1, wrap64 (st.2 + item.2)))
        (<[0%nat := histogram]> (replicate 11 ∅), 0)
        (map_to_list histogram).

(** One pass of the loop that accumulates [local_entropy] over a bucketed
    histogram; [denominator] is what the counts are divided by.  The sum is
    the one of the real numbers: the rounding of the [double] operations is
    not modelled. *)
Definition entropy_loop (denominator : Z) (counts : list (Z * Z)) : double :=
  foldl (λ acc it,
           let prob := (of_Z it.2 * Finite 1 / of_Z denominator)%D in
           (acc - prob * dlog2 prob)%D)
        (Finite 0) counts.

Definition local_entropy (denominator : Z) (counts : gmap Z Z) : double :=
  entropy_loop denominator (map_to_list counts).

(** [loc_entropy[nskip] = (float)local_entropy] stores the sum after a
    narrowing cast, which is not modelled: an entry is the sum itself. *)
Definition entropy (histogram : gmap Z Z) : list double :=
  let local_address_count := (entropy_counts histogram).1 in
  let total_access_count := (entropy_counts histogram).2 in
  if decide (total_access_count = 0) then replicate 11 (Finite 0)
  else local_entropy (wrap64 (total_access_count + 1)) <$> local_address_count.

(** [maxLength]: the longest row of the ledger. *)
Definition max_row_length (hist : list (list ledgerElement)) : Z :=
  foldl (λ maxLength row,
           if decide (Z.of_nat (length row) > maxLength)
           then Z.of_nat (length row) else maxLength)
        0 hist.

(** The histogram of the addresses accessed at timestep [i]. *)
Definition timestep_histogram (hist : list (list ledgerElement)) (i : nat)
    : gmap Z Z :=
  foldl (λ histogram row,
           match row !! i with
           | None => histogram
           | Some current =>
               <[address current :=
                   wrap32 (default 0 (histogram !! address current) + 1)]>
                 histogram
           end)
        ∅ hist.

Definition parallelSpatialLocality (hist : list (list ledgerElement))
    : list double :=
  let maxLength := max_row_length hist in
  let entropies :=
    (λ i, entropy (timestep_histogram hist i)) <$> seq 0 (Z.to_nat maxLength) in
  (λ i : nat,
     (foldl (λ acc e, acc + default (Finite 0) (e !! i)) (Finite 0) entropies
      * Finite 1
      / (of_Z (Z.of_nat (length entropies)) + Finite 1))%D) <$> seq 0 11.

Definition workGroupBarrier (s : WorkerState) : WorkerState :=
  let psl := parallelSpatialLocality (ledger s) in
  let maxLength := max_row_length (ledger s) in
  mkWorkerState (allocated s) (storeOps s) (loadOps s) (computeOps s)
    (branchOps s) (instructionsBetweenBarriers s) (instructionWidth s)
    (instructionsPerWorkitem s) (instructionsBetweenLoadOrStore s)
    (loadInstructionLabels s) (storeInstructionLabels s) (threads_invoked s)
    (instruction_count s) (workitem_instruction_count s)
    (ops_between_load_or_store s) (barriers_hit s)
    (global_memory_access_count s) (local_memory_access_count s)
    (constant_memory_access_count s) (previous_instruction_is_branch s)
    (target1 s) (target2 s) (branch_loc s)
    ((λ _, []) <$> ledger s)
    (psl_per_barrier s ++ [(psl, maxLength)]).

(** ** The plugin object *)

(** Modelled from the spec: what the plugin reads from the
    [KernelInvocation] of the interpreter (section 3, invocation context). *)
Record KernelInvocation := mkKernelInvocation {
  getName : string;
  workGroupSizeSpecified : bool;
  getNumGroups : Size3.t;
  getLocalSize : Size3.t
}.

(** Modelled from the spec: the members of the plugin object are declared
    in [WorkloadCharacterisation.h]; they are the ones that the .cpp file
    reads and writes (section 3, invocation aggregate), with the transfer
    tracker kept as one component. *)
Record Plugin := mkPlugin {
  transfers : Transfer.t;
  m_kernelInvocation : option KernelInvocation;
  m_storeOps : gmap Z Z;
  m_loadOps : gmap Z Z;
  m_computeOps : gmap Z Z;
  m_branchPatterns : gmap Z (gmap Z Z);
  m_branchCounts : gmap Z Z;
  m_instructionsToBarrier : list Z;
  m_instructionWidth : gmap Z Z;
  m_instructionsPerWorkitem : list Z;
  m_instructionsBetweenLoadOrStore : list Z;
  m_loadInstructionLabels : gmap string Z;
  m_storeInstructionLabels : gmap string Z;
  m_threads_invoked : Z;
  m_barriers_hit : Z;
  m_global_memory_access : Z;
  m_local_memory_access : Z;
  m_constant_memory_access : Z;
  m_group_num : Size3.t;
  m_local_num : Size3.t;
  m_psl_per_group : list (list double)
}.

(** [kernelBegin]; [None] when the renaming loop leaves the vector. *)
Definition kernelBegin (kernelInvocation : KernelInvocation) (p : Plugin)
    : option Plugin :=
  match Transfer.kernelBegin (getName kernelInvocation) (transfers p) with
  | None => None
  | Some tr =>
      Some (mkPlugin tr (Some kernelInvocation) ∅ ∅ ∅ ∅ ∅ [] ∅ [] [] ∅ ∅
              0 0 0 0 0
              (getNumGroups kernelInvocation) (getLocalSize kernelInvocation)
              [])
  end.

(** *** Merging a work-group *)

(** The history window of the branch patterns. *)
Definition m_history : Z := 16.

(** The loop over the outcomes of one branch site: the state is
    [current_pattern], the index [i] and the pattern counts of the site. *)
Definition record_patterns (outcomes : list bool) (patterns : gmap Z Z)
    : gmap Z Z :=
  (foldl (λ st (b : bool),
            let current_pattern :=
              wrap16 (Z.lor (st.1.1 ≪ 1) (if b then 1 else 0)) in
            (current_pattern, st.1.2 + 1,
             if decide (st.1.2 >= m_history - 1)
             then bump unbounded current_pattern 1 st.2 else st.2))
         (0, 0, patterns) outcomes).2.

(** The body of the loop over [branchOps]; the state is
    [(m_branchCounts, m_branchPatterns)]. *)
Definition merge_branch (st : gmap Z Z * gmap Z (gmap Z Z))
    (branch : Z * list bool) : gmap Z Z * gmap Z (gmap Z Z) :=
  let counts := bump unbounded branch.1 (Z.of_nat (length branch.2)) st.1 in
  if decide (Z.of_nat (length branch.2) < m_history) then (counts, st.2)
  else (counts,
        <[branch.1 := record_patterns branch.2 (default ∅ (st.2 !! branch.1))]>
          st.2).

Definition merge_branches (branchOps : gmap Z (list bool))
    (st : gmap Z Z * gmap Z (gmap Z Z)) : gmap Z Z * gmap Z (gmap Z Z) :=
  foldl merge_branch st (map_to_list branchOps).

(** The weighted average over [psl_per_barrier] at the end of
    [workGroupComplete]. *)
Definition weighted_avg_psl (per_barrier : list (list double * Z))
    : list double :=
  let maxLength := foldl (λ acc elem, wrap64 (acc + elem.2)) 0 per_barrier in
  (λ nskip : nat,
     let sum :=
       foldl (λ acc elem,
                acc + default (Finite 0) (elem.1 !! nskip) * of_Z elem.2)%D
             (Finite 0) per_barrier in
     if decide (maxLength = 0) then sum
     else (sum / of_Z (wrap64 (maxLength + 1)))%D) <$> seq 0 11.

(** [workGroupComplete]: what it leaves in the thread-local state. *)
Definition workGroupComplete_state (s : WorkerState) : WorkerState :=
  let psl := parallelSpatialLocality (ledger s) in
  let maxLength := max_row_length (ledger s) in
  mkWorkerState (allocated s) (storeOps s) (loadOps s) (computeOps s)
    (branchOps s) (instructionsBetweenBarriers s) (instructionWidth s)
    (instructionsPerWorkitem s) (instructionsBetweenLoadOrStore s)
    (loadInstructionLabels s) (storeInstructionLabels s) (threads_invoked s)
    (instruction_count s) (workitem_instruction_count s)
    (ops_between_load_or_store s) (barriers_hit s)
    (global_memory_access_count s) (local_memory_access_count s)
    (constant_memory_access_count s) (previous_instruction_is_branch s)
    (target1 s) (target2 s) (branch_loc s)
    ((λ _, []) <$> ledger s)
    (psl_per_barrier s ++ [(psl, maxLength)]).

(** [workGroupComplete]: what it leaves in the plugin. *)
Definition workGroupComplete_plugin (s : WorkerState) (p : Plugin) : Plugin :=
  let branches :=
    merge_branches (branchOps s) (m_branchCounts p, m_branchPatterns p) in
  mkPlugin (transfers p) (m_kernelInvocation p)
    (merge_into unbounded (storeOps s) (m_storeOps p))
    (merge_into unbounded (loadOps s) (m_loadOps p))
    (merge_into unbounded (computeOps s) (m_computeOps p))
    branches.2 branches.1
    (m_instructionsToBarrier p ++ instructionsBetweenBarriers s)
    (merge_into unbounded (instructionWidth s) (m_instructionWidth p))
    (m_instructionsPerWorkitem p ++ instructionsPerWorkitem s)
    (m_instructionsBetweenLoadOrStore p ++ instructionsBetweenLoadOrStore s)
    (merge_into unbounded (loadInstructionLabels s) (m_loadInstructionLabels p))
    (merge_into unbounded (storeInstructionLabels s)
       (m_storeInstructionLabels p))
    (m_threads_invoked p + threads_invoked s)
    (m_barriers_hit p + barriers_hit s)
    (m_global_memory_access p + global_memory_access_count s)
    (m_local_memory_access p + local_memory_access_count s)
    (m_constant_memory_access p + constant_memory_access_count s)
    (m_group_num p) (m_local_num p)
    (m_psl_per_group p
       ++ [weighted_avg_psl (psl_per_barrier (workGroupComplete_state s))]).

Definition workGroupComplete (s : WorkerState) (p : Plugin)
    : WorkerState * Plugin :=
  (workGroupComplete_state s, workGroupComplete_plugin s p).

(** The counts behind a branch site of the aggregate. *)
Definition branch_count (p : Plugin) (site : Z) : Z :=
  default 0 (m_branchCounts p !! site).

Definition pattern_total (p : Plugin) (site : Z) : Z :=
  sum_values (default ∅ (m_branchPatterns p !! site)).

(** ** The metric reducer *)

(** [*std::min_element(v.begin(), v.end())]: dereferencing the end iterator
    of an empty range is undefined behaviour. *)
Definition min_element (v : list Z) : option Z :=
  match v with
  | [] => None
  | x :: rest => Some (foldl Z.min x rest)
  end.

Definition max_element (v : list Z) : option Z :=
  match v with
  | [] => None
  | x :: rest => Some (foldl Z.max x rest)
  end.

(** The median of a vector of [uint32_t] as [logMetrics] computes it from
    the sorted copy. *)
Definition median (v : list Z) : option Z :=
  let sorted := merge_sort Z.le v in
  let size := Z.of_nat (length sorted) in
  if decide (size mod 2 = 0) then
    match sorted !! Z.to_nat (wrap64 (size / 2 - 1)),
          sorted !! Z.to_nat (size / 2) with
    | Some a, Some b => Some (wrap32 (a + b) / 2)
    | _, _ => None
    end
  else sorted !! Z.to_nat (size / 2).

(** The histograms [local_address_count] of [logMetrics]: the stores are
    counted first, then the loads, each for the skips 0..10. *)
Definition address_counts (storeOps loadOps : gmap Z Z) : list (gmap Z Z) :=
  foldl (λ lac m, count_entry skips_0_10 m lac)
    (foldl (λ lac m, count_entry skips_0_10 m lac)
       (replicate 11 ∅) (map_to_list storeOps))
    (map_to_list loadOps).

(** [load_count] and [store_count]. *)
Definition access_total (ops : gmap Z Z) : Z :=
  foldl (λ acc m, wrap64 (acc + m.2)) 0 (map_to_list ops).

(** The comparator of the [partial_sort_copy] into [sorted_count], and the
    vector it fills: the entries of [local_address_count[0]] by descending
    count. *)
Definition count_greater (left right : Z * Z) : Prop := left.2 > right.2.

#[global] Instance count_greater_dec : RelDecision count_greater.
Proof. intros l r. unfold count_greater. apply _. Defined.

Definition sorted_count (lac : list (gmap Z Z)) : list (Z * Z) :=
  merge_sort count_greater (map_to_list (default ∅ (lac !! 0%nat))).

Definition memory_access_count (sorted : list (Z * Z)) : Z :=
  foldl (λ acc e, wrap64 (acc + e.2)) 0 sorted.

(** The rows of the report that are derived here.  The rows
    [opcode_counts], [work_groups], [work_items_per_work_group],
    [memory_footprint_90pc], [branch_counts] and the two branch entropies
    are not part of this record. *)
Record Report := mkReport {
  freedom_to_reorder : double;
  resource_pressure : double;
  work_items : Z;
  SIMD_operand_sum : Z;
  total_barriers_hit : Z;
  min_ITB : Z;
  max_ITB : Z;
  median_ITB : Z;
  min_IPT : Z;
  max_IPT : Z;
  median_IPT : Z;
  min_SIMD_width : Z;
  max_SIMD_width : Z;
  mean_SIMD_width : double;
  sd_SIMD_width : double;
  num_memory_accesses : Z;
  total_memory_footprint : Z;
  unique_reads : Z;
  unique_writes : Z;
  unique_read_write_ratio : double;
  total_reads : Z;
  total_writes : Z;
  rereads : double;
  rewrites : double;
  global_memory_address_entropy : double;
  LMAE : list (Z * double);
  normed_PSL : list double;
  total_global_memory_accessed : Z;
  total_local_memory_accessed : Z;
  total_constant_memory_accessed : Z
}.

(** How a call of the reducer ends: the report is written; or the log file
    cannot be opened, the one error that the reducer reports (the message
    [[AIWC error] Failed to open file for logging] on [std::cerr] and
    [return], without a report); or the call has run into undefined
    behaviour, an access outside a container. *)
Inductive Outcome :=
| Emitted (r : Report)
| LogfileError
| UndefinedBehaviour.

(** [avg_psl]: the loop bound reads [m_psl_per_group[0]]. *)
Definition avg_psl (p : Plugin) : option (list double) :=
  match m_psl_per_group p with
  | [] => None
  | first :: _ =>
      let items_per_group :=
        wrap32 (Size3.x (m_local_num p) * Size3.y (m_local_num p)
                * Size3.z (m_local_num p)) in
      Some ((λ i : nat,
               (foldl (λ acc g, acc + default (Finite 0) (g !! i)) (Finite 0)
                  (m_psl_per_group p)
                / of_Z (Z.of_nat (length (m_psl_per_group p)))
                / dlog2 (of_Z (wrap32 (items_per_group + 1))))%D)
              <$> seq 0 (length first))
  end.

(** [logfile_is_open] is what [logfile.is_open()] answers after
    [logfile.open(logfile_name, std::ios::app)].  The reductions come before
    the file is opened, so that an empty container is undefined behaviour
    whether the file opens or not.  The rows are the values that the
    arithmetic of real numbers gives: the rounding of the [double]
    operations and the casts to [float] of the local entropies and of the
    ratios are not modelled. *)
Definition logMetrics (logfile_is_open : bool) (p : Plugin) : Outcome :=
  let freedom :=
    (foldl (λ acc v, acc + of_Z v) (Finite 0)
       (m_instructionsBetweenLoadOrStore p)
     / of_Z (Z.of_nat (length (m_instructionsBetweenLoadOrStore p))))%D in
  let pressure :=
    (foldl (λ acc item, acc + of_Z item.2)
       (foldl (λ acc item, acc + of_Z item.2) (Finite 0)
          (map_to_list (m_storeInstructionLabels p)))
       (map_to_list (m_loadInstructionLabels p))
     / of_Z (m_threads_invoked p))%D in
  let widths := map_to_list (m_instructionWidth p) in
  let simd_sum := foldl (λ acc item, wrap32 (acc + item.2 * item.1)) 0 widths in
  let simd_num := foldl (λ acc item, wrap32 (acc + item.2)) 0 widths in
  let simd_mean := (of_Z simd_sum / of_Z simd_num)%D in
  let simd_sq_sum :=
    foldl (λ acc item,
             acc + (of_Z item.1 - simd_mean) * (of_Z item.1 - simd_mean)
                   * of_Z item.2)%D (Finite 0) widths in
  let simd_stdev := dsqrt (simd_sq_sum / of_Z simd_num) in
  let local_address_count := address_counts (m_storeOps p) (m_loadOps p) in
  let load_count := access_total (m_loadOps p) in
  let store_count := access_total (m_storeOps p) in
  let sorted := sorted_count local_address_count in
  let accesses := memory_access_count sorted in
  let mem_entropy := entropy_loop accesses sorted in
  let loc_entropy :=
    (λ nskip,
       (nskip,
        local_entropy accesses
          (default ∅ (local_address_count !! Z.to_nat nskip)))) <$> skips_1_10 in
  let loads := Z.of_nat (size (m_loadOps p)) in
  let stores := Z.of_nat (size (m_storeOps p)) in
  match min_element (m_instructionsToBarrier p),
        max_element (m_instructionsToBarrier p),
        median (m_instructionsToBarrier p),
        min_element (m_instructionsPerWorkitem p),
        max_element (m_instructionsPerWorkitem p),
        median (m_instructionsPerWorkitem p),
        min_element widths.*1, max_element widths.*1, avg_psl p with
  | Some itb_min, Some itb_max, Some itb_median,
    Some ipt_min, Some ipt_max, Some ipt_median,
    Some simd_min, Some simd_max, Some psl =>
      if logfile_is_open then
        Emitted (mkReport freedom pressure (m_threads_invoked p) simd_sum
          (m_barriers_hit p) itb_min itb_max itb_median
          ipt_min ipt_max ipt_median simd_min simd_max simd_mean simd_stdev
          accesses
          (Z.of_nat (size (default ∅ (local_address_count !! 0%nat))))
          stores
          loads
          (of_Z loads / of_Z stores)%D
          load_count
          store_count
          (of_Z load_count / of_Z loads)%D
          (of_Z store_count / of_Z stores)%D
          mem_entropy loc_entropy psl
          (m_global_memory_access p) (m_local_memory_access p)
          (m_constant_memory_access p))
      else LogfileError
  | _, _, _, _, _, _, _, _, _ => UndefinedBehaviour
  end.

(** The members that [kernelEnd] resets after the report. *)
Definition kernelEnd_reset (p : Plugin) : Plugin :=
  mkPlugin (transfers p) None ∅ ∅ ∅ ∅ ∅ []
    (m_instructionWidth p) [] [] ∅ ∅ 0
    (m_barriers_hit p) (m_global_memory_access p) (m_local_memory_access p)
    (m_constant_memory_access p) (m_group_num p) (m_local_num p)
    (m_psl_per_group p).

(** [kernelEnd]: the report, if one is written, and the plugin it leaves;
    [None] when the reducer ran into undefined behaviour.  The members are
    reset also when the reducer has returned without a report. *)
Definition kernelEnd (logfile_is_open : bool) (p : Plugin)
    : option (option Report * Plugin) :=
  match logMetrics logfile_is_open p with
  | Emitted r => Some (Some r, kernelEnd_reset p)
  | LogfileError => Some (None, kernelEnd_reset p)
  | UndefinedBehaviour => None
  end.

(** The aggregate of an invocation is empty: every container is empty and
    every counter is zero. *)
Definition aggregate_cleared (p : Plugin) : Prop :=
  m_storeOps p = ∅ ∧ m_loadOps p = ∅ ∧ m_computeOps p = ∅ ∧
  m_branchPatterns p = ∅ ∧ m_branchCounts p = ∅ ∧
  m_instructionsToBarrier p = [] ∧ m_instructionWidth p = ∅ ∧
  m_instructionsPerWorkitem p = [] ∧
  m_instructionsBetweenLoadOrStore p = [] ∧
  m_loadInstructionLabels p = ∅ ∧ m_storeInstructionLabels p = ∅ ∧
  m_threads_invoked p = 0 ∧ m_barriers_hit p = 0 ∧
  m_global_memory_access p = 0 ∧ m_local_memory_access p = 0 ∧
  m_constant_memory_access p = 0 ∧ m_psl_per_group p = [].

(** The histogram of one skip of [entropy], and its total, as the folds
    that the routine performs over the entries of the histogram. *)
Definition bucketed (skip : Z) (entries : list (Z * Z)) : gmap Z Z :=
  foldl (λ m item, bump wrap32 (item.1 ≫ skip) item.2 m) ∅ entries.

Definition total_of (entries : list (Z * Z)) : Z :=
  foldl (λ acc item, wrap64 (acc + item.2)) 0 entries.

(** The sum of the counts of the entries that fall into [bucket]. *)
Definition count_in (skip : Z) (entries : list (Z * Z)) (bucket : Z) : Z :=
  sumZ (filter (λ e, e.1 ≫ skip = bucket) entries).*2.

(** ** The entropy of a histogram as the specification states it *)

(** [total]: the sum of all counts. *)
Definition hist_total (histogram : gmap Z Z) : Z := sum_values histogram.

(** The count of a bucket: the sum of the counts of the addresses with
    [address >> skip = bucket]. *)
Definition bucket_total (histogram : gmap Z Z) (skip bucket : Z) : Z :=
  sumZ (filter (λ e, e.1 ≫ skip = bucket) (map_to_list histogram)).*2.

(** The buckets that hold an address of the histogram. *)
Definition buckets (histogram : gmap Z Z) (skip : Z) : gset Z :=
  list_to_set ((λ e, e.1 ≫ skip) <$> map_to_list histogram).

(** [H_skip = - sum p * log2 p] over the buckets, with
    [p = count / (total + 1)], and 0 when [total = 0]. *)
Definition entropy_spec (histogram : gmap Z Z) (skip : Z) : R :=
  if decide (hist_total histogram = 0) then 0%R
  else (- sumR ((λ bucket,
                   let p := (IZR (bucket_total histogram skip bucket)
                             / IZR (hist_total histogram + 1))%R in
                   (p * log2 p)%R) <$> elements (buckets histogram skip)))%R.





(** ** The callbacks seen from one interpreter thread

    The plugin object together with the thread-local state of one worker
    thread, driven by the callbacks in the order in which the interpreter
    makes them.  [emitted] collects the reports written by [kernelEnd];
    the callback [CbKernelEnd] carries the answer of the file system,
    whether the log file of the report can be opened. *)

Record System := mkSystem {
  plugin : Plugin;
  worker : WorkerState;
  emitted : list Report
}.

Inductive callback :=
| CbKernelBegin (kernelInvocation : KernelInvocation)
| CbKernelEnd (logfile_is_open : bool)
| CbHostMemoryStore
| CbHostMemoryLoad
| CbWorkGroupBegin
| CbWorkGroupBarrier
| CbWorkGroupComplete
| CbWorkItemBegin
| CbWorkItemBarrier
| CbWorkItemClearBarrier
| CbWorkItemComplete
| CbInstructionExecuted (instruction : Instruction) (num : Z)
| CbMemoryLoad (space : AddrSpace) (localID : Size3.t) (address : Z)
| CbMemoryStore (space : AddrSpace) (localID : Size3.t) (address : Z).

Definition set_transfers (tr : Transfer.t) (p : Plugin) : Plugin :=
  mkPlugin tr (m_kernelInvocation p) (m_storeOps p) (m_loadOps p)
    (m_computeOps p) (m_branchPatterns p) (m_branchCounts p)
    (m_instructionsToBarrier p) (m_instructionWidth p)
    (m_instructionsPerWorkitem p) (m_instructionsBetweenLoadOrStore p)
    (m_loadInstructionLabels p) (m_storeInstructionLabels p)
    (m_threads_invoked p) (m_barriers_hit p) (m_global_memory_access p)
    (m_local_memory_access p) (m_constant_memory_access p)
    (m_group_num p) (m_local_num p) (m_psl_per_group p).

Definition on_worker (f : WorkerState → option WorkerState) (sys : System)
    : option System :=
  match f (worker sys) with
  | Some s => Some (mkSystem (plugin sys) s (emitted sys))
  | None => None
  end.

(** One callback.  A callback that reaches a thread before the first
    [workGroupBegin] of the thread dereferences a null pointer in the code;
    here it acts on the initial state, so that a statement about all
    sequences of callbacks also covers sequences that the code does not
    survive. *)
Definition callback_step (sys : System) (cb : callback) : option System :=
  match cb with
  | CbKernelBegin ki =>
      match kernelBegin ki (plugin sys) with
      | Some p => Some (mkSystem p (worker sys) (emitted sys))
      | None => None
      end
  | CbKernelEnd logfile_is_open =>
      match kernelEnd logfile_is_open (plugin sys) with
      | Some (r, p) =>
          Some (mkSystem p (worker sys) (emitted sys ++ option_list r))
      | None => None
      end
  | CbHostMemoryStore =>
      Some (mkSystem
              (set_transfers (Transfer.hostMemoryStore (transfers (plugin sys)))
                 (plugin sys))
              (worker sys) (emitted sys))
  | CbHostMemoryLoad =>
      Some (mkSystem
              (set_transfers (Transfer.hostMemoryLoad (transfers (plugin sys)))
                 (plugin sys))
              (worker sys) (emitted sys))
  | CbWorkGroupBegin =>
      on_worker (λ s, Some (workGroupBegin (m_local_num (plugin sys)) s)) sys
  | CbWorkGroupBarrier => on_worker (λ s, Some (workGroupBarrier s)) sys
  | CbWorkGroupComplete =>
      Some (mkSystem (workGroupComplete_plugin (worker sys) (plugin sys))
              (workGroupComplete_state (worker sys)) (emitted sys))
  | CbWorkItemBegin => on_worker (λ s, Some (workItemBegin s)) sys
  | CbWorkItemBarrier => on_worker (λ s, Some (workItemBarrier s)) sys
  | CbWorkItemClearBarrier => on_worker (λ s, Some (workItemClearBarrier s)) sys
  | CbWorkItemComplete => on_worker (λ s, Some (workItemComplete s)) sys
  | CbInstructionExecuted i num => on_worker (instructionExecuted i num) sys
  | CbMemoryLoad space localID address =>
      on_worker (memoryLoad (m_local_num (plugin sys)) space localID address) sys
  | CbMemoryStore space localID address =>
      on_worker (memoryStore (m_local_num (plugin sys)) space localID address)
        sys
  end.

Fixpoint simulate (cbs : list callback) (sys : System) : option System :=
  match cbs with
  | [] => Some sys
  | cb :: rest =>
      match callback_step sys cb with
      | Some sys' => simulate rest sys'
      | None => None
      end
  end.

(** What a callback is for the transfer tracker. *)
Definition tracker_event (cb : callback) : Transfer.event :=
  match cb with
  | CbKernelBegin ki => Transfer.KernelBegin (getName ki)
  | CbHostMemoryStore => Transfer.HostMemoryStore
  | CbHostMemoryLoad => Transfer.HostMemoryLoad
  | _ => Transfer.OtherCallback
  end.

(** The plugin after its constructor, next to a thread that has not run a
    work-group yet.  The scalar members that the constructor leaves
    uninitialised are written as 0; [kernelBegin] assigns every one of them
    before it is read. *)
Definition constructed : System :=
  mkSystem
    (mkPlugin Transfer.init None ∅ ∅ ∅ ∅ ∅ [] ∅ [] [] ∅ ∅ 0 0 0 0 0
       (Size3.mk 0 0 0) (Size3.mk 0 0 0) [])
    m_state_initial [].

(** ** Scenarios *)

(** A kernel launched on [local_x] x 1 x 1 work-items per group, one group. *)
Definition kernel_1d (name : string) (local_x : Z) : KernelInvocation :=
  mkKernelInvocation name true (Size3.mk 1 1 1) (Size3.mk local_x 1 1).

(** A return, a load through the global pointer [a] and a store through it;
    the opcode numbers stand for the ones of the interpreter's IR. *)
Definition ret_inst : Instruction := mkInstruction 100 1 NotMemory 10 None.

Definition load_inst : Instruction :=
  mkInstruction 101 32 (LoadInst "a" AddrSpaceGlobal) 10 None.

(** One work-item that loads from address 4096, passes a barrier and
    returns; then the kernel ends. *)
Definition barrier_kernel_body : list callback :=
  [CbKernelBegin (kernel_1d "k" 1); CbWorkGroupBegin; CbWorkItemBegin;
   CbInstructionExecuted load_inst 1;
   CbMemoryLoad AddrSpaceGlobal (Size3.mk 0 0 0) 4096;
   CbWorkItemBarrier; CbWorkGroupBarrier; CbWorkItemClearBarrier;
   CbInstructionExecuted ret_inst 1; CbWorkItemComplete;
   CbWorkGroupComplete].

Definition barrier_kernel : list callback :=
  barrier_kernel_body ++ [CbKernelEnd true].

(** The same thread then starts a work-group of a kernel with two
    work-items per group. *)
Definition second_kernel_wider : list callback :=
  barrier_kernel ++ [CbKernelBegin (kernel_1d "k2" 2); CbWorkGroupBegin].

(** The plugin after the [kernelBegin] of [barrier_kernel], next to a
    thread that has not run a work-group yet. *)
Definition first_kernel_begun : System :=
  mkSystem
    (mkPlugin (Transfer.mk [] [] "k" 0) (Some (kernel_1d "k" 1))
       ∅ ∅ ∅ ∅ ∅ [] ∅ [] [] ∅ ∅ 0 0 0 0 0
       (Size3.mk 1 1 1) (Size3.mk 1 1 1) [])
    m_state_initial [].

(** The loads of the sequential load stream: [n] loads of one work-item
    from consecutive 4-byte addresses starting at [base]. *)
Definition load_stream (base : Z) (n : nat) : list callback :=
  mjoin ((λ i : nat,
            [CbInstructionExecuted load_inst 1;
             CbMemoryLoad AddrSpaceGlobal (Size3.mk 0 0 0)
               (base + 4 * Z.of_nat i)]) <$> seq 0 n).

(** The sequential load stream: one work-item, 1024 loads from 0x1000 on,
    first the callbacks of the work-item, then the merge and the report. *)
Definition sequential_load_stream_work : list callback :=
  [CbKernelBegin (kernel_1d "stream" 1); CbWorkGroupBegin; CbWorkItemBegin]
  ++ load_stream 4096 1024
  ++ [CbInstructionExecuted ret_inst 1; CbWorkItemComplete].

Definition sequential_load_stream : list callback :=
  sequential_load_stream_work ++ [CbWorkGroupComplete; CbKernelEnd true].

(** A thread that has not run a work-group yet, in an invocation with
    2 x 3 x 1 work-items per group. *)
Definition fresh_thread_2x3 : System :=
  mkSystem
    (mkPlugin Transfer.init None ∅ ∅ ∅ ∅ ∅ [] ∅ [] [] ∅ ∅ 0 0 0 0 0
       (Size3.mk 1 1 1) (Size3.mk 2 3 1) [])
    m_state_initial [].

(** A conditional branch at site 200 with the targets 11 and 12, and an
    instruction of block 11, the first target. *)
Definition br_inst : Instruction :=
  mkInstruction 200 2 NotMemory 10 (Some (11, 12)).

Definition taken_inst : Instruction := mkInstruction 201 13 NotMemory 11 None.

(** One work-item that passes the branch [n] times, taking it each time. *)
Definition branch_kernel_body (n : nat) : list callback :=
  [CbKernelBegin (kernel_1d "loop" 1); CbWorkGroupBegin; CbWorkItemBegin]
  ++ mjoin (replicate n [CbInstructionExecuted br_inst 1;
                         CbInstructionExecuted taken_inst 1])
  ++ [CbInstructionExecuted ret_inst 1; CbWorkItemComplete;
      CbWorkGroupComplete].

(** The aggregate after [kernelBegin] and the merge of the work-groups
    whose worker states are [groups], in the order of the merges. *)
Definition merged (p : Plugin) (groups : list WorkerState) : Plugin :=
  foldl (λ acc s, workGroupComplete_plugin s acc) p groups.

(** The invariant of the two maps: at every site the pattern total is
    below the count, and strictly below as soon as the count is not 0. *)
Definition branch_invariant (st : gmap Z Z * gmap Z (gmap Z Z)) : Prop :=
  ∀ s, 0 <= sum_values (default ∅ (st.2 !! s)) <= default 0 (st.1 !! s)
       ∧ (sum_values (default ∅ (st.2 !! s)) = default 0 (st.1 !! s)
          → default 0 (st.1 !! s) = 0).

(** A worker state at the end of a work-group in which the branch site 200
    was taken [n] times and nothing else was recorded. *)
Definition worker_with_branch (n : nat) : WorkerState :=
  mkWorkerState true ∅ ∅ ∅ {[200 := replicate n true]} [] ∅ [] [] ∅ ∅
    0 0 0 0 0 0 0 0 false 0 0 0 [[]] [].

(** ** The attribution of the copies, event by event *)

Module Attribution.
Import Transfer.

(** The name given by the first [kernelBegin] among [evs], if there is one. *)
Fixpoint next_named (evs : list event) : option string :=
  match evs with
  | [] => None
  | KernelBegin name :: _ => Some name
  | _ :: rest => next_named rest
  end.

(** The kernel that every host-to-device copy of [evs] ends up with: the
    next kernel that begins after the copy, and [prev], the kernel that
    began last before the copy, when none begins after it. *)
Fixpoint host_to_device (prev : string) (evs : list event) : list string :=
  match evs with
  | [] => []
  | HostMemoryStore :: rest =>
      default prev (next_named rest) :: host_to_device prev rest
  | KernelBegin name :: rest => host_to_device name rest
  | _ :: rest => host_to_device prev rest
  end.

(** The kernel that every device-to-host copy of [evs] ends up with: the
    kernel that began last before the copy. *)
Fixpoint device_to_host (prev : string) (evs : list event) : list string :=
  match evs with
  | [] => []
  | HostMemoryLoad :: rest => prev :: device_to_host prev rest
  | KernelBegin name :: rest => device_to_host name rest
  | _ :: rest => device_to_host prev rest
  end.

End Attribution.

(** [logMetrics] chooses the file of the report: the path of
    OCLGRIND_WORKLOAD_CHARACTERISATION_OUTPUT_PATH when it is set, and
    otherwise the first name [aiwc_<kernel>_<n>.csv] that cannot be opened
    for reading, in the directory of
    OCLGRIND_WORKLOAD_CHARACTERISATION_OUTPUT_DIR when that is set. *)
Definition report_logfile (result_path result_dir : option string)
    (fs : gset string) (kernel : string) (fuel : nat) : option string :=
  match result_path with
  | Some path => Some path
  | None =>
      let prefix :=
        match result_dir with Some dir => dir +:+ "/" | None => "" end in
      match Transfer.kernel_logfile_loop fs prefix kernel fuel 0 with
      | Some logfile_count =>
          Some (Transfer.kernel_logfile_name prefix kernel logfile_count)
      | None => None
      end
  end.

(** The counting maps and the counters of the aggregate, without the
    sequences and the locality vectors, whose order is the order of the
    merges. *)
Definition counters (p : Plugin) :=
  (m_storeOps p, m_loadOps p, m_computeOps p, m_instructionWidth p,
   m_loadInstructionLabels p, m_storeInstructionLabels p,
   (m_branchCounts p, m_branchPatterns p),
   (m_threads_invoked p, m_barriers_hit p, m_global_memory_access p,
    m_local_memory_access p, m_constant_memory_access p)).

(** ** Callbacks by kind *)

(** The callbacks that append a record to [psl_per_barrier]. *)
Definition records_locality (cb : callback) : bool :=
  match cb with
  | CbWorkGroupBarrier | CbWorkGroupComplete => true
  | _ => false
  end.

(** The callbacks that append to the ledger: the loads and the stores
    outside private memory. *)
Definition appends_to_ledger (cb : callback) : bool :=
  match cb with
  | CbMemoryLoad space _ _ | CbMemoryStore space _ _ =>
      match space with AddrSpacePrivate => false | _ => true end
  | _ => false
  end.

(** The callbacks that leave every row of the ledger empty. *)
Definition empties_ledger (cb : callback) : bool :=
  match cb with
  | CbWorkGroupBegin | CbWorkGroupBarrier | CbWorkGroupComplete => true
  | _ => false
  end.

Definition is_instruction (cb : callback) : bool :=
  match cb with CbInstructionExecuted _ _ => true | _ => false end.

Definition is_group_begin (cb : callback) : bool :=
  match cb with CbWorkGroupBegin => true | _ => false end.

(** A local ID inside a work-group of the size [m_local_num]. *)
Definition in_group (m_local_num localID : Size3.t) : Prop :=
  0 <= Size3.x localID < Size3.x m_local_num
  ∧ 0 <= Size3.y localID < Size3.y m_local_num
  ∧ 0 <= Size3.z localID < Size3.z m_local_num.

(** A thread that has allocated its state for groups of 1 x 1 x 1
    work-items, next to the plugin after its constructor. *)
Definition allocated_thread : System :=
  mkSystem (plugin constructed)
    (workGroupBegin (Size3.mk 1 1 1) m_state_initial) [].

(** The callbacks between the begin and the end of a work-item that leave
    the sequence [instructionsPerWorkitem] and the counter behind it
    alone, except for counting an instruction. *)
Definition inside_work_item (cb : callback) : bool :=
  match cb with
  | CbWorkItemBegin | CbWorkItemComplete | CbWorkGroupBegin => false
  | _ => true
  end.

Definition is_item_barrier (cb : callback) : bool :=
  match cb with CbWorkItemBarrier => true | _ => false end.

(** ** Values within bounds *)

(** A finite value between [lo] and [hi]. *)
Definition within (lo hi : R) (d : double) : Prop :=
  ∃ v, d = Finite v ∧ (lo <= v <= hi)%R.

(** A locality vector: eleven finite values between 0 and [hi]. *)
Definition locality_within (hi : R) (v : list double) : Prop :=
  length v = 11%nat ∧ ∀ d, d ∈ v → within 0 hi d.

(** The number of elements of a ledger. *)
Definition ledger_elements (l : list (list ledgerElement)) : Z :=
  sumZ ((λ row, Z.of_nat (length row)) <$> l).

(** The kernels that begin among [cbs] all have the local size [ls]. *)
Definition local_size_is (ls : Size3.t) (cb : callback) : Prop :=
  match cb with
  | CbKernelBegin kernelInvocation => getLocalSize kernelInvocation = ls
  | _ => True
  end.

(** What the locality records of a thread and the locality vectors of the
    aggregate satisfy while every kernel has the local size [ls]. *)
Definition worker_locality_inv (ls : Size3.t) (s : WorkerState) : Prop :=
  Z.of_nat (length (ledger s)) <= items_of ls
  ∧ ∀ rec, rec ∈ psl_per_barrier s →
      0 <= rec.2 ∧ locality_within (log2 (IZR (items_of ls + 1))) rec.1.

Definition plugin_locality_inv (ls : Size3.t) (p : Plugin) : Prop :=
  m_local_num p = ls
  ∧ ∀ g, g ∈ m_psl_per_group p →
      locality_within (log2 (IZR (items_of ls + 1))) g.

(** The weights of the records of a thread plus the elements that its
    ledger holds. *)
Definition locality_budget (s : WorkerState) : Z :=
  sumZ (psl_per_barrier s).*2 + ledger_elements (ledger s).

(** ** The branch entropies of the reducer *)

(** [x < y] on floating-point values: false as soon as one of them is
    NaN. *)
Definition dlt (x y : double) : bool :=
  match x, y with
  | NaN, _ | _, NaN => false
  | Finite a, Finite b =>
      match Rsign (a - b) with Lt => true | _ => false end
  | Finite _, PosInf => true
  | Finite _, NegInf => false
  | PosInf, _ => false
  | NegInf, NegInf => false
  | NegInf, _ => true
  end.

(** [std::min(a, b)]: [b] when [b < a], and [a] otherwise. *)
Definition dmin (a b : double) : double := if dlt b a then b else a.

(** [x != 0]. *)
Definition dne0 (x : double) : bool :=
  match x with
  | Finite a => match Rsign a with Eq => false | _ => true end
  | _ => true
  end.

Definition isnan (x : double) : bool :=
  match x with NaN => true | _ => false end.

(** The loop [while (p) { p &= p - 1; taken++; }] over a [uint16_t p] and
    an [unsigned taken], with [fuel] iterations left. *)
Fixpoint kernighan (fuel : nat) (p taken : Z) : option Z :=
  match fuel with
  | O => None
  | S fuel' =>
      if decide (p = 0) then Some taken
      else kernighan fuel' (wrap16 (Z.land p (p - 1))) (wrap32 (taken + 1))
  end.

(** The number of bits that are set in the binary representation of a
    number that is not negative. *)
Fixpoint pos_popcount (p : positive) : Z :=
  match p with
  | xH => 1
  | xO q => pos_popcount q
  | xI q => 1 + pos_popcount q
  end.

Definition popcount (p : Z) : Z :=
  match p with
  | Zpos q => pos_popcount q
  | _ => 0
  end.

(** [const unsigned m = 16] of [logMetrics]. *)
Definition logMetrics_m : Z := 16.

(** The body of the loop over the patterns of a branch; the state is
    [average_entropy], [yokota_entropy], [yokota_entropy_per_workload] and
    [N].  [None] stands for a loop that ran out of iterations.  The three
    accumulators are [float] variables in the code; here they hold the sums
    of the real numbers, without the rounding. *)
Definition pattern_step (st : option (double * double * double * Z))
    (h : Z * Z) : option (double * double * double * Z) :=
  match st with
  | None => None
  | Some (average_entropy, yokota_entropy, yokota_entropy_per_workload, N) =>
      let pattern := wrap16 h.1 in
      let number_of_occurrences := wrap32 h.2 in
      match kernighan 17 pattern 0 with
      | None => None
      | Some taken =>
          let not_taken := wrap32 (logMetrics_m - taken) in
          let probability_of_taken :=
            (of_Z taken / of_Z (wrap32 (not_taken + taken)))%D in
          let linear_branch_entropy :=
            (Finite 2
             * dmin probability_of_taken (Finite 1 - probability_of_taken))%D in
          Some ((average_entropy
                 + of_Z number_of_occurrences * linear_branch_entropy)%D,
                (if dne0 probability_of_taken
                 then (yokota_entropy
                       - of_Z number_of_occurrences * probability_of_taken
                         * dlog2 probability_of_taken)%D
                 else yokota_entropy),
                (if dne0 probability_of_taken
                 then (yokota_entropy_per_workload
                       - probability_of_taken * dlog2 probability_of_taken)%D
                 else yokota_entropy_per_workload),
                wrap32 (N + number_of_occurrences))
      end
  end.

(** The rows [yokota_branch_entropy] and [average_linear_branch_entropy]
    of the report. *)
Definition branch_entropies (branchPatterns : gmap Z (gmap Z Z))
    : option (double * double) :=
  match foldl (λ st branch, foldl pattern_step st (map_to_list branch.2))
          (Some (Finite 0, Finite 0, Finite 0, 0))
          (map_to_list branchPatterns) with
  | None => None
  | Some (average_entropy, _, yokota_entropy_per_workload, N) =>
      let average_entropy := (average_entropy / of_Z N)%D in
      Some (yokota_entropy_per_workload,
            if isnan average_entropy then Finite 0 else average_entropy)
  end.

(** The pattern occurrences of all branches, in the order of the loops. *)
Definition pattern_entries (branchPatterns : gmap Z (gmap Z Z))
    : list (Z * Z) :=
  mjoin ((λ branch, map_to_list branch.2) <$> map_to_list branchPatterns).

(** ** The sorted rows of the report *)

(** The rows [opcode_counts]: the entries of [m_computeOps] sorted by
    descending count.  [std::partial_sort_copy] leaves the order of entries
    with equal counts open; the merge sort is one of the orders it may
    produce. *)
Definition sorted_ops (computeOps : gmap Z Z) : list (Z * Z) :=
  merge_sort count_greater (map_to_list computeOps).

(** The comparator of the [std::sort] of the rows [branch_counts]. *)
Definition branch_before (left right : Z * Z) : Prop :=
  if decide (left.2 ≠ right.2) then left.2 > right.2 else left.1 < right.1.

#[global] Instance branch_before_dec : RelDecision branch_before.
Proof. intros l r. unfold branch_before. case_decide; apply _. Defined.

(** The rows [branch_counts]; [instruction_to_id] is the line of the
    debug location of the branch, or its address. *)
Definition sorted_branch_ops (instruction_to_id : Z → Z)
    (branchCounts : gmap Z Z) : list (Z * Z) :=
  merge_sort branch_before
    ((λ item, (wrap64 (instruction_to_id item.1), wrap32 item.2))
       <$> map_to_list branchCounts).

(** Sorted for a strict comparator: no element is followed by one that the
    comparator puts before it. *)
Definition not_after {A} (R : relation A) : relation A := λ x y, ¬ R y x.

(** * Properties *)

(** ** Machine integers *)

Lemma wrap32_small z : 0 <= z < 2 ^ 32 -> wrap32 z = z.
Proof. intros H. unfold wrap32. now apply Z.mod_small. Qed.

Lemma wrap64_small z : 0 <= z < 2 ^ 64 -> wrap64 z = z.
Proof. intros H. unfold wrap64. now apply Z.mod_small. Qed.

Lemma wrap16_range z : 0 <= wrap16 z < 2 ^ 16.
Proof. unfold wrap16. apply Z.mod_pos_bound. lia. Qed.

Lemma wrap32_range z : 0 <= wrap32 z < 2 ^ 32.
Proof. unfold wrap32. apply Z.mod_pos_bound. lia. Qed.

Lemma wrap64_range z : 0 <= wrap64 z < 2 ^ 64.
Proof. unfold wrap64. apply Z.mod_pos_bound. lia. Qed.

(** ** The transfer tracker *)

Section TransferFacts.
Import Transfer.

(** The renaming loop stays inside the vector when it has at most as many
    iterations left as there are entries before the ones already visited,
    and it overwrites exactly those trailing entries. *)
Lemma rename_loop_spec (todo : nat) : ∀ (i : nat) (name : string) (v : list string),
  (todo + i ≤ length v)%nat →
  ∃ v', rename_loop todo (Z.of_nat i) (Z.of_nat (length v) - 1) name v = Some v'
        ∧ length v' = length v
        ∧ ∀ j : nat,
            v' !! j =
            if decide (length v - i - todo ≤ j < length v - i)%nat
            then Some name else v !! j.
Proof.
  induction todo as [|todo IH]; intros i name v Hle.
  - exists v. split; [done|]. split; [done|]. intros j.
    case_decide; [lia|done].
  - cbn [rename_loop]. case_decide as Hidx; [|lia].
    set (k := Z.to_nat (Z.of_nat (length v) - 1 - Z.of_nat i)).
    assert (Hk : k = (length v - 1 - i)%nat) by (subst k; lia).
    destruct (IH (S i) name (<[k := name]> v)) as (v' & Hrun & Hlen & Hget).
    { rewrite length_insert. lia. }
    rewrite length_insert in Hrun, Hlen, Hget.
    exists v'. replace (Z.of_nat i + 1) with (Z.of_nat (S i)) by lia.
    split; [exact Hrun|]. split; [exact Hlen|]. intros j. rewrite Hget.
    destruct (decide (j = k)) as [->|Hne].
    + rewrite list_lookup_insert_eq by lia.
      repeat case_decide; try done; lia.
    + rewrite list_lookup_insert_ne by done.
      repeat case_decide; try done; lia.
Qed.

Lemma after_last_naming_snoc evs e :
  after_last_naming (evs ++ [e]) =
  if is_naming e then [] else after_last_naming evs ++ [e].
Proof.
  induction evs as [|e' evs IH]; cbn [after_last_naming app].
  - simpl. now destruct (is_naming e).
  - rewrite existsb_app. simpl existsb. rewrite orb_false_r, IH.
    destruct (is_naming e) eqn:He.
    + now rewrite orb_true_r.
    + rewrite orb_false_r. destruct (existsb is_naming evs); [done|].
      now destruct (is_naming e').
Qed.

Lemma stores_in_snoc evs e :
  stores_in (evs ++ [e]) = stores_in evs + (if is_store e then 1 else 0).
Proof.
  unfold stores_in. rewrite filter_app, length_app.
  destruct e; simpl; rewrite ?filter_cons_True, ?filter_cons_False by done;
    simpl; lia.
Qed.

Lemma run_snoc evs e s :
  run (evs ++ [e]) s =
  match run evs s with Some s' => step s' e | None => None end.
Proof.
  revert s. induction evs as [|e' evs IH]; intros s; simpl.
  - now destruct (step s e).
  - destruct (step s e'); [apply IH|done].
Qed.

(** The effect of [kernelBegin] on a tracker whose counter does not exceed
    the length of the host-to-device log. *)
Lemma kernelBegin_spec name s :
  0 <= m_numberOfHostToDeviceCopiesBeforeKernelNamed s
    <= Z.of_nat (length (m_hostToDeviceCopy s)) →
  ∃ s', kernelBegin name s = Some s'
    ∧ m_numberOfHostToDeviceCopiesBeforeKernelNamed s' = 0
    ∧ m_last_kernel_name s' = name
    ∧ m_deviceToHostCopy s' = m_deviceToHostCopy s
    ∧ m_hostToDeviceCopy s' =
        take (length (m_hostToDeviceCopy s)
              - Z.to_nat (m_numberOfHostToDeviceCopiesBeforeKernelNamed s))
             (m_hostToDeviceCopy s)
        ++ replicate (Z.to_nat (m_numberOfHostToDeviceCopiesBeforeKernelNamed s))
             name.
Proof.
  intros Hc. unfold kernelBegin.
  set (c := Z.to_nat (m_numberOfHostToDeviceCopiesBeforeKernelNamed s)).
  destruct (rename_loop_spec c 0 name (m_hostToDeviceCopy s))
    as (v' & Hrun & Hlen & Hget); [lia|].
  change (Z.of_nat 0) with 0 in Hrun. rewrite Hrun.
  eexists. split; [reflexivity|]. simpl. repeat split.
  apply list_eq. intros j. rewrite Hget.
  case_decide as Hj.
  - rewrite lookup_app_r by (rewrite length_take; lia).
    rewrite length_take. symmetry. apply lookup_replicate_2. lia.
  - destruct (decide (j < length (m_hostToDeviceCopy s) - c)%nat).
    + rewrite lookup_app_l by (rewrite length_take; lia).
      now rewrite lookup_take_lt by lia.
    + rewrite !lookup_ge_None_2; [done| |lia].
      rewrite length_app, length_take, length_replicate. lia.
Qed.

(** C10: whatever callbacks the plugin has received since its construction,
    none of them ran outside the host-to-device log, the counter
    [m_numberOfHostToDeviceCopiesBeforeKernelNamed] is the number of
    entries appended by [hostMemoryStore] since the last [kernelBegin] (all
    of them when no kernel was named yet), it does not exceed the length of
    the log, and a [kernelBegin] at that point overwrites exactly the last
    that many entries, leaving the length and the entries before them as
    they are. *)
Theorem unnamed_copies_invariant (evs : list event) :
  ∃ s, run evs init = Some s
    ∧ m_numberOfHostToDeviceCopiesBeforeKernelNamed s
      = stores_in (after_last_naming evs)
    ∧ 0 <= m_numberOfHostToDeviceCopiesBeforeKernelNamed s
        <= Z.of_nat (length (m_hostToDeviceCopy s))
    ∧ ∀ name, ∃ s', kernelBegin name s = Some s'
        ∧ m_numberOfHostToDeviceCopiesBeforeKernelNamed s' = 0
        ∧ m_hostToDeviceCopy s' =
            take (length (m_hostToDeviceCopy s)
                  - Z.to_nat (m_numberOfHostToDeviceCopiesBeforeKernelNamed s))
                 (m_hostToDeviceCopy s)
            ++ replicate
                 (Z.to_nat (m_numberOfHostToDeviceCopiesBeforeKernelNamed s))
                 name.
Proof.
  assert (Hinv : ∃ s, run evs init = Some s
    ∧ m_numberOfHostToDeviceCopiesBeforeKernelNamed s
      = stores_in (after_last_naming evs)
    ∧ 0 <= m_numberOfHostToDeviceCopiesBeforeKernelNamed s
        <= Z.of_nat (length (m_hostToDeviceCopy s))).
  { induction evs as [|e evs IH] using rev_ind.
    - exists init. simpl. unfold stores_in. simpl. repeat split; lia.
    - destruct IH as (s & Hrun & Hcnt & Hbound).
      rewrite run_snoc, Hrun, after_last_naming_snoc.
      destruct e; simpl.
      + eexists. split; [reflexivity|]. rewrite stores_in_snoc. simpl.
        rewrite length_app. simpl. lia.
      + eexists. split; [reflexivity|]. rewrite stores_in_snoc. simpl. lia.
      + destruct (kernelBegin_spec name s Hbound)
          as (s' & Hkb & Hzero & _ & _ & Hlog).
        exists s'. split; [exact Hkb|]. rewrite Hzero.
        unfold stores_in. simpl. lia.
      + exists s. split; [reflexivity|]. rewrite stores_in_snoc. simpl. lia. }
  destruct Hinv as (s & Hrun & Hcnt & Hbound).
  exists s. repeat split; try done; try lia.
  intros name.
  destruct (kernelBegin_spec name s Hbound) as (s' & Hkb & Hzero & _ & _ & Hlog).
  exists s'. auto.
Qed.

(** *** The report of the destructor *)

Lemma runs_from_names x n l : (runs_from x n l).*1 = x :: unique_from x l.
Proof.
  revert x n. induction l as [|y l IH]; intros x n; simpl; [done|].
  case_decide; simpl; now rewrite IH.
Qed.

Lemma unique_runs l : unique l = (runs l).*1.
Proof. destruct l as [|x l]; simpl; [done|]. now rewrite runs_from_names. Qed.

(** [runs] cuts the log into its runs: writing every run out again gives the
    log back. *)
Lemma runs_from_flatten x n l :
  0 <= n →
  mjoin ((λ r, replicate (Z.to_nat r.2) r.1) <$> runs_from x n l)
  = replicate (Z.to_nat n) x ++ l.
Proof.
  revert x n. induction l as [|y l IH]; intros x n Hn; simpl.
  - now rewrite app_nil_r.
  - case_decide as Hxy.
    + subst y. rewrite IH by lia.
      replace (Z.to_nat (n + 1)) with (Z.to_nat n + 1)%nat by lia.
      rewrite replicate_add. simpl. now rewrite <- app_assoc.
    + simpl. rewrite IH by lia. done.
Qed.

Lemma runs_flatten l :
  mjoin ((λ r, replicate (Z.to_nat r.2) r.1) <$> runs l) = l.
Proof. destruct l as [|x l]; simpl; [done|]. now rewrite runs_from_flatten. Qed.

(** Two neighbouring runs carry different names. *)
Lemma runs_from_adjacent x n l (i : nat) r1 r2 :
  runs_from x n l !! i = Some r1 → runs_from x n l !! S i = Some r2 →
  r1.1 ≠ r2.1.
Proof.
  revert x n i. induction l as [|y l IH]; intros x n i; simpl.
  - destruct i; simpl; intros _ H2; discriminate.
  - case_decide as Hxy; [apply IH|].
    destruct i as [|i]; simpl.
    + intros [= <-] H2. simpl.
      assert (Hhd : (runs_from y 1 l).*1 !! 0%nat = Some r2.1)
        by (rewrite list_lookup_fmap, H2; done).
      rewrite runs_from_names in Hhd. simpl in Hhd. congruence.
    + apply IH.
Qed.

Lemma runs_adjacent l (i : nat) r1 r2 :
  runs l !! i = Some r1 → runs l !! S i = Some r2 → r1.1 ≠ r2.1.
Proof. destruct l as [|x l]; simpl; [done|]. apply runs_from_adjacent. Qed.

Lemma rows_by_runs l : rows l = (λ r, (r.1, count r.1 l)) <$> runs l.
Proof. unfold rows. rewrite unique_runs, <- list_fmap_compose. done. Qed.

(** C7 (as the code has it): for each direction the report has one row per
    maximal run of adjacent equal kernel names of the log, in the order of
    the runs, and the count of every row is the number of occurrences of
    its kernel name in the whole log of that direction.  A kernel whose
    copies form k separate runs gets k rows that all carry the same total. *)
Theorem report_rows_total_count (s : t) :
  report s =
  ((λ r, (HostToDevice, r.1, count r.1 (m_hostToDeviceCopy s)))
     <$> runs (m_hostToDeviceCopy s)) ++
  ((λ r, (DeviceToHost, r.1, count r.1 (m_deviceToHostCopy s)))
     <$> runs (m_deviceToHostCopy s)).
Proof.
  unfold report. rewrite !rows_by_runs, <- !list_fmap_compose. done.
Qed.

(** C7 fails as stated: after three device-to-host copies attributed to
    the kernels A, B, A the report has the rows (A, 2), (B, 1), (A, 2),
    while the run lengths are 1, 1, 1. *)
Lemma report_run_length_counterexample :
  ∃ s, run [KernelBegin "A"; HostMemoryLoad; KernelBegin "B"; HostMemoryLoad;
            KernelBegin "A"; HostMemoryLoad] init = Some s
    ∧ report s = [(DeviceToHost, "A", 2); (DeviceToHost, "B", 1);
                  (DeviceToHost, "A", 2)]
    ∧ report_by_runs s = [(DeviceToHost, "A", 1); (DeviceToHost, "B", 1);
                          (DeviceToHost, "A", 1)]
    ∧ report s ≠ report_by_runs s.
Proof.
  eexists. split; [vm_compute; reflexivity|].
  split; [vm_compute; reflexivity|].
  split; [vm_compute; reflexivity|].
  vm_compute. discriminate.
Qed.

(** *** The name of the report of the destructor *)

(** When the destructor's loop ends, it ends on a name that can be opened
    for reading, and no smaller candidate could. *)
Lemma logfile_loop_found fs fuel n k :
  logfile_loop fs fuel n = Some k →
  logfile_name k ∈ fs ∧ n <= k ∧ ∀ j, n <= j < k → logfile_name j ∉ fs.
Proof.
  revert n. induction fuel as [|fuel IH]; intros n; simpl; [done|].
  case_decide as Hin.
  - intros [= <-]. repeat split; [done|lia|]. intros j Hj. lia.
  - intros Hrec. destruct (IH _ Hrec) as (Hk & Hle & Hmin).
    repeat split; [done|lia|]. intros j Hj.
    destruct (decide (j = n)) as [->|]; [done|]. apply Hmin. lia.
Qed.

(** The loop of [logMetrics] ends on the smallest candidate that cannot be
    opened. *)
Lemma kernel_logfile_loop_found fs prefix kernel fuel n k :
  kernel_logfile_loop fs prefix kernel fuel n = Some k →
  (kernel_logfile_name prefix kernel k ∉ fs) ∧ n <= k ∧
  ∀ j, n <= j < k → kernel_logfile_name prefix kernel j ∈ fs.
Proof.
  revert n. induction fuel as [|fuel IH]; intros n; simpl; [done|].
  case_decide as Hin.
  - intros Hrec. destruct (IH _ Hrec) as (Hk & Hle & Hmin).
    repeat split; [done|lia|]. intros j Hj.
    destruct (decide (j = n)) as [->|]; [done|]. apply Hmin. lia.
  - intros [= <-]. repeat split; [done|lia|]. intros j Hj. lia.
Qed.

Lemma logfile_loop_none fs fuel n :
  (∀ j, n <= j → logfile_name j ∉ fs) → logfile_loop fs fuel n = None.
Proof.
  revert n. induction fuel as [|fuel IH]; intros n Hfree; simpl; [done|].
  case_decide as Hin; [now apply Hfree in Hin|].
  apply IH. intros j Hj. apply Hfree. lia.
Qed.

(** C6 fails on the code: in a directory without any
    [aiwc_memory_transfers_<n>.csv] the destructor's loop never leaves,
    whatever number of iterations it is given, where the claim chooses
    n = 0; and when only [aiwc_memory_transfers_0.csv] exists the loop
    chooses n = 0, the name of a file that exists, where the claim chooses
    n = 1. *)
Theorem sidecar_name_loop_at_failing_inputs :
  (∀ fuel, logfile_loop ∅ fuel 0 = None) ∧
  (∀ fuel, logfile_loop {[logfile_name 0]} (S fuel) 0 = Some 0).
Proof.
  split.
  - intros fuel. apply logfile_loop_none. intros j _. set_solver.
  - intros fuel. simpl. case_decide as Hin; [done|]. set_solver.
Qed.

End TransferFacts.

(** ** The callbacks and the transfer tracker *)

Example logfile_name_0 : Transfer.logfile_name 0 = "aiwc_memory_transfers_0.csv".
Proof. reflexivity. Qed.

(** Every callback acts on the four members of the tracker as the tracker
    event it stands for. *)
Lemma callback_step_transfers sys cb sys' :
  callback_step sys cb = Some sys' →
  Transfer.step (transfers (plugin sys)) (tracker_event cb)
  = Some (transfers (plugin sys')).
Proof.
  destruct sys as [p s e]. destruct cb; simpl; unfold on_worker; simpl;
    try (intros [= <-]; done).
  - unfold kernelBegin.
    destruct (Transfer.kernelBegin _ _) as [tr|]; [|done]. by intros [= <-].
  - unfold kernelEnd. destruct (logMetrics _ p); try done; by intros [= <-].
  - destruct (instructionExecuted _ _ _); [|done]. by intros [= <-].
  - destruct (memoryLoad _ _ _ _ _); [|done]. by intros [= <-].
  - destruct (memoryStore _ _ _ _ _); [|done]. by intros [= <-].
Qed.

Lemma simulate_transfers cbs : ∀ sys sys',
  simulate cbs sys = Some sys' →
  Transfer.run (tracker_event <$> cbs) (transfers (plugin sys))
  = Some (transfers (plugin sys')).
Proof.
  induction cbs as [|cb cbs IH]; intros sys sys'; simpl.
  - by intros [= <-].
  - destruct (callback_step sys cb) as [sys1|] eqn:Hstep; [|done].
    intros Hrest. rewrite (callback_step_transfers _ _ _ Hstep).
    by apply IH.
Qed.

(** ** The ledger of a worker thread *)

Lemma simulate_app cbs1 cbs2 sys :
  simulate (cbs1 ++ cbs2) sys =
  match simulate cbs1 sys with
  | Some sys' => simulate cbs2 sys'
  | None => None
  end.
Proof.
  revert sys. induction cbs1 as [|cb cbs1 IH]; intros sys; simpl; [done|].
  destruct (callback_step sys cb); [apply IH|done].
Qed.

Lemma ledger_push_length row le l l' :
  ledger_push row le l = Some l' → length l' = length l.
Proof.
  unfold ledger_push. case_decide; [|done]. intros [= <-].
  apply length_alter.
Qed.

Lemma threadMemoryLedger_rows local a ts lid s s' :
  threadMemoryLedger local a ts lid s = Some s' →
  allocated s' = allocated s ∧ length (ledger s') = length (ledger s).
Proof.
  unfold threadMemoryLedger.
  destruct (ledger_push _ _ _) as [l|] eqn:Hpush; [|done].
  intros [= <-]. simpl. split; [done|]. eapply ledger_push_length, Hpush.
Qed.

(** No callback changes the number of rows of a ledger that has been
    allocated. *)
Lemma callback_step_rows sys cb sys' :
  allocated (worker sys) = true →
  callback_step sys cb = Some sys' →
  allocated (worker sys') = true ∧
  length (ledger (worker sys')) = length (ledger (worker sys)).
Proof.
  intros Hal. destruct sys as [p s e]. simpl in Hal.
  destruct cb; simpl; unfold on_worker; simpl.
  - destruct (kernelBegin _ _); [|done]. now intros [= <-].
  - destruct (kernelEnd _ _) as [[r p']|]; [|done]. now intros [= <-].
  - now intros [= <-].
  - now intros [= <-].
  - intros [= <-]. simpl. rewrite Hal, length_fmap. done.
  - intros [= <-]. simpl. rewrite length_fmap. done.
  - intros [= <-]. simpl. rewrite length_fmap. done.
  - now intros [= <-].
  - now intros [= <-].
  - now intros [= <-].
  - now intros [= <-].
  - destruct (instructionExecuted _ _ _) as [s'|] eqn:Hi; [|done].
    intros [= <-]. simpl. unfold instructionExecuted in Hi.
    repeat case_match; simplify_eq; done.
  - destruct (memoryLoad _ _ _ _ _) as [s'|] eqn:Hm; [|done].
    intros [= <-]. simpl. unfold memoryLoad in Hm.
    destruct space; simplify_eq; try done;
      apply threadMemoryLedger_rows in Hm as [-> ->]; done.
  - destruct (memoryStore _ _ _ _ _) as [s'|] eqn:Hm; [|done].
    intros [= <-]. simpl. unfold memoryStore in Hm.
    destruct space; simplify_eq; try done;
      apply threadMemoryLedger_rows in Hm as [-> ->]; done.
Qed.

Lemma simulate_rows cbs : ∀ sys sys',
  allocated (worker sys) = true →
  simulate cbs sys = Some sys' →
  allocated (worker sys') = true ∧
  length (ledger (worker sys')) = length (ledger (worker sys)).
Proof.
  induction cbs as [|cb cbs IH]; intros sys sys' Hal; simpl.
  - now intros [= <-].
  - destruct (callback_step sys cb) as [sys1|] eqn:Hstep; [|done].
    intros Hrest. destruct (callback_step_rows _ _ _ Hal Hstep) as [Hal1 Hlen1].
    destruct (IH _ _ Hal1 Hrest) as [Hal' Hlen']. split; [done|congruence].
Qed.

Example first_kernel_begun_reached :
  simulate [CbKernelBegin (kernel_1d "k" 1)] constructed
  = Some first_kernel_begun.
Proof. vm_compute. reflexivity. Qed.

(** C5 fails on the code: [workGroupBegin] sizes the ledger only where it
    creates the state of the thread, in the first work-group that the
    thread runs; a later [workGroupBegin] empties the rows and keeps their
    number, also after a [kernelBegin] with another local size.  Whatever
    callbacks follow the first [workGroupBegin] of a thread, the ledger
    keeps the local.x * local.y * local.z rows of the local size of that
    moment, while [threadMemoryLedger] computes the row of a work-item from
    the current local size: an access to non-private memory by a work-item
    whose row is not below that number of rows falls outside the ledger. *)
Theorem ledger_sized_by_first_begin_only (sys : System) (cbs : list callback)
    (sys' : System) :
  allocated (worker sys) = false →
  simulate (CbWorkGroupBegin :: cbs) sys = Some sys' →
  Z.of_nat (length (ledger (worker sys'))) = items_of (m_local_num (plugin sys))
  ∧ ∀ space localID address,
      space ≠ AddrSpacePrivate →
      items_of (m_local_num (plugin sys))
        <= ledger_row (m_local_num (plugin sys')) localID →
      callback_step sys' (CbMemoryLoad space localID address) = None
      ∧ callback_step sys' (CbMemoryStore space localID address) = None.
Proof.
  intros Hal Hsim.
  assert (Hrows : Z.of_nat (length (ledger (worker sys')))
                  = items_of (m_local_num (plugin sys))).
  { simpl in Hsim. unfold on_worker in Hsim. simpl in Hsim.
    apply simulate_rows in Hsim as [_ Hlen]; [|done].
    rewrite Hlen. simpl. rewrite Hal, length_fmap, length_replicate.
    unfold items_of. pose proof (wrap64_range
      (Size3.x (m_local_num (plugin sys)) * Size3.y (m_local_num (plugin sys))
       * Size3.z (m_local_num (plugin sys)))). lia. }
  split; [exact Hrows|]. intros space localID address Hspace Hrow.
  cbn [callback_step]. unfold on_worker, memoryLoad, memoryStore.
  unfold threadMemoryLedger, ledger_push.
  cbn [ledger set_loadOps set_storeOps].
  rewrite decide_False by lia.
  destruct space; done.
Qed.

(** The failing run: the thread runs the work-group of a kernel with one
    work-item per group, then begins a work-group of a kernel with two
    work-items per group; its ledger still has one row, and the access of
    the work-item with the local id (1, 0, 0) falls outside it. *)
Lemma ledger_sized_by_first_begin_only_witness :
  ∃ sys,
    simulate second_kernel_wider constructed = Some sys
    ∧ items_of (m_local_num (plugin sys)) = 2
    ∧ length (ledger (worker sys)) = 1%nat
    ∧ callback_step sys (CbMemoryLoad AddrSpaceGlobal (Size3.mk 1 0 0) 4100)
      = None.
Proof.
  eexists. split; [vm_compute; reflexivity|].
  split; [vm_compute; reflexivity|].
  split; [vm_compute; reflexivity|].
  refine (proj1 (proj2 (ledger_sized_by_first_begin_only
                          first_kernel_begun (tail (tail second_kernel_wider))
                          _ eq_refl _)
                   AddrSpaceGlobal (Size3.mk 1 0 0) 4100 _ _)).
  - vm_compute. reflexivity.
  - discriminate.
  - vm_compute. discriminate.
Defined.

(** ** The reducer *)

Lemma min_element_defined v : v ≠ [] → is_Some (min_element v).
Proof. destruct v; [done|]. intros _. simpl. eauto. Qed.

Lemma max_element_defined v : v ≠ [] → is_Some (max_element v).
Proof. destruct v; [done|]. intros _. simpl. eauto. Qed.

Lemma median_defined v : v ≠ [] → is_Some (median v).
Proof.
  intros Hne. unfold median.
  set (sorted := merge_sort Z.le v).
  assert (Hlen : length sorted = length v)
    by (unfold sorted; now rewrite merge_sort_Permutation).
  assert (Hpos : (0 < length v)%nat) by (destruct v; [done|simpl; lia]).
  pose proof (wrap64_range (Z.of_nat (length sorted) / 2 - 1)) as Hw.
  assert (Hhalf : 0 <= Z.of_nat (length sorted) / 2 < Z.of_nat (length sorted))
    by (split; [apply Z.div_pos; lia|apply Z.div_lt; lia]).
  case_decide as Heven.
  - assert (Hle : wrap64 (Z.of_nat (length sorted) / 2 - 1)
                  <= Z.of_nat (length sorted) / 2 - 1).
    { unfold wrap64. apply Z.mod_le; [|lia].
      assert (2 <= Z.of_nat (length sorted)) by (apply Z.mod_divide in Heven as [k Hk]; lia).
      assert (1 <= Z.of_nat (length sorted) / 2)
        by (apply Z.div_le_lower_bound; lia). lia. }
    destruct (lookup_lt_is_Some_2 sorted
      (Z.to_nat (wrap64 (Z.of_nat (length sorted) / 2 - 1)))) as [a ->]; [lia|].
    destruct (lookup_lt_is_Some_2 sorted
      (Z.to_nat (Z.of_nat (length sorted) / 2))) as [b ->]; [lia|].
    eauto.
  - apply lookup_lt_is_Some_2. lia.
Qed.

(** When none of the four containers that the reducer reads without a
    guard is empty, the reducer writes the report or reports that the log
    file cannot be opened. *)
Lemma logMetrics_defined (logfile_is_open : bool) p :
  m_instructionsToBarrier p ≠ [] → m_instructionsPerWorkitem p ≠ [] →
  m_instructionWidth p ≠ ∅ → m_psl_per_group p ≠ [] →
  if logfile_is_open return Prop
  then ∃ r, logMetrics logfile_is_open p = Emitted r
  else logMetrics logfile_is_open p = LogfileError.
Proof.
  intros Hitb Hipt Hw Hpsl. unfold logMetrics.
  destruct (min_element_defined _ Hitb) as [? ->].
  destruct (max_element_defined _ Hitb) as [? ->].
  destruct (median_defined _ Hitb) as [? ->].
  destruct (min_element_defined _ Hipt) as [? ->].
  destruct (max_element_defined _ Hipt) as [? ->].
  destruct (median_defined _ Hipt) as [? ->].
  assert (Hkeys : (map_to_list (m_instructionWidth p)).*1 ≠ []).
  { intros Hnil. apply Hw, map_to_list_empty_iff.
    now apply fmap_nil_inv in Hnil. }
  destruct (min_element_defined _ Hkeys) as [? ->].
  destruct (max_element_defined _ Hkeys) as [? ->].
  unfold avg_psl. destruct (m_psl_per_group p); [done|].
  destruct logfile_is_open; eauto.
Qed.

Lemma logMetrics_emits p :
  m_instructionsToBarrier p ≠ [] → m_instructionsPerWorkitem p ≠ [] →
  m_instructionWidth p ≠ ∅ → m_psl_per_group p ≠ [] →
  ∃ r, logMetrics true p = Emitted r.
Proof. apply (logMetrics_defined true). Qed.

(** A report is written only if the log file has been opened. *)
Lemma logMetrics_emitted_open logfile_is_open p r :
  logMetrics logfile_is_open p = Emitted r → logfile_is_open = true.
Proof.
  destruct logfile_is_open; [done|]. unfold logMetrics.
  repeat case_match; discriminate.
Qed.

Lemma logMetrics_rows {logfile_is_open} p r :
  logMetrics logfile_is_open p = Emitted r →
  unique_reads r = Z.of_nat (size (m_storeOps p)) ∧
  unique_writes r = Z.of_nat (size (m_loadOps p)) ∧
  unique_read_write_ratio r
  = (of_Z (Z.of_nat (size (m_loadOps p)))
     / of_Z (Z.of_nat (size (m_storeOps p))))%D ∧
  LMAE r =
    (λ nskip,
       (nskip,
        local_entropy
          (memory_access_count
             (sorted_count (address_counts (m_storeOps p) (m_loadOps p))))
          (default ∅ (address_counts (m_storeOps p) (m_loadOps p)
                        !! Z.to_nat nskip)))) <$> skips_1_10.
Proof.
  unfold logMetrics. repeat case_match; try discriminate.
  intros [= <-]. simpl. done.
Qed.

(** C4: in every report that the reducer emits, the row [unique_reads] is
    the number of distinct store addresses of the invocation (the number
    of keys of [m_storeOps]), the row [unique_writes] is the number of
    distinct load addresses (the number of keys of [m_loadOps]), and
    [unique_read_write_ratio] is the number of distinct load addresses
    divided by the number of distinct store addresses: the swap of the two
    labels is what the code writes. *)
Theorem unique_rows_swapped (p : Plugin) (r : Report)
    (logfile_is_open : bool) :
  logMetrics logfile_is_open p = Emitted r →
  unique_reads r = Z.of_nat (size (dom (m_storeOps p))) ∧
  unique_writes r = Z.of_nat (size (dom (m_loadOps p))) ∧
  unique_read_write_ratio r
  = (of_Z (Z.of_nat (size (dom (m_loadOps p))))
     / of_Z (Z.of_nat (size (dom (m_storeOps p)))))%D.
Proof.
  intros Hr. destruct (logMetrics_rows _ _ Hr) as (Hreads & Hwrites & Hratio & _).
  rewrite !size_dom. done.
Qed.

Lemma unique_rows_swapped_witness :
  ∃ sys r,
    simulate barrier_kernel_body constructed = Some sys ∧
    logMetrics true (plugin sys) = Emitted r ∧
    (unique_reads r = Z.of_nat (size (dom (m_storeOps (plugin sys)))) ∧
     unique_writes r = Z.of_nat (size (dom (m_loadOps (plugin sys)))) ∧
     unique_read_write_ratio r
     = (of_Z (Z.of_nat (size (dom (m_loadOps (plugin sys)))))
        / of_Z (Z.of_nat (size (dom (m_storeOps (plugin sys))))))%D).
Proof.
  eexists. eexists. split; [vm_compute; reflexivity|].
  split; [vm_compute; reflexivity|].
  apply (unique_rows_swapped _ _ true). vm_compute. reflexivity.
Defined.

(** The reducer runs into undefined behaviour as soon as one of the four
    containers is empty. *)
Lemma logMetrics_undefined logfile_is_open p :
  m_instructionsToBarrier p = [] ∨ m_instructionsPerWorkitem p = [] ∨
  m_instructionWidth p = ∅ ∨ m_psl_per_group p = [] →
  logMetrics logfile_is_open p = UndefinedBehaviour.
Proof.
  intros Hempty. unfold logMetrics.
  destruct Hempty as [He|[He|[He|He]]].
  - rewrite He. simpl. by repeat case_match.
  - rewrite He. simpl. by repeat case_match.
  - rewrite He, map_to_list_empty. simpl. by repeat case_match.
  - unfold avg_psl. rewrite He. by repeat case_match.
Qed.

(** C8 (as the code has it): the reducer has no guard for an empty
    container.  It takes the minimum, the maximum and the median of
    [m_instructionsToBarrier], [m_instructionsPerWorkitem] and the keys of
    [m_instructionWidth], and reads [m_psl_per_group[0]], whatever they
    hold and before it opens the log file: the behaviour is undefined
    exactly when one of these four containers is empty, as it is when no
    work-item has run, whether the log file can be opened or not.  The one
    error that the reducer reports is the log file that cannot be opened:
    it is reported exactly when none of the four containers is empty and
    the file does not open, and the report is written exactly when none of
    them is empty and the file opens. *)
Theorem reducer_has_no_guard (logfile_is_open : bool) (p : Plugin) :
  (logMetrics logfile_is_open p = UndefinedBehaviour ↔
     m_instructionsToBarrier p = [] ∨ m_instructionsPerWorkitem p = [] ∨
     m_instructionWidth p = ∅ ∨ m_psl_per_group p = [])
  ∧ (logMetrics logfile_is_open p = LogfileError ↔
     (m_instructionsToBarrier p ≠ [] ∧ m_instructionsPerWorkitem p ≠ [] ∧
      m_instructionWidth p ≠ ∅ ∧ m_psl_per_group p ≠ [])
     ∧ logfile_is_open = false)
  ∧ ((∃ r, logMetrics logfile_is_open p = Emitted r) ↔
     (m_instructionsToBarrier p ≠ [] ∧ m_instructionsPerWorkitem p ≠ [] ∧
      m_instructionWidth p ≠ ∅ ∧ m_psl_per_group p ≠ [])
     ∧ logfile_is_open = true).
Proof.
  assert (Hcases :
    (m_instructionsToBarrier p = [] ∨ m_instructionsPerWorkitem p = [] ∨
     m_instructionWidth p = ∅ ∨ m_psl_per_group p = [])
    ∨ (m_instructionsToBarrier p ≠ [] ∧ m_instructionsPerWorkitem p ≠ [] ∧
       m_instructionWidth p ≠ ∅ ∧ m_psl_per_group p ≠ [])).
  { destruct (decide (m_instructionsToBarrier p = [])); [by left; left|].
    destruct (decide (m_instructionsPerWorkitem p = []));
      [by left; right; left|].
    destruct (decide (m_instructionWidth p = ∅));
      [by left; right; right; left|].
    destruct (decide (m_psl_per_group p = []));
      [by left; right; right; right|].
    by right. }
  destruct Hcases as [Hempty|Hfull].
  - pose proof (logMetrics_undefined logfile_is_open p Hempty) as Hub.
    rewrite Hub. split; [done|].
    assert (Hno : ¬ (m_instructionsToBarrier p ≠ []
                     ∧ m_instructionsPerWorkitem p ≠ []
                     ∧ m_instructionWidth p ≠ ∅ ∧ m_psl_per_group p ≠ [])).
    { intros (H1 & H2 & H3 & H4). destruct Hempty as [?|[?|[?|?]]]; done. }
    split; (split; [|intros [Hfull _]; by destruct Hno]).
    + discriminate.
    + intros [r Hr]. discriminate.
  - assert (Hsome : ¬ (m_instructionsToBarrier p = []
                       ∨ m_instructionsPerWorkitem p = []
                       ∨ m_instructionWidth p = ∅ ∨ m_psl_per_group p = [])).
    { destruct Hfull as (H1 & H2 & H3 & H4). intros [?|[?|[?|?]]]; done. }
    pose proof Hfull as (H1 & H2 & H3 & H4).
    pose proof (logMetrics_defined logfile_is_open p H1 H2 H3 H4) as Hdef.
    destruct logfile_is_open.
    + cbv beta iota in Hdef. destruct Hdef as [r Hr]. rewrite Hr.
      split; [|split].
      * split; [discriminate|intros Hempty; by destruct Hsome].
      * split; [discriminate|intros [_ Hopen]; discriminate].
      * split; [done|]. intros _. by exists r.
    + cbv beta iota in Hdef. rewrite Hdef. split; [|split].
      * split; [discriminate|intros Hempty; by destruct Hsome].
      * done.
      * split; [intros [r Hr]; discriminate|intros [_ Hopen]; discriminate].
Qed.

(** C8 fails as stated: right after [kernelBegin], when no work-item has
    run, the three sequences are empty and the reducer does not report an
    error; whether the log file can be opened or not, it dereferences what
    [std::min_element] returns for an empty range. *)
Lemma reducer_without_work_items_counterexample :
  ∃ p',
    kernelBegin (kernel_1d "k" 1) (plugin constructed) = Some p'
    ∧ m_instructionsToBarrier p' = [] ∧ m_instructionsPerWorkitem p' = []
    ∧ m_instructionWidth p' = ∅
    ∧ min_element (m_instructionsToBarrier p') = None
    ∧ (∀ logfile_is_open,
         logMetrics logfile_is_open p' = UndefinedBehaviour
         ∧ logMetrics logfile_is_open p' ≠ LogfileError).
Proof.
  eexists. split; [vm_compute; reflexivity|].
  do 4 (split; [vm_compute; reflexivity|]).
  intros [|]; (split; [vm_compute; reflexivity|vm_compute; discriminate]).
Qed.

(** ** Kernel begin and kernel end *)

Lemma kernelBegin_clears ki p p' :
  kernelBegin ki p = Some p' → aggregate_cleared p'.
Proof.
  unfold kernelBegin. destruct (Transfer.kernelBegin _ _) as [tr|]; [|done].
  intros [= <-]. unfold aggregate_cleared. simpl. done.
Qed.

(** What [kernelEnd] leaves: eleven members are reset, and the widths, the
    barrier counter, the three memory counters and the per-group PSL list
    keep the values of the invocation that has just ended. *)
Lemma kernelEnd_frame logfile_is_open p r p' :
  kernelEnd logfile_is_open p = Some (r, p') →
  (m_storeOps p' = ∅ ∧ m_loadOps p' = ∅ ∧ m_computeOps p' = ∅ ∧
   m_branchPatterns p' = ∅ ∧ m_branchCounts p' = ∅ ∧
   m_instructionsToBarrier p' = [] ∧ m_instructionsPerWorkitem p' = [] ∧
   m_instructionsBetweenLoadOrStore p' = [] ∧
   m_loadInstructionLabels p' = ∅ ∧ m_storeInstructionLabels p' = ∅ ∧
   m_threads_invoked p' = 0) ∧
  m_instructionWidth p' = m_instructionWidth p ∧
  m_barriers_hit p' = m_barriers_hit p ∧
  m_global_memory_access p' = m_global_memory_access p ∧
  m_local_memory_access p' = m_local_memory_access p ∧
  m_constant_memory_access p' = m_constant_memory_access p ∧
  m_psl_per_group p' = m_psl_per_group p.
Proof.
  unfold kernelEnd. destruct (logMetrics _ p); try done;
    intros [= <- <-]; simpl; done.
Qed.

(** C9 fails on the code: after the kernel of [barrier_kernel] (one
    work-item, one global load, one barrier, two instructions of width 1)
    has ended, the plugin still holds the width counts, the barrier
    counter, the counter of global accesses and the PSL vector of the
    group; [kernelBegin] is where these members are reset. *)
Theorem kernelEnd_leaves_members_set :
  ∃ sys,
    simulate barrier_kernel constructed = Some sys
    ∧ m_instructionWidth (plugin sys) = {[1 := 2]}
    ∧ m_barriers_hit (plugin sys) = 1
    ∧ m_global_memory_access (plugin sys) = 1
    ∧ length (m_psl_per_group (plugin sys)) = 1%nat
    ∧ ¬ aggregate_cleared (plugin sys).
Proof.
  assert (Hf :
    (λ sys, (m_instructionWidth (plugin sys), m_barriers_hit (plugin sys),
             m_global_memory_access (plugin sys),
             length (m_psl_per_group (plugin sys))))
      <$> simulate barrier_kernel constructed
    = Some ({[1 := 2]}, 1, 1, 1%nat)) by (vm_compute; reflexivity).
  destruct (simulate barrier_kernel constructed) as [sys|]; [|discriminate].
  cbn [fmap option_fmap option_map] in Hf.
  injection Hf as Hw Hb Hg Hl.
  exists sys. repeat split; try done.
  intros (_ & _ & _ & _ & _ & _ & _ & _ & _ & _ & _ & _ & Hb0 & _).
  rewrite Hb in Hb0. discriminate.
Qed.

(** ** Sums over counting maps *)

Lemma sumZ_app l1 l2 : sumZ (l1 ++ l2) = sumZ l1 + sumZ l2.
Proof. induction l1 as [|x l1 IH]; simpl; lia. Qed.

Lemma sumZ_Permutation l1 l2 : l1 ≡ₚ l2 → sumZ l1 = sumZ l2.
Proof. induction 1; simpl; lia. Qed.

Section CountingMaps.
Context `{Countable K}.

Lemma sum_values_empty : sum_values (∅ : gmap K Z) = 0.
Proof. unfold sum_values. now rewrite map_to_list_empty. Qed.

Lemma sum_values_insert_fresh (m : gmap K Z) k v :
  m !! k = None → sum_values (<[k := v]> m) = v + sum_values m.
Proof.
  intros Hk. unfold sum_values.
  rewrite (sumZ_Permutation _ ((k, v) :: map_to_list m).*2).
  - done.
  - apply fmap_Permutation. now apply map_to_list_insert.
Qed.

Lemma sum_values_insert (m : gmap K Z) k v :
  sum_values (<[k := v]> m) = v + sum_values m - default 0 (m !! k).
Proof.
  destruct (m !! k) as [old|] eqn:Hk; simpl.
  - rewrite <- (insert_delete_id m k old) at 2 by done.
    rewrite <- insert_delete_eq.
    rewrite !sum_values_insert_fresh by apply lookup_delete_eq. lia.
  - rewrite sum_values_insert_fresh by done. lia.
Qed.

Lemma sum_values_bump (m : gmap K Z) k c :
  sum_values (bump unbounded k c m) = sum_values m + c.
Proof. unfold bump, unbounded. rewrite sum_values_insert. lia. Qed.

Lemma lookup_bump wrap (m : gmap K Z) k c j :
  bump wrap k c m !! j =
  if decide (k = j) then Some (wrap (default 0 (m !! k) + c)) else m !! j.
Proof. unfold bump. apply lookup_insert. Qed.

End CountingMaps.

(** ** Branch counts and branch patterns *)

(** The pattern loop adds one occurrence for every index from 15 on. *)
Lemma pattern_loop_total (outcomes : list bool) : ∀ (cur i : Z) (patterns : gmap Z Z),
  0 <= i →
  sum_values
    (foldl (λ st (b : bool),
              let current_pattern :=
                wrap16 (Z.lor (st.1.1 ≪ 1) (if b then 1 else 0)) in
              (current_pattern, st.1.2 + 1,
               if decide (st.1.2 >= m_history - 1)
               then bump unbounded current_pattern 1 st.2 else st.2))
           (cur, i, patterns) outcomes).2
  = sum_values patterns
    + Z.max 0 (i + Z.of_nat (length outcomes) - Z.max i (m_history - 1)).
Proof.
  induction outcomes as [|b outcomes IH]; intros cur i patterns Hi.
  - simpl. unfold m_history. lia.
  - cbn [foldl]. rewrite IH by (simpl; lia). cbn [fst snd].
    unfold m_history in *. case_decide.
    + rewrite sum_values_bump. simpl length. lia.
    + simpl length. lia.
Qed.

Lemma record_patterns_total outcomes patterns :
  sum_values (record_patterns outcomes patterns)
  = sum_values patterns + Z.max 0 (Z.of_nat (length outcomes) - 15).
Proof.
  unfold record_patterns. rewrite pattern_loop_total by lia.
  unfold m_history. lia.
Qed.

(** The count and the pattern total of a site in a pair
    [(m_branchCounts, m_branchPatterns)]. *)
Lemma merge_branch_count st site outcomes s :
  default 0 ((merge_branch st (site, outcomes)).1 !! s)
  = default 0 (st.1 !! s)
    + (if decide (site = s) then Z.of_nat (length outcomes) else 0).
Proof.
  unfold merge_branch. cbn [fst snd].
  assert (Hc : default 0 (bump unbounded site (Z.of_nat (length outcomes)) st.1 !! s)
    = default 0 (st.1 !! s)
      + (if decide (site = s) then Z.of_nat (length outcomes) else 0)).
  { rewrite lookup_bump. case_decide; [subst; unfold unbounded; simpl; lia|lia]. }
  destruct (decide (Z.of_nat (length outcomes) < m_history)); exact Hc.
Qed.

Lemma merge_branch_patterns st site outcomes s :
  sum_values (default ∅ ((merge_branch st (site, outcomes)).2 !! s))
  = sum_values (default ∅ (st.2 !! s))
    + (if decide (site = s) then Z.max 0 (Z.of_nat (length outcomes) - 15)
       else 0).
Proof.
  unfold merge_branch. cbn [fst snd]. unfold m_history.
  destruct (decide (Z.of_nat (length outcomes) < 16)) as [Hshort|Hlong];
    cbn [snd].
  - case_decide; lia.
  - rewrite lookup_insert. case_decide as Hs.
    + subst s. simpl. rewrite record_patterns_total. lia.
    + lia.
Qed.

Lemma merge_branch_invariant st branch :
  branch_invariant st → branch_invariant (merge_branch st branch).
Proof.
  intros Hinv s. destruct branch as [site outcomes].
  rewrite merge_branch_count, merge_branch_patterns.
  destruct (Hinv s) as [Hle Heq]. case_decide; lia.
Qed.

Lemma merge_branches_invariant branchOps st :
  branch_invariant st → branch_invariant (merge_branches branchOps st).
Proof.
  unfold merge_branches. generalize (map_to_list branchOps). intros l.
  revert st. induction l as [|b l IH]; intros st Hinv; simpl; [done|].
  apply IH. now apply merge_branch_invariant.
Qed.

Lemma merged_invariant groups : ∀ p,
  branch_invariant (m_branchCounts p, m_branchPatterns p) →
  branch_invariant (m_branchCounts (merged p groups),
                    m_branchPatterns (merged p groups)).
Proof.
  induction groups as [|s groups IH]; intros p Hinv; [done|].
  cbn [merged foldl]. apply IH. cbn [workGroupComplete_plugin m_branchCounts m_branchPatterns].
  rewrite <- surjective_pairing. now apply merge_branches_invariant.
Qed.

(** C2 (as the code has it): in the aggregate of an invocation, after
    [kernelBegin] and the merge of any number of work-groups, the count of
    every branch site that is present is at least the sum of the
    occurrences of its patterns, and the two are equal exactly when the
    count is 0; a site with a recorded outcome always has a count above
    its pattern total, because a group with n outcomes adds n to the count
    and max(0, n - 15) to the patterns. *)
Theorem branch_counts_exceed_pattern_totals (ki : KernelInvocation)
    (p0 p1 : Plugin) (groups : list WorkerState) (site c : Z) :
  kernelBegin ki p0 = Some p1 →
  m_branchCounts (merged p1 groups) !! site = Some c →
  pattern_total (merged p1 groups) site <= c
  ∧ (c = pattern_total (merged p1 groups) site ↔ c = 0).
Proof.
  intros Hkb Hc.
  assert (Hinit : branch_invariant (m_branchCounts p1, m_branchPatterns p1)).
  { unfold kernelBegin in Hkb. destruct (Transfer.kernelBegin _ _); [|done].
    injection Hkb as <-. intros s. simpl. rewrite !lookup_empty. simpl.
    pose proof (sum_values_empty (K:=Z)). lia. }
  destruct (merged_invariant groups p1 Hinit site) as [Hle Heq].
  cbn [fst snd] in Hle, Heq. rewrite Hc in Hle, Heq. simpl in Hle, Heq.
  unfold pattern_total. split; [lia|]. split; [intros; apply Heq; lia|lia].
Qed.

Lemma branch_counts_exceed_pattern_totals_witness :
  ∃ p1,
    kernelBegin (kernel_1d "loop" 1) (plugin constructed) = Some p1 ∧
    m_branchCounts (merged p1 [worker_with_branch 16]) !! 200 = Some 16 ∧
    (pattern_total (merged p1 [worker_with_branch 16]) 200 <= 16
     ∧ (16 = pattern_total (merged p1 [worker_with_branch 16]) 200
        ↔ 16 = 0)).
Proof.
  eexists. split; [vm_compute; reflexivity|].
  split; [vm_compute; reflexivity|].
  apply (branch_counts_exceed_pattern_totals (kernel_1d "loop" 1)
           (plugin constructed) _ [worker_with_branch 16] 200 16);
    vm_compute; reflexivity.
Defined.

(** C2 fails as stated: a work-item that passes one branch site 16 times
    leaves the count 16 and a single pattern occurrence, so the count has
    reached the window size 16 without being equal to the pattern total. *)
Lemma branch_count_equality_counterexample :
  ∃ sys,
    simulate (branch_kernel_body 16) constructed = Some sys
    ∧ m_branchCounts (plugin sys) !! 200 = Some 16
    ∧ pattern_total (plugin sys) 200 = 1
    ∧ ¬ (16 = pattern_total (plugin sys) 200 ↔ 16 >= m_history).
Proof.
  assert (Hf :
    (λ sys, (m_branchCounts (plugin sys) !! 200,
             pattern_total (plugin sys) 200))
      <$> simulate (branch_kernel_body 16) constructed
    = Some (Some 16, 1)) by (vm_compute; reflexivity).
  destruct (simulate (branch_kernel_body 16) constructed) as [sys|];
    [|discriminate].
  cbn [fmap option_fmap option_map] in Hf. injection Hf as Hc Hp.
  exists sys. repeat split; try done.
  rewrite Hp. unfold m_history. intros [_ Hback]. specialize (Hback ltac:(lia)).
  discriminate.
Qed.

(** ** Floating-point values *)

Lemma Rsign_pos r : (0 < r)%R → Rsign r = Gt.
Proof.
  intros Hr. unfold Rsign. destruct (total_order_T r 0) as [[Hlt|Heq]|Hgt];
    [lra|lra|done].
Qed.

Lemma Rsign_zero : Rsign 0 = Eq.
Proof.
  unfold Rsign. destruct (total_order_T 0 0) as [[Hlt|Heq]|Hgt];
    [lra|done|lra].
Qed.

Lemma ddiv_finite a b : (0 < b)%R → (Finite a / Finite b)%D = Finite (a / b).
Proof. intros Hb. unfold ddiv. by rewrite Rsign_pos. Qed.

Lemma dlog2_pos a : (0 < a)%R → dlog2 (Finite a) = Finite (log2 a).
Proof. intros Ha. unfold dlog2. by rewrite Rsign_pos. Qed.

(** One step of the entropy loop on a positive count stays finite. *)
Lemma entropy_step_finite (acc : R) (count denominator : Z) :
  0 < count → 0 < denominator →
  (Finite acc
   - (of_Z count * Finite 1 / of_Z denominator)
     * dlog2 (of_Z count * Finite 1 / of_Z denominator))%D
  = Finite (acc - IZR count * 1 / IZR denominator
                  * log2 (IZR count * 1 / IZR denominator)).
Proof.
  intros Hc Hd.
  assert (Hc' : (0 < IZR count)%R) by (by apply IZR_lt).
  assert (Hd' : (0 < IZR denominator)%R) by (by apply IZR_lt).
  unfold of_Z. cbn [dmul]. rewrite ddiv_finite by done.
  rewrite dlog2_pos; [done|].
  unfold Rdiv. apply Rmult_lt_0_compat; [lra|]. by apply Rinv_0_lt_compat.
Qed.

(** ** The sequential load stream *)

Lemma ln_2_pos : (0 < ln 2)%R.
Proof. rewrite <- ln_1. apply ln_increasing; lra. Qed.

Lemma log2_quarter : log2 (256 * 1 / 1024) = (-2)%R.
Proof.
  unfold log2. replace (256 * 1 / 1024)%R with (/ (2 * 2))%R by lra.
  rewrite ln_Rinv by lra. rewrite ln_mult by lra.
  pose proof ln_2_pos. field. lra.
Qed.

Lemma entropy_loop_four_quarters a b c d :
  entropy_loop 1024 [(a, 256); (b, 256); (c, 256); (d, 256)] = Finite 2.
Proof.
  unfold entropy_loop. cbn [foldl snd].
  rewrite !entropy_step_finite by lia. rewrite log2_quarter. f_equal. lra.
Qed.

(** The report of the sequential load stream: the 1024 addresses
    0x1000, 0x1004, ..., 0x1FFC lie in the four buckets 4, 5, 6 and 7 of
    [address >> 10], 256 in each, so the skip-10 entry is
    4 * (1/4) * log2 4 = 2. *)
Lemma sequential_stream_skip10 :
  ∃ sys r,
    simulate sequential_load_stream constructed = Some sys
    ∧ emitted sys = [r]
    ∧ LMAE r !! 9%nat = Some (10, Finite 2).
Proof.
  assert (Hf :
    (λ sys,
       let lac :=
         address_counts
           (merge_into unbounded (storeOps (worker sys)) (m_storeOps (plugin sys)))
           (merge_into unbounded (loadOps (worker sys)) (m_loadOps (plugin sys))) in
       (map_to_list (default ∅ (lac !! 10%nat)),
        memory_access_count (sorted_count lac),
        m_instructionsToBarrier (plugin sys)
          ++ instructionsBetweenBarriers (worker sys),
        m_instructionsPerWorkitem (plugin sys)
          ++ instructionsPerWorkitem (worker sys),
        map_to_list (merge_into unbounded (instructionWidth (worker sys))
                       (m_instructionWidth (plugin sys))),
        emitted sys))
      <$> simulate sequential_load_stream_work constructed
    = Some ([(7, 256); (5, 256); (6, 256); (4, 256)], 1024, [1025], [1025],
            [(1, 1025)], [])) by (vm_compute; reflexivity).
  unfold sequential_load_stream. rewrite simulate_app.
  destruct (simulate sequential_load_stream_work constructed) as [[p1 s1 e1]|];
    [|discriminate].
  cbn [fmap option_fmap option_map plugin worker emitted] in Hf.
  injection Hf as Hl10 Hacc Hitb Hipt Hw He.
  cbn [simulate callback_step plugin worker emitted].
  destruct (logMetrics_emits (workGroupComplete_plugin s1 p1)) as [r Hr].
  - cbn [workGroupComplete_plugin m_instructionsToBarrier]. now rewrite Hitb.
  - cbn [workGroupComplete_plugin m_instructionsPerWorkitem]. now rewrite Hipt.
  - cbn [workGroupComplete_plugin m_instructionWidth].
    intros Hempty. rewrite Hempty, map_to_list_empty in Hw. discriminate.
  - cbn [workGroupComplete_plugin m_psl_per_group].
    destruct (m_psl_per_group p1); discriminate.
  - unfold kernelEnd. rewrite Hr. eexists. exists r.
    split; [reflexivity|]. cbn [emitted]. rewrite He. split; [done|].
    destruct (logMetrics_rows _ _ Hr) as (_ & _ & _ & ->).
    rewrite list_lookup_fmap.
    change (skips_1_10 !! 9%nat) with (Some 10). cbn [fmap option_fmap option_map].
    cbn [workGroupComplete_plugin m_storeOps m_loadOps].
    rewrite Hacc. unfold local_entropy.
    change (Z.to_nat 10) with 10%nat. rewrite Hl10.
    now rewrite entropy_loop_four_quarters.
Qed.

(** C3 (as the code has it): for one work-item that performs 1024 loads
    from consecutive 4-byte addresses starting at 0x1000, the skip-10 entry
    of the LMAE row is 2: the addresses span 4096 bytes, that is four
    buckets of [address >> 10] with 256 accesses each. *)
Theorem sequential_stream_skip10_is_two :
  ∃ sys r,
    simulate sequential_load_stream constructed = Some sys
    ∧ emitted sys = [r]
    ∧ LMAE r !! 9%nat = Some (10, Finite (log2 4)).
Proof.
  destruct sequential_stream_skip10 as (sys & r & Hsim & Hr & Hl).
  exists sys, r. split; [exact Hsim|]. split; [exact Hr|].
  rewrite Hl. do 3 f_equal.
  unfold log2. replace 4%R with (2 * 2)%R by lra. rewrite ln_mult by lra.
  pose proof ln_2_pos. field. lra.
Qed.

(** C3 fails as stated: the skip-10 entry of the report of the sequential
    load stream is not 0. *)
Lemma sequential_stream_skip10_not_zero :
  ∃ sys r v,
    simulate sequential_load_stream constructed = Some sys
    ∧ emitted sys = [r]
    ∧ LMAE r !! 9%nat = Some (10, v)
    ∧ v ≠ Finite 0.
Proof.
  destruct sequential_stream_skip10 as (sys & r & Hsim & Hr & Hl).
  exists sys, r, (Finite 2). split; [exact Hsim|]. split; [exact Hr|].
  split; [exact Hl|]. intros [= H20]. lra.
Qed.

(** ** The entropy routine *)

(** *** The bucketed histograms *)

(** A fold of [alter]s over distinct positions changes each position once. *)
Lemma lookup_alter_skips (g : Z → gmap Z Z → gmap Z Z) (skips : list Z) :
  ∀ (lac : list (gmap Z Z)) (k : nat),
  NoDup skips → (∀ n, n ∈ skips → 0 <= n) →
  foldl (λ lac nskip, alter (g nskip) (Z.to_nat nskip) lac) lac skips !! k
  = if decide (Z.of_nat k ∈ skips) then g (Z.of_nat k) <$> lac !! k
    else lac !! k.
Proof.
  induction skips as [|n skips IH]; intros lac k Hnd Hpos.
  - simpl. done.
  - apply NoDup_cons in Hnd as [Hn Hnd]. cbn [foldl].
    rewrite IH; [|done|intros; apply Hpos; by right].
    assert (0 <= n) by (apply Hpos; by left).
    destruct (decide (Z.of_nat k = n)) as [<-|Hne].
    + rewrite Nat2Z.id, list_lookup_alter_eq.
      rewrite decide_False by done. rewrite decide_True by (by left). done.
    + rewrite list_lookup_alter_ne by lia.
      destruct (decide (Z.of_nat k ∈ skips)) as [Hin|Hnin].
      * rewrite decide_True by (by right). done.
      * rewrite decide_False; [done|].
        intros [?|?]%elem_of_cons; congruence.
Qed.

Lemma skips_1_10_spec (n : Z) : n ∈ skips_1_10 ↔ 1 <= n <= 10.
Proof. unfold skips_1_10. rewrite elem_of_seqZ. lia. Qed.

Lemma count_entry_lookup item lac (k : nat) :
  count_entry skips_1_10 item lac !! k
  = if decide (1 <= k <= 10)%nat
    then bump wrap32 (item.1 ≫ Z.of_nat k) item.2 <$> lac !! k
    else lac !! k.
Proof.
  unfold count_entry.
  rewrite (lookup_alter_skips (λ nskip, bump wrap32 (item.1 ≫ nskip) item.2)).
  - destruct (decide (Z.of_nat k ∈ skips_1_10)) as [Hin|Hnin].
    + apply skips_1_10_spec in Hin. rewrite decide_True by lia. done.
    + rewrite skips_1_10_spec in Hnin. rewrite decide_False by lia. done.
  - apply NoDup_seqZ.
  - intros n Hn%skips_1_10_spec. lia.
Qed.

Lemma count_entry_length skips item lac :
  length (count_entry skips item lac) = length lac.
Proof.
  unfold count_entry. revert lac.
  induction skips as [|n skips IH]; intros lac; simpl; [done|].
  by rewrite IH, length_alter.
Qed.

Lemma entropy_counts_fold (histogram : gmap Z Z) (entries : list (Z * Z)) :
  let st := foldl (λ st item,
                     (count_entry skips_1_10 item st.1, wrap64 (st.2 + item.2)))
                  (<[0%nat := histogram]> (replicate 11 ∅), 0) entries in
  length st.1 = 11%nat ∧
  st.1 !! 0%nat = Some histogram ∧
  (∀ k : nat, (1 <= k <= 10)%nat → st.1 !! k = Some (bucketed (Z.of_nat k) entries)) ∧
  st.2 = total_of entries.
Proof.
  induction entries as [|item entries IH] using rev_ind.
  - cbn [foldl fst snd]. split; [done|]. split; [done|]. split; [|done].
    intros k Hk. rewrite list_lookup_insert_ne by lia.
    rewrite lookup_replicate_2 by lia. done.
  - cbn zeta in *. rewrite foldl_snoc. cbn [fst snd].
    destruct IH as (Hlen & H0 & Hk & Ht).
    split; [|split; [|split]].
    + by rewrite count_entry_length.
    + rewrite count_entry_lookup, decide_False by lia. done.
    + intros k Hk'. rewrite count_entry_lookup, decide_True by lia.
      rewrite (Hk k Hk'). simpl. unfold bucketed. by rewrite foldl_snoc.
    + rewrite Ht. unfold total_of. by rewrite foldl_snoc.
Qed.

(** *** Without overflow the buckets hold the sums of their addresses *)

Lemma sumZ_cons x l : sumZ (x :: l) = x + sumZ l.
Proof. done. Qed.

Section Buckets.
Variable skip : Z.

Lemma count_in_snoc entries item bucket :
  count_in skip (entries ++ [item]) bucket
  = count_in skip entries bucket
    + (if decide (item.1 ≫ skip = bucket) then item.2 else 0).
Proof.
  unfold count_in. rewrite filter_app, fmap_app, sumZ_app.
  case_decide.
  - rewrite filter_cons_True by done. simpl. lia.
  - rewrite filter_cons_False by done. simpl. lia.
Qed.

Lemma count_in_bounds entries bucket :
  (∀ e, e ∈ entries → 0 <= e.2) →
  0 <= count_in skip entries bucket <= sumZ entries.*2.
Proof.
  unfold count_in. induction entries as [|e entries IH]; intros Hnn.
  - simpl. lia.
  - assert (0 <= e.2) by (apply Hnn; by left).
    assert (Hrest : ∀ e', e' ∈ entries → 0 <= e'.2)
      by (intros; apply Hnn; by right).
    specialize (IH Hrest). rewrite fmap_cons, sumZ_cons.
    destruct (decide (e.1 ≫ skip = bucket)).
    + rewrite filter_cons_True by done. rewrite fmap_cons, sumZ_cons. lia.
    + rewrite filter_cons_False by done. lia.
Qed.

Lemma count_in_absent entries bucket :
  bucket ∉ (λ e, e.1 ≫ skip) <$> entries → count_in skip entries bucket = 0.
Proof.
  unfold count_in. induction entries as [|e entries IH]; intros Hnin; [done|].
  rewrite fmap_cons, not_elem_of_cons in Hnin. destruct Hnin as [Hne Hnin].
  rewrite filter_cons_False by (simpl; congruence). by apply IH.
Qed.

Lemma count_in_present entries bucket :
  (∀ e, e ∈ entries → 0 < e.2) →
  bucket ∈ (λ e, e.1 ≫ skip) <$> entries → 1 <= count_in skip entries bucket.
Proof.
  unfold count_in. induction entries as [|e entries IH]; intros Hpos Hin.
  - by apply elem_of_nil in Hin.
  - assert (0 < e.2) by (apply Hpos; by left).
    assert (Hrest : ∀ e', e' ∈ entries → 0 < e'.2)
      by (intros; apply Hpos; by right).
    destruct (decide (e.1 ≫ skip = bucket)) as [Heq|Hne].
    + rewrite filter_cons_True by done. rewrite fmap_cons, sumZ_cons.
      assert (Hnn : ∀ e', e' ∈ entries → 0 <= e'.2)
        by (intros e' He'; specialize (Hrest e' He'); lia).
      pose proof (count_in_bounds entries bucket Hnn) as Hb.
      unfold count_in in Hb. lia.
    + rewrite filter_cons_False by done. apply IH; [done|].
      rewrite fmap_cons in Hin. apply elem_of_cons in Hin as [Heq|Hin];
        [congruence|done].
Qed.

(** As long as no bucket count reaches 2^32, a bucket holds the sum of the
    counts of its addresses. *)
Lemma bucketed_lookup_buckets entries :
  (∀ e, e ∈ entries → 0 <= e.2) →
  (∀ bucket, count_in skip entries bucket < 2 ^ 32) →
  ∀ bucket,
    bucketed skip entries !! bucket
    = if decide (bucket ∈ (λ e, e.1 ≫ skip) <$> entries)
      then Some (count_in skip entries bucket) else None.
Proof.
  induction entries as [|item entries IH] using rev_ind;
    intros Hnn Hsmall bucket.
  - unfold bucketed. cbn [foldl]. rewrite lookup_empty.
    case_decide as Hin; [|done]. by apply elem_of_nil in Hin.
  - assert (Hnn' : ∀ e, e ∈ entries → 0 <= e.2)
      by (intros; apply Hnn; set_solver).
    assert (0 <= item.2) by (apply Hnn; set_solver).
    assert (Hsmall' : ∀ b, count_in skip entries b < 2 ^ 32).
    { intros b. specialize (Hsmall b). rewrite count_in_snoc in Hsmall.
      case_decide; lia. }
    pose proof (Hsmall (item.1 ≫ skip)) as Hsum.
    rewrite count_in_snoc, decide_True in Hsum by done.
    pose proof (count_in_bounds entries (item.1 ≫ skip) Hnn') as Hb.
    pose proof (count_in_bounds entries bucket Hnn') as Hb'.
    specialize (IH Hnn' Hsmall').
    unfold bucketed. rewrite foldl_snoc. fold (bucketed skip entries).
    rewrite lookup_bump, count_in_snoc, fmap_app.
    change ((λ e, e.1 ≫ skip) <$> [item]) with [item.1 ≫ skip].
    destruct (decide (item.1 ≫ skip = bucket)) as [Heq|Hne].
    + rewrite decide_True
        by (apply elem_of_app; right; rewrite Heq; apply list_elem_of_singleton; done).
      f_equal. rewrite IH, Heq.
      case_decide as Hin.
      * simpl. apply wrap32_small. subst bucket. lia.
      * simpl. rewrite (count_in_absent _ _ Hin). apply wrap32_small. lia.
    + rewrite IH. destruct (decide (bucket ∈ (λ e, e.1 ≫ skip) <$> entries)).
      * rewrite decide_True by (apply elem_of_app; by left). f_equal. lia.
      * rewrite decide_False; [done|].
        intros [?|Hs%list_elem_of_singleton]%elem_of_app; congruence.
Qed.

Lemma bucketed_lookup entries :
  (∀ e, e ∈ entries → 0 <= e.2) → sumZ entries.*2 < 2 ^ 32 →
  ∀ bucket,
    bucketed skip entries !! bucket
    = if decide (bucket ∈ (λ e, e.1 ≫ skip) <$> entries)
      then Some (count_in skip entries bucket) else None.
Proof.
  intros Hnn Hsum. apply bucketed_lookup_buckets; [done|].
  intros bucket. pose proof (count_in_bounds entries bucket Hnn). lia.
Qed.

Lemma total_of_no_overflow entries :
  (∀ e, e ∈ entries → 0 <= e.2) → sumZ entries.*2 < 2 ^ 64 →
  total_of entries = sumZ entries.*2.
Proof.
  induction entries as [|item entries IH] using rev_ind; intros Hnn Hsum.
  - done.
  - assert (Hnn' : ∀ e, e ∈ entries → 0 <= e.2)
      by (intros; apply Hnn; set_solver).
    assert (0 <= item.2) by (apply Hnn; set_solver).
    rewrite fmap_app, sumZ_app in *.
    change (sumZ [item].*2) with (item.2 + 0) in *. rewrite Z.add_0_r in *.
    pose proof (count_in_bounds entries 0 Hnn').
    unfold total_of. rewrite foldl_snoc. fold (total_of entries).
    rewrite IH by (done || lia). apply wrap64_small. lia.
Qed.

End Buckets.



Lemma count_in_key (entries : list (Z * Z)) (a c : Z) :
  NoDup entries.*1 → (a, c) ∈ entries → count_in 0 entries a = c.
Proof.
  unfold count_in. induction entries as [|e entries IH]; intros Hnd Hin.
  - by apply elem_of_nil in Hin.
  - rewrite fmap_cons in Hnd. apply NoDup_cons in Hnd as [Hfresh Hnd].
    destruct (decide (e.1 ≫ 0 = a)) as [Heq|Hne].
    + rewrite Z.shiftr_0_r in Heq.
      rewrite filter_cons_True by (by rewrite Z.shiftr_0_r).
      rewrite fmap_cons, sumZ_cons.
      assert (Habs : a ∉ (λ e, e.1 ≫ 0) <$> entries).
      { intros (e' & He' & Hin')%list_elem_of_fmap. rewrite Z.shiftr_0_r in He'.
        apply Hfresh. rewrite Heq, He'. by apply list_elem_of_fmap_2. }
      pose proof (count_in_absent 0 _ _ Habs) as H0. unfold count_in in H0.
      rewrite H0. apply elem_of_cons in Hin as [<-|Hin]; [simpl; lia|].
      exfalso. apply Hfresh. rewrite Heq.
      change a with ((a, c).1). by apply list_elem_of_fmap_2.
    + rewrite filter_cons_False by done. apply IH; [done|].
      apply elem_of_cons in Hin as [<-|Hin]; [|done].
      simpl in Hne. by rewrite Z.shiftr_0_r in Hne.
Qed.

Section EntropyCounts.
Variable histogram : gmap Z Z.
Hypothesis Hpos : map_Forall (λ _ c, 0 < c) histogram.
Hypothesis Hbuckets : ∀ skip bucket,
  1 <= skip <= 10 → bucket_total histogram skip bucket < 2 ^ 32.
Hypothesis Htotal : hist_total histogram < 2 ^ 64 - 1.

Lemma entries_positive e : e ∈ map_to_list histogram → 0 < e.2.
Proof.
  destruct e as [a c]. intros Hin%elem_of_map_to_list. simpl.
  by apply (Hpos a c).
Qed.

Lemma entries_nonneg e : e ∈ map_to_list histogram → 0 <= e.2.
Proof. intros Hin. apply entries_positive in Hin. lia. Qed.

Lemma entropy_counts_total :
  (entropy_counts histogram).2 = hist_total histogram.
Proof.
  unfold entropy_counts.
  destruct (entropy_counts_fold histogram (map_to_list histogram))
    as (_ & _ & _ & ->).
  apply (total_of_no_overflow 0); [apply entries_nonneg|].
  unfold hist_total, sum_values in Htotal. lia.
Qed.

(** Each of the eleven histograms maps exactly the buckets that hold an
    address, each to the sum of the counts of its addresses. *)
Lemma entropy_counts_bucket (k : nat) :
  (k <= 10)%nat →
  ∃ m, (entropy_counts histogram).1 !! k = Some m ∧
       ∀ b c, m !! b = Some c ↔
              b ∈ buckets histogram (Z.of_nat k)
              ∧ c = bucket_total histogram (Z.of_nat k) b.
Proof.
  intros Hk. unfold entropy_counts.
  destruct (entropy_counts_fold histogram (map_to_list histogram))
    as (_ & H0 & Hrest & _).
  destruct (decide (k = 0)%nat) as [->|Hk0].
  - exists histogram. split; [exact H0|]. intros b c.
    unfold buckets, bucket_total. rewrite elem_of_list_to_set.
    change (Z.of_nat 0) with 0. split.
    + intros Hb. apply elem_of_map_to_list in Hb. split.
      * apply list_elem_of_fmap. exists (b, c). simpl.
        by rewrite Z.shiftr_0_r.
      * symmetry. apply (count_in_key _ _ _ (NoDup_fst_map_to_list _) Hb).
    + intros [(e & He & Hin)%list_elem_of_fmap ->].
      rewrite Z.shiftr_0_r in He. destruct e as [a c]. simpl in He. subst a.
      pose proof (count_in_key _ _ _ (NoDup_fst_map_to_list _) Hin) as Hc.
      unfold count_in in Hc. rewrite Hc. by apply elem_of_map_to_list.
  - exists (bucketed (Z.of_nat k) (map_to_list histogram)).
    split; [apply Hrest; lia|]. intros b c.
    rewrite bucketed_lookup_buckets;
      [|apply entries_nonneg|intros bucket; apply Hbuckets; lia].
    unfold buckets, bucket_total. rewrite elem_of_list_to_set.
    fold (count_in (Z.of_nat k) (map_to_list histogram) b).
    case_decide as Hin.
    + split; [intros [= <-]; done|intros [_ ->]; done].
    + split; [done|intros [? _]; done].
Qed.

End EntropyCounts.

(** A histogram with fewer than 2^32 accesses has no bucket that reaches
    2^32. *)
Lemma small_total_buckets (histogram : gmap Z Z) :
  map_Forall (λ _ c, 0 < c) histogram →
  hist_total histogram < 2 ^ 32 →
  (∀ skip bucket,
     1 <= skip <= 10 → bucket_total histogram skip bucket < 2 ^ 32)
  ∧ hist_total histogram < 2 ^ 64 - 1.
Proof.
  intros Hpos Hsmall. split; [|lia]. intros skip bucket _.
  pose proof (count_in_bounds skip (map_to_list histogram) bucket
                (entries_nonneg histogram Hpos)) as Hb.
  unfold bucket_total, hist_total, sum_values, count_in in *. lia.
Qed.

(** A counting map that is given bucket by bucket lists its entries in some
    order of the buckets. *)
Lemma map_to_list_by_buckets (m : gmap Z Z) (S : gset Z) (f : Z → Z) :
  (∀ b c, m !! b = Some c ↔ b ∈ S ∧ c = f b) →
  map_to_list m ≡ₚ (λ b, (b, f b)) <$> elements S.
Proof.
  intros Hm. apply NoDup_Permutation.
  - apply NoDup_map_to_list.
  - apply NoDup_fmap_2_strong; [|apply NoDup_elements].
    intros x y _ _ Hxy. congruence.
  - intros [b c]. rewrite elem_of_map_to_list, Hm, list_elem_of_fmap.
    split.
    + intros [Hb ->]. exists b. split; [done|]. by apply elem_of_elements.
    + intros (b' & [= -> ->] & Hb'). split; [|done]. by apply elem_of_elements.
Qed.

(** *** The sums of real numbers *)

Lemma sumR_Permutation l1 l2 : l1 ≡ₚ l2 → sumR l1 = sumR l2.
Proof. induction 1; simpl; lra. Qed.

Lemma sumR_cons x l : sumR (x :: l) = (x + sumR l)%R.
Proof. done. Qed.

Lemma entropy_loop_sum denominator (counts : list (Z * Z)) :
  (∀ it, it ∈ counts → 0 < it.2) → 0 < denominator →
  entropy_loop denominator counts
  = Finite (- sumR ((λ it, IZR it.2 / IZR denominator
                           * log2 (IZR it.2 / IZR denominator)) <$> counts))%R.
Proof.
  intros Hpos Hd. unfold entropy_loop.
  assert (Hgen : ∀ acc,
    foldl (λ acc it,
             let prob := (of_Z it.2 * Finite 1 / of_Z denominator)%D in
             (acc - prob * dlog2 prob)%D) (Finite acc) counts
    = Finite (acc - sumR ((λ it, IZR it.2 / IZR denominator
                                 * log2 (IZR it.2 / IZR denominator))
                            <$> counts))%R).
  { induction counts as [|it counts IH]; intros acc.
    - cbn [foldl fmap list_fmap sumR foldr]. f_equal. lra.
    - cbn [foldl]. cbn zeta.
      rewrite entropy_step_finite by (done || (apply Hpos; by left)).
      rewrite IH by (intros; apply Hpos; by right).
      rewrite fmap_cons, sumR_cons, Rmult_1_r. f_equal. lra. }
  rewrite Hgen. f_equal. lra.
Qed.

Lemma log2_le x y : (0 < x)%R → (x <= y)%R → (log2 x <= log2 y)%R.
Proof.
  intros Hx Hxy. unfold log2. pose proof ln_2_pos.
  apply Rmult_le_compat_r; [left; by apply Rinv_0_lt_compat|].
  destruct Hxy as [Hlt| ->]; [left; by apply ln_increasing|lra].
Qed.

Lemma log2_1 : log2 1 = 0%R.
Proof. unfold log2. rewrite ln_1. lra. Qed.

Lemma log2_inv x : (0 < x)%R → log2 (/ x) = (- log2 x)%R.
Proof. intros Hx. unfold log2. rewrite ln_Rinv by done. lra. Qed.

(** One term of the entropy sum: a count between 1 and [total] contributes
    between 0 and [p * log2 (total + 1)]. *)
Lemma entropy_term_bounds (c total : Z) :
  1 <= c <= total →
  let p := (IZR c / IZR (total + 1))%R in
  (0 <= - (p * log2 p) <= p * log2 (IZR (total + 1)))%R.
Proof.
  intros Hc p.
  assert (Hd : (0 < IZR (total + 1))%R) by (apply IZR_lt; lia).
  assert (Hc1 : (1 <= IZR c)%R) by (apply IZR_le; lia).
  assert (Hcd : (IZR c <= IZR (total + 1))%R) by (apply IZR_le; lia).
  assert (Hinv : (0 < / IZR (total + 1))%R) by (by apply Rinv_0_lt_compat).
  assert (Hp0 : (0 < p)%R) by (unfold p, Rdiv; apply Rmult_lt_0_compat; lra).
  assert (Hp1 : (p <= 1)%R).
  { unfold p. apply (Rmult_le_reg_r (IZR (total + 1))); [done|].
    unfold Rdiv. rewrite Rmult_assoc, Rinv_l by lra. lra. }
  assert (Hplow : (/ IZR (total + 1) <= p)%R).
  { unfold p, Rdiv. rewrite <- (Rmult_1_l (/ IZR (total + 1))) at 1.
    apply Rmult_le_compat_r; lra. }
  assert (Hl1 : (log2 p <= 0)%R) by (rewrite <- log2_1; by apply log2_le).
  assert (Hl2 : (- log2 (IZR (total + 1)) <= log2 p)%R)
    by (rewrite <- log2_inv by done; by apply log2_le).
  split; nra.
Qed.

Lemma sumZ_nonneg cs : (∀ c, c ∈ cs → 1 <= c) → 0 <= sumZ cs.
Proof.
  induction cs as [|c cs IH]; intros Hcs; simpl; [lia|].
  assert (1 <= c) by (apply Hcs; by left).
  assert (0 <= sumZ cs) by (apply IH; intros; apply Hcs; by right). lia.
Qed.

Lemma entropy_sum_bounds (cs : list Z) (total : Z) :
  (∀ c, c ∈ cs → 1 <= c) → sumZ cs <= total →
  (0 <= - sumR ((λ c, IZR c / IZR (total + 1)
                      * log2 (IZR c / IZR (total + 1))) <$> cs)
     <= IZR (sumZ cs) / IZR (total + 1) * log2 (IZR (total + 1)))%R.
Proof.
  induction cs as [|c cs IH]; intros Hcs Hsum.
  - simpl. lra.
  - assert (1 <= c) by (apply Hcs; by left).
    assert (Hrest : ∀ c', c' ∈ cs → 1 <= c') by (intros; apply Hcs; by right).
    pose proof (sumZ_nonneg cs Hrest). rewrite sumZ_cons in Hsum.
    specialize (IH Hrest ltac:(lia)).
    pose proof (entropy_term_bounds c total ltac:(lia)) as Ht. cbn zeta in Ht.
    rewrite fmap_cons, sumR_cons, sumZ_cons, (plus_IZR c (sumZ cs)).
    replace ((IZR c + IZR (sumZ cs)) / IZR (total + 1))%R
      with (IZR c / IZR (total + 1) + IZR (sumZ cs) / IZR (total + 1))%R
      by (unfold Rdiv; lra).
    rewrite Rmult_plus_distr_r. lra.
Qed.

(** The bound of the claim: an entropy sum over counts that add up to
    [total] lies between 0 and [log2 (total + 1)]. *)
Lemma entropy_sum_range (cs : list Z) (total : Z) :
  (∀ c, c ∈ cs → 1 <= c) → sumZ cs = total →
  (0 <= - sumR ((λ c, IZR c / IZR (total + 1)
                      * log2 (IZR c / IZR (total + 1))) <$> cs)
     <= log2 (IZR (total + 1)))%R.
Proof.
  intros Hcs Hsum.
  destruct (entropy_sum_bounds cs total Hcs ltac:(lia)) as [Hlo Hhi].
  split; [done|]. eapply Rle_trans; [exact Hhi|].
  pose proof (sumZ_nonneg cs Hcs). rewrite Hsum in *.
  assert (Hd : (0 < IZR (total + 1))%R) by (apply IZR_lt; lia).
  assert (Ht : (0 <= IZR total)%R) by (apply IZR_le; lia).
  assert (HL : (0 <= log2 (IZR (total + 1)))%R).
  { rewrite <- log2_1. apply log2_le; [lra|]. apply IZR_le. lia. }
  assert (Hq : (IZR total / IZR (total + 1) <= 1)%R).
  { apply (Rmult_le_reg_r (IZR (total + 1))); [done|].
    unfold Rdiv. rewrite Rmult_assoc, Rinv_l by lra.
    rewrite plus_IZR. lra. }
  assert (Hq0 : (0 <= IZR total / IZR (total + 1))%R).
  { unfold Rdiv. apply Rmult_le_pos; [done|]. left. by apply Rinv_0_lt_compat. }
  nra.
Qed.

(** *** The buckets partition the histogram *)

Lemma sumZ_indicator (bs : list Z) (a x : Z) :
  NoDup bs →
  sumZ ((λ b, if decide (a = b) then x else 0) <$> bs)
  = if decide (a ∈ bs) then x else 0.
Proof.
  induction bs as [|b bs IH]; intros Hnd.
  - by simpl.
  - apply NoDup_cons in Hnd as [Hb Hnd]. rewrite fmap_cons, sumZ_cons, IH by done.
    destruct (decide (a = b)) as [->|Hne].
    + rewrite decide_False by done. rewrite decide_True by (by left). lia.
    + destruct (decide (a ∈ bs)).
      * rewrite decide_True by (by right). lia.
      * rewrite decide_False; [lia|].
        intros [?|?]%elem_of_cons; congruence.
Qed.

Lemma sumZ_fmap_add {A} (f g : A → Z) (l : list A) :
  sumZ ((λ x, f x + g x) <$> l) = sumZ (f <$> l) + sumZ (g <$> l).
Proof.
  induction l as [|x l IH]; [done|]. rewrite !fmap_cons, !sumZ_cons. lia.
Qed.

Lemma count_in_cons skip e entries bucket :
  count_in skip (e :: entries) bucket
  = (if decide (e.1 ≫ skip = bucket) then e.2 else 0)
    + count_in skip entries bucket.
Proof.
  unfold count_in. case_decide.
  - rewrite filter_cons_True by done. by rewrite fmap_cons, sumZ_cons.
  - rewrite filter_cons_False by done. lia.
Qed.

Lemma count_in_partition skip (entries : list (Z * Z)) (bs : list Z) :
  NoDup bs → (∀ e, e ∈ entries → e.1 ≫ skip ∈ bs) →
  sumZ (count_in skip entries <$> bs) = sumZ entries.*2.
Proof.
  intros Hnd. induction entries as [|e entries IH]; intros Hall.
  - clear. induction bs as [|b bs IHb]; [done|].
    rewrite fmap_cons, sumZ_cons, IHb. reflexivity.
  - rewrite (list_fmap_ext _
      (λ b, (if decide (e.1 ≫ skip = b) then e.2 else 0)
            + count_in skip entries b))
      by (intros; apply count_in_cons).
    rewrite sumZ_fmap_add, sumZ_indicator by done.
    rewrite decide_True by (apply Hall; by left).
    rewrite IH by (intros; apply Hall; by right).
    by rewrite fmap_cons, sumZ_cons.
Qed.

(** *** The entropy of the specification lies in [0, log2 (total + 1)] *)

Lemma entropy_spec_range (histogram : gmap Z Z) (skip : Z) :
  map_Forall (λ _ c, 0 < c) histogram →
  (0 <= entropy_spec histogram skip
     <= log2 (IZR (hist_total histogram + 1)))%R.
Proof.
  intros Hpos. unfold entropy_spec.
  assert (Htot : 0 <= hist_total histogram).
  { unfold hist_total, sum_values.
    pose proof (count_in_bounds 0 (map_to_list histogram) 0) as Hb.
    assert (∀ e, e ∈ map_to_list histogram → 0 <= e.2)
      by (apply entries_nonneg; done).
    specialize (Hb ltac:(done)). lia. }
  case_decide as Hzero.
  - rewrite Hzero. change (IZR (0 + 1)) with 1%R. rewrite log2_1. lra.
  - rewrite (list_fmap_compose (bucket_total histogram skip)
               (λ c, IZR c / IZR (hist_total histogram + 1)
                     * log2 (IZR c / IZR (hist_total histogram + 1)))%R
               (elements (buckets histogram skip))).
    apply entropy_sum_range.
    + intros c (b & -> & Hb)%list_elem_of_fmap.
      apply elem_of_elements in Hb. unfold buckets in Hb.
      apply elem_of_list_to_set in Hb.
      apply (count_in_present skip (map_to_list histogram) b); [|done].
      intros e He. by apply (entries_positive histogram).
    + apply (count_in_partition skip (map_to_list histogram)).
      * apply NoDup_elements.
      * intros e He. apply elem_of_elements. unfold buckets.
        apply elem_of_list_to_set.
        by apply (list_elem_of_fmap_2 (λ e : Z * Z, e.1 ≫ skip)).
Qed.

(** *** The routine against the specification *)

(** One entry of the result: the pass over a histogram that is given
    bucket by bucket, with positive counts, computes the sum of the
    specification. *)
Lemma local_entropy_by_buckets (m : gmap Z Z) (S : gset Z) (f : Z → Z)
    (denominator : Z) :
  (∀ b c, m !! b = Some c ↔ b ∈ S ∧ c = f b) →
  (∀ b, b ∈ S → 0 < f b) → 0 < denominator →
  local_entropy denominator m
  = Finite (- sumR ((λ b, IZR (f b) / IZR denominator
                          * log2 (IZR (f b) / IZR denominator))
                      <$> elements S))%R.
Proof.
  intros Hm Hf Hd. unfold local_entropy. rewrite entropy_loop_sum; [|intros [b c] Hin|done].
  - do 2 f_equal.
    rewrite (sumR_Permutation _
      ((λ it : Z * Z, IZR it.2 / IZR denominator
                      * log2 (IZR it.2 / IZR denominator))%R
         <$> ((λ b, (b, f b)) <$> elements S))).
    + by rewrite <- list_fmap_compose.
    + apply fmap_Permutation. by apply map_to_list_by_buckets.
  - apply elem_of_map_to_list, Hm in Hin as [Hb ->]. simpl. by apply Hf.
Qed.






(** ** The histograms of parallel spatial locality *)

Lemma sum_values_nonneg (m : gmap Z Z) :
  map_Forall (λ _ c, 0 <= c) m → 0 <= sum_values m.
Proof.
  induction m as [|a c m Hfresh IH] using map_ind; intros Hall.
  - pose proof (sum_values_empty (K:=Z)). lia.
  - rewrite sum_values_insert_fresh by done.
    apply map_Forall_insert in Hall as [Hc Hall]; [|done].
    specialize (IH Hall). lia.
Qed.

Lemma lookup_le_sum_values (m : gmap Z Z) a c :
  map_Forall (λ _ c, 0 <= c) m → m !! a = Some c → c <= sum_values m.
Proof.
  intros Hall Ha. rewrite <- (insert_delete_id m a c) by done.
  rewrite sum_values_insert_fresh by apply lookup_delete_eq.
  pose proof (sum_values_nonneg (delete a m)
                (map_Forall_delete _ _ _ Hall)). lia.
Qed.

(** The histogram of a timestep counts every row at most once, so its
    counts are positive and add up to at most the number of rows. *)
Lemma timestep_histogram_fold (i : nat) (rows : list (list ledgerElement)) :
  ∀ (m : gmap Z Z) (n : Z),
  map_Forall (λ _ c, 0 < c) m → sum_values m <= n →
  n + Z.of_nat (length rows) < 2 ^ 32 →
  let m' :=
    foldl (λ histogram row,
             match row !! i with
             | None => histogram
             | Some current =>
                 <[address current :=
                     wrap32 (default 0 (histogram !! address current) + 1)]>
                   histogram
             end) m rows in
  map_Forall (λ _ c, 0 < c) m' ∧ sum_values m' <= n + Z.of_nat (length rows).
Proof.
  induction rows as [|row rows IH]; intros m n Hpos Hsum Hlen; cbn zeta.
  - simpl. split; [done|lia].
  - cbn [foldl]. simpl length in *.
    assert (Hnn : map_Forall (λ _ c, 0 <= c) m).
    { intros a c Hc. specialize (Hpos a c Hc). simpl in *. lia. }
    destruct (row !! i) as [current|].
    + set (a := address current).
      assert (Hold : 0 <= default 0 (m !! a) <= sum_values m).
      { destruct (m !! a) as [c|] eqn:Ha; simpl.
        - split; [by apply (Hnn a c)|by apply (lookup_le_sum_values m a)].
        - split; [lia|by apply sum_values_nonneg]. }
      destruct (IH (<[a := wrap32 (default 0 (m !! a) + 1)]> m) (n + 1))
        as [Hpos' Hsum'].
      * apply map_Forall_insert_2; [|done]. rewrite wrap32_small by lia. lia.
      * rewrite sum_values_insert, wrap32_small by lia. lia.
      * lia.
      * split; [done|]. lia.
    + destruct (IH m (n + 1)) as [Hpos' Hsum']; [done|lia|lia|].
      split; [done|]. lia.
Qed.

(** Every histogram that [parallelSpatialLocality] hands to [entropy]
    meets the two conditions under which the routine computes the entropy
    of the specification. *)
Lemma timestep_histogram_counts (hist : list (list ledgerElement)) (i : nat) :
  Z.of_nat (length hist) < 2 ^ 32 →
  map_Forall (λ _ c, 0 < c) (timestep_histogram hist i)
  ∧ hist_total (timestep_histogram hist i) < 2 ^ 32.
Proof.
  intros Hlen.
  destruct (timestep_histogram_fold i hist ∅ 0) as [Hpos Hsum].
  - apply map_Forall_empty.
  - pose proof (sum_values_empty (K:=Z)). lia.
  - lia.
  - split; [exact Hpos|]. unfold hist_total, timestep_histogram. lia.
Qed.

(** ** The attribution of the copies *)

Section AttributionFacts.
Import Transfer Attribution.

Lemma run_attribution (evs : list event) : ∀ s,
  0 <= m_numberOfHostToDeviceCopiesBeforeKernelNamed s
    <= Z.of_nat (length (m_hostToDeviceCopy s)) →
  ∃ s', run evs s = Some s'
    ∧ m_hostToDeviceCopy s' =
        match next_named evs with
        | Some name =>
            take (length (m_hostToDeviceCopy s)
                  - Z.to_nat (m_numberOfHostToDeviceCopiesBeforeKernelNamed s))
                 (m_hostToDeviceCopy s)
            ++ replicate
                 (Z.to_nat (m_numberOfHostToDeviceCopiesBeforeKernelNamed s))
                 name
        | None => m_hostToDeviceCopy s
        end ++ host_to_device (m_last_kernel_name s) evs
    ∧ m_deviceToHostCopy s' =
        m_deviceToHostCopy s ++ device_to_host (m_last_kernel_name s) evs.
Proof.
  induction evs as [|e evs IH]; intros s Hc.
  - exists s. simpl. by rewrite !app_nil_r.
  - destruct e as [| |name|]; cbn [run step].
    + destruct (IH (hostMemoryStore s)) as (s' & Hrun & Hh & Hd).
      { simpl. rewrite length_app. simpl. lia. }
      exists s'. split; [exact Hrun|]. split; [|exact Hd].
      rewrite Hh. cbn [hostMemoryStore m_hostToDeviceCopy m_last_kernel_name
        m_numberOfHostToDeviceCopiesBeforeKernelNamed next_named host_to_device].
      set (c := m_numberOfHostToDeviceCopiesBeforeKernelNamed s) in *.
      set (v := m_hostToDeviceCopy s) in *.
      destruct (next_named evs) as [n|]; simpl.
      * rewrite length_app. simpl.
        replace (length v + 1 - Z.to_nat (c + 1))%nat
          with (length v - Z.to_nat c)%nat by lia.
        rewrite take_app_le by lia.
        replace (Z.to_nat (c + 1)) with (Z.to_nat c + 1)%nat by lia.
        rewrite replicate_add. simpl. by rewrite <- !app_assoc.
      * by rewrite <- app_assoc.
    + destruct (IH (hostMemoryLoad s)) as (s' & Hrun & Hh & Hd); [done|].
      exists s'. split; [exact Hrun|]. split; [exact Hh|].
      rewrite Hd. simpl. by rewrite <- app_assoc.
    + destruct (kernelBegin_spec name s Hc) as (s1 & Hkb & Hzero & Hlast & Hd1 & Hh1).
      rewrite Hkb.
      destruct (IH s1) as (s' & Hrun & Hh & Hd); [rewrite Hzero; lia|].
      exists s'. split; [exact Hrun|]. rewrite Hh, Hd, Hzero, Hlast, Hd1.
      split; [|done]. cbn [next_named host_to_device]. f_equal.
      change (Z.to_nat 0) with 0%nat. rewrite Nat.sub_0_r, firstn_all. simpl.
      rewrite app_nil_r.
      by destruct (next_named evs).
    + destruct (IH s Hc) as (s' & Hrun & Hh & Hd). exists s'. done.
Qed.

(** X1: whatever callbacks the plugin has received since its construction,
    the host-to-device log holds one entry per [hostMemoryStore], in the
    order of the calls, and the entry of a copy is the name of the first
    kernel that began after the copy; a copy after which no kernel has begun
    yet carries the name of the kernel that began last before it (the empty
    name when there is none). *)
Theorem host_to_device_log_attribution (evs : list event) :
  ∃ s, run evs init = Some s
    ∧ m_hostToDeviceCopy s = host_to_device "" evs.
Proof.
  destruct (run_attribution evs init) as (s & Hrun & Hh & _); [simpl; lia|].
  exists s. split; [exact Hrun|]. rewrite Hh. simpl.
  by destruct (next_named evs).
Qed.

(** X2: the device-to-host log holds one entry per [hostMemoryLoad], in the
    order of the calls, and the entry of a copy is the name of the kernel
    that began last before the copy (the empty name when there is none); no
    later callback changes an entry. *)
Theorem device_to_host_log_attribution (evs : list event) :
  ∃ s, run evs init = Some s
    ∧ m_deviceToHostCopy s = device_to_host "" evs
    ∧ ∀ later, ∃ s', run (evs ++ later) init = Some s'
        ∧ m_deviceToHostCopy s `prefix_of` m_deviceToHostCopy s'.
Proof.
  destruct (run_attribution evs init) as (s & Hrun & Hh & Hd); [simpl; lia|].
  exists s. split; [exact Hrun|]. split; [exact Hd|].
  intros later.
  destruct (run_attribution (evs ++ later) init) as (s' & Hrun' & _ & Hd');
    [simpl; lia|].
  exists s'. split; [exact Hrun'|]. rewrite Hd, Hd'. simpl.
  assert (Happ : ∀ prev l1 l2, ∃ prev', device_to_host prev (l1 ++ l2)
            = device_to_host prev l1 ++ device_to_host prev' l2).
  { intros prev l1. revert prev. induction l1 as [|e l1 IH1]; intros prev l2.
    - exists prev. done.
    - destruct e as [| |name|]; simpl.
      + apply IH1.
      + destruct (IH1 prev l2) as (prev' & ->). by exists prev'.
      + apply IH1.
      + apply IH1. }
  destruct (Happ "" evs later) as (prev' & ->). by eexists.
Qed.

End AttributionFacts.
(** ** The report of the destructor when no kernel name comes back *)

Section ReportFacts.
Import Transfer.

Lemma count_app x l1 l2 : count x (l1 ++ l2) = count x l1 + count x l2.
Proof. unfold count. rewrite filter_app, length_app. lia. Qed.

Lemma count_replicate x y (n : nat) :
  count x (replicate n y) = if decide (y = x) then Z.of_nat n else 0.
Proof.
  unfold count. induction n as [|n IH]; simpl.
  - by case_decide.
  - destruct (decide (y = x)) as [Heq|Hne].
    + rewrite filter_cons_True by done. simpl. lia.
    + rewrite filter_cons_False by done. done.
Qed.

Lemma runs_from_lengths x n l r :
  0 < n → r ∈ runs_from x n l → 0 < r.2.
Proof.
  revert x n. induction l as [|y l IH]; intros x n Hn; simpl.
  - intros ->%list_elem_of_singleton. done.
  - case_decide.
    + apply IH. lia.
    + intros [->|Hr]%elem_of_cons; [done|]. apply (IH y 1); [lia|done].
Qed.

Lemma count_flatten (rs : list (string * Z)) :
  NoDup rs.*1 → (∀ r, r ∈ rs → 0 < r.2) →
  ∀ r, r ∈ rs →
    count r.1 (mjoin ((λ r, replicate (Z.to_nat r.2) r.1) <$> rs)) = r.2.
Proof.
  induction rs as [|r0 rs IH]; intros Hnd Hpos r Hr.
  - by apply elem_of_nil in Hr.
  - rewrite fmap_cons in Hnd. apply NoDup_cons in Hnd as [Hnotin Hnd].
    rewrite fmap_cons. cbn [mjoin list_join]. rewrite count_app, count_replicate.
    assert (Hzero : ∀ x, x ∉ rs.*1 →
      count x (mjoin ((λ r, replicate (Z.to_nat r.2) r.1) <$> rs)) = 0).
    { clear. induction rs as [|r1 rs IH]; intros x Hx; [done|].
      rewrite fmap_cons in Hx. apply not_elem_of_cons in Hx as [Hne Hx].
      rewrite fmap_cons. cbn [mjoin list_join].
      rewrite count_app, count_replicate, IH by done.
      case_decide; [congruence|done]. }
    apply elem_of_cons in Hr as [->|Hr].
    + rewrite decide_True by done. rewrite Hzero by done.
      pose proof (Hpos r0 ltac:(left)). lia.
    + rewrite decide_False.
      * rewrite IH; [lia|done| |done]. intros r' Hr'. apply Hpos. by right.
      * intros Heq. apply Hnotin. rewrite Heq. by apply list_elem_of_fmap_2.
Qed.

Lemma rows_runs_contiguous l : NoDup (unique l) → rows l = runs l.
Proof.
  intros Hnd. rewrite rows_by_runs. rewrite unique_runs in Hnd.
  assert (Hpos : ∀ r, r ∈ runs l → 0 < r.2).
  { destruct l as [|x l]; simpl; [by intros r Hr%elem_of_nil|].
    intros r. by apply runs_from_lengths. }
  rewrite <- (list_fmap_id (runs l)) at 2.
  apply list_fmap_ext. intros i [x n] Hr%list_elem_of_lookup_2. simpl. f_equal.
  pose proof (count_flatten (runs l) Hnd Hpos (x, n) Hr) as Hc.
  by rewrite runs_flatten in Hc.
Qed.

(** X3: when in neither log a kernel name comes back after another name,
    the report of the destructor is the one that goes by runs: one row per
    kernel, carrying the number of its copies, which is the length of its
    only run. *)
Theorem report_by_runs_when_contiguous (s : t) :
  NoDup (unique (m_hostToDeviceCopy s)) →
  NoDup (unique (m_deviceToHostCopy s)) →
  report s = report_by_runs s.
Proof.
  intros Hh Hd. unfold report, report_by_runs.
  by rewrite !rows_runs_contiguous.
Qed.

Lemma report_by_runs_when_contiguous_witness :
  report (mk ["A"; "A"; "B"] ["A"] "B" 0)
  = report_by_runs (mk ["A"; "A"; "B"] ["A"] "B" 0).
Proof.
  apply report_by_runs_when_contiguous;
    apply (bool_decide_unpack _); vm_compute; exact I.
Defined.

(** *** The name of the report of a kernel *)

Lemma string_length_app (s t : string) :
  String.length (s +:+ t) = (String.length s + String.length t)%nat.
Proof. induction s as [|a s IH]; simpl; [done|]. by rewrite IH. Qed.

Lemma string_app_inj_r (t : string) : ∀ s1 s2, s1 +:+ t = s2 +:+ t → s1 = s2.
Proof.
  induction s1 as [|a s1 IH]; intros [|b s2] Heq.
  - done.
  - apply (f_equal String.length) in Heq.
    rewrite !string_length_app in Heq. simpl in Heq. lia.
  - apply (f_equal String.length) in Heq.
    rewrite !string_length_app in Heq. simpl in Heq. lia.
  - change (String a (s1 +:+ t) = String b (s2 +:+ t)) in Heq.
    injection Heq as -> Heq. f_equal. by apply IH.
Qed.

Lemma kernel_logfile_name_inj prefix kernel :
  Inj (=) (=) (kernel_logfile_name prefix kernel).
Proof.
  intros n1 n2 Heq. unfold kernel_logfile_name in Heq.
  do 4 apply (inj (String.app _)) in Heq.
  apply string_app_inj_r in Heq. by apply (inj pretty) in Heq.
Qed.

Lemma kernel_logfile_loop_total fs prefix kernel (fuel : nat) : ∀ n k,
  n <= k → (kernel_logfile_name prefix kernel k ∉ fs) →
  (Z.to_nat (k - n) < fuel)%nat →
  is_Some (kernel_logfile_loop fs prefix kernel fuel n).
Proof.
  induction fuel as [|fuel IH]; intros n k Hle Hfree Hfuel; [lia|].
  simpl. case_decide as Hin; [|done].
  destruct (decide (n = k)) as [->|]; [done|].
  apply (IH (n + 1) k); [lia|done|lia].
Qed.

Lemma kernel_logfile_free (fs : gset string) prefix kernel :
  ∃ k, 0 <= k <= Z.of_nat (size fs) ∧ kernel_logfile_name prefix kernel k ∉ fs.
Proof.
  set (names := kernel_logfile_name prefix kernel <$> seqZ 0 (Z.of_nat (size fs) + 1)).
  destruct (decide (Forall (λ x, x ∈ fs) names)) as [Hall|Hnot].
  - exfalso.
    assert (Hnd : NoDup names).
    { apply NoDup_fmap_2; [apply kernel_logfile_name_inj|apply NoDup_seqZ]. }
    assert (Hsub : (list_to_set names : gset string) ⊆ fs).
    { intros x Hx. apply elem_of_list_to_set in Hx.
      by apply (Forall_forall (λ x, x ∈ fs) names). }
    apply subseteq_size in Hsub. rewrite size_list_to_set in Hsub by done.
    subst names. rewrite length_fmap, length_seqZ in Hsub. lia.
  - apply not_Forall_Exists in Hnot; [|apply _].
    apply Exists_exists in Hnot as (x & Hx & Hfree).
    subst names. apply list_elem_of_fmap in Hx as (k & -> & Hk).
    apply elem_of_seqZ in Hk. exists k. split; [lia|done].
Qed.

(** X4: [logMetrics] always finds the name of its report.  With the output
    path set the report goes to that path, whatever the directory setting
    and whether or not the file exists.  Otherwise, whatever files there
    are, the loop over [aiwc_<kernel>_<n>.csv] ends after at most one more
    iteration than there are files, on the smallest [n] whose name cannot be
    opened for reading. *)
Theorem report_logfile_found (result_path result_dir : option string)
    (fs : gset string) (kernel : string) :
  ∃ name, report_logfile result_path result_dir fs kernel (S (size fs))
          = Some name
    ∧ match result_path with
      | Some path => name = path
      | None =>
          let prefix :=
            match result_dir with Some dir => dir +:+ "/" | None => "" end in
          ∃ n, name = kernel_logfile_name prefix kernel n
            ∧ 0 <= n <= Z.of_nat (size fs)
            ∧ (name ∉ fs)
            ∧ ∀ j, 0 <= j < n → kernel_logfile_name prefix kernel j ∈ fs
      end.
Proof.
  unfold report_logfile. destruct result_path as [path|]; [by exists path|].
  set (prefix := match result_dir with Some dir => dir +:+ "/" | None => "" end).
  destruct (kernel_logfile_free fs prefix kernel) as (k & Hk & Hfree).
  destruct (kernel_logfile_loop_total fs prefix kernel (S (size fs)) 0 k)
    as [n Hn]; [lia|done|lia|].
  rewrite Hn. eexists. split; [reflexivity|]. simpl. exists n.
  destruct (kernel_logfile_loop_found _ _ _ _ _ _ Hn) as (Hnfree & Hge & Hmin).
  split; [done|]. split; [|split; [done|]].
  - split; [lia|]. destruct (decide (n <= k)) as [|Hgt]; [lia|].
    exfalso. apply Hfree, Hmin. lia.
  - intros j Hj. apply Hmin. lia.
Qed.

End ReportFacts.
(** ** The merge of a work-group into the aggregate *)

Section MergeFacts.
Context `{Countable K}.

Lemma foldl_bump_lookup wrap (l : list (K * Z)) : ∀ (dst : gmap K Z) k,
  NoDup l.*1 →
  foldl (λ acc item, bump wrap item.1 item.2 acc) dst l !! k =
  match (list_to_map l : gmap K Z) !! k with
  | Some c => Some (wrap (default 0 (dst !! k) + c))
  | None => dst !! k
  end.
Proof.
  induction l as [|[a c] l IH]; intros dst k Hnd.
  - simpl. by rewrite lookup_empty.
  - rewrite fmap_cons in Hnd. apply NoDup_cons in Hnd as [Hnotin Hnd].
    cbn [foldl fst snd]. rewrite list_to_map_cons, IH by done.
    destruct (decide (a = k)) as [->|Hne].
    + rewrite lookup_insert_eq, (not_elem_of_list_to_map_1 _ _ Hnotin).
      by rewrite lookup_bump, decide_True.
    + rewrite lookup_insert_ne by done. rewrite lookup_bump, decide_False by done.
      done.
Qed.

Lemma merge_into_lookup_aux wrap (src dst : gmap K Z) k :
  merge_into wrap src dst !! k =
  match src !! k with
  | Some c => Some (wrap (default 0 (dst !! k) + c))
  | None => dst !! k
  end.
Proof.
  unfold merge_into. rewrite foldl_bump_lookup by apply NoDup_fst_map_to_list.
  by rewrite list_to_map_to_list.
Qed.

Lemma merge_into_comm (s1 s2 dst : gmap K Z) :
  merge_into unbounded s1 (merge_into unbounded s2 dst)
  = merge_into unbounded s2 (merge_into unbounded s1 dst).
Proof.
  apply map_eq. intros k. rewrite !merge_into_lookup_aux.
  destruct (s1 !! k), (s2 !! k), (dst !! k); unfold unbounded; simpl;
    try done; f_equal; lia.
Qed.

Lemma foldl_bump_total (l : list (K * Z)) : ∀ dst : gmap K Z,
  sum_values (foldl (λ acc item, bump unbounded item.1 item.2 acc) dst l)
  = sum_values dst + sumZ l.*2.
Proof.
  induction l as [|[a c] l IH]; intros dst.
  - simpl. lia.
  - cbn [foldl]. rewrite IH, sum_values_bump, fmap_cons, sumZ_cons. simpl. lia.
Qed.

End MergeFacts.

(** X5: merging the counting map of a work-group into the map of the
    aggregate adds the counts key by key, whatever the order in which the
    loop visits the entries: a key of the group ends with the count of the
    aggregate (0 when it was missing there) plus the count of the group,
    and every other key keeps its entry.  The keys of the merged map are
    the keys of the two maps, and for a count without wrap-around its total
    is the sum of the two totals: the merge loses and invents no count. *)
Theorem merge_into_adds_counts `{Countable K} (wrap : Z → Z)
    (src dst : gmap K Z) :
  (∀ k, merge_into wrap src dst !! k =
        match src !! k with
        | Some c => Some (wrap (default 0 (dst !! k) + c))
        | None => dst !! k
        end)
  ∧ dom (merge_into wrap src dst) = dom src ∪ dom dst
  ∧ sum_values (merge_into unbounded src dst)
    = sum_values dst + sum_values src.
Proof.
  split; [apply merge_into_lookup_aux|]. split.
  - apply set_eq. intros k.
    rewrite elem_of_union, !elem_of_dom, merge_into_lookup_aux.
    destruct (src !! k) as [c|] eqn:Hk.
    + split; [intros _; left; by eexists|intros _; by eexists].
    + split; [by right|]. intros [[c Hc]|Hd]; [discriminate|done].
  - unfold merge_into. by rewrite foldl_bump_total.
Qed.

(** *** The order of the merges *)

Lemma pattern_loop_lookup (base : gmap Z Z) (outcomes : list bool) :
  ∀ (cur i : Z) (A B : gmap Z Z),
  (∀ pat, A !! pat = match B !! pat with
                     | Some c => Some (default 0 (base !! pat) + c)
                     | None => base !! pat
                     end) →
  ∀ pat,
    (foldl (λ st (b : bool),
              let current_pattern :=
                wrap16 (Z.lor (st.1.1 ≪ 1) (if b then 1 else 0)) in
              (current_pattern, st.1.2 + 1,
               if decide (st.1.2 >= m_history - 1)
               then bump unbounded current_pattern 1 st.2 else st.2))
           (cur, i, A) outcomes).2 !! pat
    = match (foldl (λ st (b : bool),
              let current_pattern :=
                wrap16 (Z.lor (st.1.1 ≪ 1) (if b then 1 else 0)) in
              (current_pattern, st.1.2 + 1,
               if decide (st.1.2 >= m_history - 1)
               then bump unbounded current_pattern 1 st.2 else st.2))
           (cur, i, B) outcomes).2 !! pat with
      | Some c => Some (default 0 (base !! pat) + c)
      | None => base !! pat
      end.
Proof.
  induction outcomes as [|b outcomes IH]; intros cur i A B Hrel pat.
  - simpl. apply Hrel.
  - cbn [foldl]. apply IH. cbn [fst snd]. intros q.
    case_decide; [|apply Hrel].
    rewrite !lookup_bump. case_decide as Hq; [|apply Hrel].
    subst q. rewrite Hrel. unfold unbounded.
    destruct (B !! _); simpl; f_equal; lia.
Qed.

Lemma record_patterns_lookup outcomes (patterns : gmap Z Z) pat :
  record_patterns outcomes patterns !! pat =
  match record_patterns outcomes ∅ !! pat with
  | Some c => Some (default 0 (patterns !! pat) + c)
  | None => patterns !! pat
  end.
Proof.
  unfold record_patterns. apply pattern_loop_lookup.
  intros q. by rewrite lookup_empty.
Qed.

Lemma record_patterns_comm o1 o2 (patterns : gmap Z Z) :
  record_patterns o1 (record_patterns o2 patterns)
  = record_patterns o2 (record_patterns o1 patterns).
Proof.
  apply map_eq. intros pat.
  rewrite (record_patterns_lookup o1 (record_patterns o2 patterns)).
  rewrite (record_patterns_lookup o2 (record_patterns o1 patterns)).
  rewrite (record_patterns_lookup o2 patterns).
  rewrite (record_patterns_lookup o1 patterns).
  destruct (record_patterns o1 ∅ !! pat), (record_patterns o2 ∅ !! pat),
    (patterns !! pat); simpl; try done; f_equal; lia.
Qed.

Lemma foldl_merge_branch_lookup (l : list (Z * list bool)) : ∀ st site,
  NoDup l.*1 →
  (foldl merge_branch st l).1 !! site =
    match (list_to_map l : gmap Z (list bool)) !! site with
    | Some o => Some (default 0 (st.1 !! site) + Z.of_nat (length o))
    | None => st.1 !! site
    end
  ∧ (foldl merge_branch st l).2 !! site =
    match (list_to_map l : gmap Z (list bool)) !! site with
    | Some o =>
        if decide (Z.of_nat (length o) < m_history) then st.2 !! site
        else Some (record_patterns o (default ∅ (st.2 !! site)))
    | None => st.2 !! site
    end.
Proof.
  induction l as [|[a o] l IH]; intros st site Hnd.
  - simpl. by rewrite lookup_empty.
  - rewrite fmap_cons in Hnd. apply NoDup_cons in Hnd as [Hnotin Hnd].
    cbn [foldl]. rewrite list_to_map_cons.
    destruct (IH (merge_branch st (a, o)) site Hnd)
      as [Hc Hp]. rewrite Hc, Hp. clear Hc Hp IH.
    destruct (decide (a = site)) as [->|Hne].
    + rewrite lookup_insert_eq, (not_elem_of_list_to_map_1 _ _ Hnotin).
      unfold merge_branch. cbn [fst snd]. split.
      * destruct (decide (Z.of_nat (length o) < m_history)); cbn [fst];
          by rewrite lookup_bump, decide_True.
      * destruct (decide (Z.of_nat (length o) < m_history)); cbn [snd];
          [done|]. by rewrite lookup_insert_eq.
    + rewrite lookup_insert_ne by done.
      assert (Hc : (merge_branch st (a, o)).1 !! site = st.1 !! site).
      { unfold merge_branch. cbn [fst snd].
        destruct (decide (Z.of_nat (length o) < m_history)); cbn [fst];
          by rewrite lookup_bump, decide_False. }
      assert (Hp : (merge_branch st (a, o)).2 !! site = st.2 !! site).
      { unfold merge_branch. cbn [fst snd].
        destruct (decide (Z.of_nat (length o) < m_history)); cbn [snd];
          [done|]. by rewrite lookup_insert_ne. }
      by rewrite Hc, Hp.
Qed.

Lemma merge_branches_lookup branchOps st site :
  (merge_branches branchOps st).1 !! site =
    match branchOps !! site with
    | Some o => Some (default 0 (st.1 !! site) + Z.of_nat (length o))
    | None => st.1 !! site
    end
  ∧ (merge_branches branchOps st).2 !! site =
    match branchOps !! site with
    | Some o =>
        if decide (Z.of_nat (length o) < m_history) then st.2 !! site
        else Some (record_patterns o (default ∅ (st.2 !! site)))
    | None => st.2 !! site
    end.
Proof.
  unfold merge_branches.
  pose proof (foldl_merge_branch_lookup (map_to_list branchOps) st site
                (NoDup_fst_map_to_list _)) as Hl.
  by rewrite list_to_map_to_list in Hl.
Qed.

Lemma merge_branches_comm b1 b2 st :
  merge_branches b1 (merge_branches b2 st)
  = merge_branches b2 (merge_branches b1 st).
Proof.
  apply injective_projections; apply map_eq; intros site.
  - rewrite (proj1 (merge_branches_lookup b1 (merge_branches b2 st) site)).
    rewrite (proj1 (merge_branches_lookup b2 (merge_branches b1 st) site)).
    rewrite (proj1 (merge_branches_lookup b2 st site)).
    rewrite (proj1 (merge_branches_lookup b1 st site)).
    destruct (b1 !! site), (b2 !! site), (st.1 !! site); simpl; try done;
      f_equal; lia.
  - rewrite (proj2 (merge_branches_lookup b1 (merge_branches b2 st) site)).
    rewrite (proj2 (merge_branches_lookup b2 (merge_branches b1 st) site)).
    rewrite (proj2 (merge_branches_lookup b2 st site)).
    rewrite (proj2 (merge_branches_lookup b1 st site)).
    destruct (b1 !! site) as [o1|], (b2 !! site) as [o2|]; try done.
    destruct (decide (Z.of_nat (length o1) < m_history)),
      (decide (Z.of_nat (length o2) < m_history)); try done.
    simpl. f_equal. apply record_patterns_comm.
Qed.

(** The relation between two aggregates that differ by the order of the
    merges only. *)
Lemma counters_step s p p' :
  counters p = counters p' →
  counters (workGroupComplete_plugin s p)
  = counters (workGroupComplete_plugin s p').
Proof.
  unfold counters. intros Heq. cbn [workGroupComplete_plugin m_storeOps
    m_loadOps m_computeOps m_instructionWidth m_loadInstructionLabels
    m_storeInstructionLabels m_branchCounts m_branchPatterns m_threads_invoked
    m_barriers_hit m_global_memory_access m_local_memory_access
    m_constant_memory_access].
  injection Heq as -> -> -> -> -> -> -> -> -> -> -> -> ->.
  by rewrite <- !surjective_pairing.
Qed.

Lemma counters_swap s1 s2 p :
  counters (workGroupComplete_plugin s1 (workGroupComplete_plugin s2 p))
  = counters (workGroupComplete_plugin s2 (workGroupComplete_plugin s1 p)).
Proof.
  unfold counters. cbn [workGroupComplete_plugin m_storeOps
    m_loadOps m_computeOps m_instructionWidth m_loadInstructionLabels
    m_storeInstructionLabels m_branchCounts m_branchPatterns m_threads_invoked
    m_barriers_hit m_global_memory_access m_local_memory_access
    m_constant_memory_access].
  rewrite <- !surjective_pairing.
  rewrite (merge_into_comm (storeOps s1)), (merge_into_comm (loadOps s1)),
    (merge_into_comm (computeOps s1)), (merge_into_comm (instructionWidth s1)),
    (merge_into_comm (loadInstructionLabels s1)),
    (merge_into_comm (storeInstructionLabels s1)),
    (merge_branches_comm (branchOps s1)).
  repeat match goal with |- (_, _) = (_, _) => f_equal end; lia.
Qed.

Lemma merged_counters_ext groups : ∀ p p',
  counters p = counters p' →
  counters (merged p groups) = counters (merged p' groups).
Proof.
  induction groups as [|s groups IH]; intros p p' Heq; [done|].
  cbn [merged foldl]. apply IH. by apply counters_step.
Qed.

Lemma merged_sequences groups : ∀ p,
  m_instructionsToBarrier (merged p groups)
  = m_instructionsToBarrier p ++ mjoin (instructionsBetweenBarriers <$> groups)
  ∧ m_instructionsPerWorkitem (merged p groups)
  = m_instructionsPerWorkitem p ++ mjoin (instructionsPerWorkitem <$> groups)
  ∧ m_instructionsBetweenLoadOrStore (merged p groups)
  = m_instructionsBetweenLoadOrStore p
    ++ mjoin (instructionsBetweenLoadOrStore <$> groups)
  ∧ m_psl_per_group (merged p groups)
  = m_psl_per_group p
    ++ ((λ s, weighted_avg_psl (psl_per_barrier (workGroupComplete_state s)))
          <$> groups).
Proof.
  induction groups as [|s groups IH]; intros p.
  - simpl. by rewrite !app_nil_r.
  - cbn [merged foldl]. destruct (IH (workGroupComplete_plugin s p))
      as (H1 & H2 & H3 & H4). unfold merged in H1, H2, H3, H4.
    rewrite H1, H2, H3, H4.
    cbn [workGroupComplete_plugin m_instructionsToBarrier
         m_instructionsPerWorkitem m_instructionsBetweenLoadOrStore
         m_psl_per_group fmap list_fmap mjoin list_join].
    by rewrite <- !app_assoc.
Qed.

(** X6: the aggregate does not depend on the order in which the
    work-groups are merged.  For two orders of the same worker states, every
    counting map (the branch counts and the branch patterns among them) and
    every counter of the aggregate is the same, and the three sequences from
    which the minima, maxima and medians are taken hold the same values,
    arranged differently, and so do the locality vectors of the groups. *)
Theorem merge_order_independent (p : Plugin)
    (groups1 groups2 : list WorkerState) :
  groups1 ≡ₚ groups2 →
  counters (merged p groups1) = counters (merged p groups2)
  ∧ m_instructionsToBarrier (merged p groups1)
      ≡ₚ m_instructionsToBarrier (merged p groups2)
  ∧ m_instructionsPerWorkitem (merged p groups1)
      ≡ₚ m_instructionsPerWorkitem (merged p groups2)
  ∧ m_instructionsBetweenLoadOrStore (merged p groups1)
      ≡ₚ m_instructionsBetweenLoadOrStore (merged p groups2)
  ∧ m_psl_per_group (merged p groups1) ≡ₚ m_psl_per_group (merged p groups2).
Proof.
  intros Hperm. split.
  - assert (Hgen : ∀ q q', counters q = counters q' →
      counters (merged q groups1) = counters (merged q' groups2)).
    { induction Hperm as [|s l1 l2 Hp IH|s1 s2 l|l1 l2 l3 Hp1 IH1 Hp2 IH2];
        intros q q' Heq.
      - done.
      - cbn [merged foldl]. apply IH. by apply counters_step.
      - cbn [merged foldl]. apply merged_counters_ext.
        rewrite counters_swap. by do 2 apply counters_step.
      - rewrite (IH1 q q) by done. by apply IH2. }
    by apply Hgen.
  - destruct (merged_sequences groups1 p) as (-> & -> & -> & ->).
    destruct (merged_sequences groups2 p) as (-> & -> & -> & ->).
    by rewrite Hperm.
Qed.

Lemma merge_order_independent_witness :
  counters (merged (plugin constructed)
              [worker_with_branch 16; worker_with_branch 20])
  = counters (merged (plugin constructed)
                [worker_with_branch 20; worker_with_branch 16]).
Proof.
  apply (proj1 (merge_order_independent (plugin constructed)
                  [worker_with_branch 16; worker_with_branch 20]
                  [worker_with_branch 20; worker_with_branch 16]
                  (perm_swap _ _ _))).
Defined.
(** ** The rows of the report *)

Lemma skips_0_10_spec (n : Z) : n ∈ skips_0_10 ↔ 0 <= n <= 10.
Proof. unfold skips_0_10. rewrite elem_of_seqZ. lia. Qed.

Lemma count_entry_lookup_0 item lac (k : nat) :
  count_entry skips_0_10 item lac !! k
  = if decide (k <= 10)%nat
    then bump wrap32 (item.1 ≫ Z.of_nat k) item.2 <$> lac !! k
    else lac !! k.
Proof.
  unfold count_entry.
  rewrite (lookup_alter_skips (λ nskip, bump wrap32 (item.1 ≫ nskip) item.2)).
  - destruct (decide (Z.of_nat k ∈ skips_0_10)) as [Hin|Hnin].
    + apply skips_0_10_spec in Hin. rewrite decide_True by lia. done.
    + rewrite skips_0_10_spec in Hnin. rewrite decide_False by lia. done.
  - apply NoDup_seqZ.
  - intros n Hn%skips_0_10_spec. lia.
Qed.

Lemma address_counts_fold (entries : list (Z * Z)) (k : nat) :
  (k <= 10)%nat →
  foldl (λ lac m, count_entry skips_0_10 m lac) (replicate 11 ∅) entries !! k
  = Some (bucketed (Z.of_nat k) entries).
Proof.
  intros Hk. induction entries as [|item entries IH] using rev_ind.
  - cbn [foldl]. by rewrite lookup_replicate_2 by lia.
  - rewrite foldl_snoc, count_entry_lookup_0, decide_True by done.
    rewrite IH. simpl. unfold bucketed. by rewrite foldl_snoc.
Qed.

(** The eleven histograms of the reducer are the bucketed histograms of
    the store entries followed by the load entries. *)
Lemma address_counts_lookup storeOps loadOps (k : nat) :
  (k <= 10)%nat →
  address_counts storeOps loadOps !! k
  = Some (bucketed (Z.of_nat k) (map_to_list storeOps ++ map_to_list loadOps)).
Proof.
  intros Hk. unfold address_counts. rewrite <- foldl_app.
  by apply address_counts_fold.
Qed.

Lemma dom_bucketed skip (entries : list (Z * Z)) :
  dom (bucketed skip entries)
  = (list_to_set ((λ e, e.1 ≫ skip) <$> entries) : gset Z).
Proof.
  induction entries as [|item entries IH] using rev_ind.
  - unfold bucketed. simpl. apply dom_empty_L.
  - unfold bucketed. rewrite foldl_snoc. fold (bucketed skip entries).
    unfold bump. rewrite dom_insert_L, IH, fmap_app, list_to_set_app_L.
    rewrite (comm_L (∪)). f_equal. simpl. by rewrite (right_id_L ∅ (∪)).
Qed.

(** What the rows of an emitted report are computed from. *)
Lemma logMetrics_fields {logfile_is_open} p r :
  logMetrics logfile_is_open p = Emitted r →
  let lac := address_counts (m_storeOps p) (m_loadOps p) in
  let widths := map_to_list (m_instructionWidth p) in
  (min_element (m_instructionsToBarrier p) = Some (min_ITB r)
   ∧ max_element (m_instructionsToBarrier p) = Some (max_ITB r)
   ∧ median (m_instructionsToBarrier p) = Some (median_ITB r)
   ∧ min_element (m_instructionsPerWorkitem p) = Some (min_IPT r)
   ∧ max_element (m_instructionsPerWorkitem p) = Some (max_IPT r)
   ∧ median (m_instructionsPerWorkitem p) = Some (median_IPT r))
  ∧ (min_element widths.*1 = Some (min_SIMD_width r)
     ∧ max_element widths.*1 = Some (max_SIMD_width r)
     ∧ SIMD_operand_sum r
       = foldl (λ acc item, wrap32 (acc + item.2 * item.1)) 0 widths
     ∧ mean_SIMD_width r
       = (of_Z (foldl (λ acc item, wrap32 (acc + item.2 * item.1)) 0 widths)
          / of_Z (foldl (λ acc item, wrap32 (acc + item.2)) 0 widths))%D)
  ∧ (num_memory_accesses r = memory_access_count (sorted_count lac)
     ∧ total_memory_footprint r
       = Z.of_nat (size (default ∅ (lac !! 0%nat)))
     ∧ total_reads r = access_total (m_loadOps p)
     ∧ total_writes r = access_total (m_storeOps p)
     ∧ global_memory_address_entropy r
       = entropy_loop (memory_access_count (sorted_count lac)) (sorted_count lac))
  ∧ (freedom_to_reorder r
     = (foldl (λ acc v, acc + of_Z v) (Finite 0)
          (m_instructionsBetweenLoadOrStore p)
        / of_Z (Z.of_nat (length (m_instructionsBetweenLoadOrStore p))))%D
     ∧ rereads r
       = (of_Z (access_total (m_loadOps p))
          / of_Z (Z.of_nat (size (m_loadOps p))))%D
     ∧ rewrites r
       = (of_Z (access_total (m_storeOps p))
          / of_Z (Z.of_nat (size (m_storeOps p))))%D).
Proof.
  unfold logMetrics. repeat case_match; try discriminate.
  intros [= <-]. simpl. done.
Qed.

(** X7: the row [total_memory_footprint] of every emitted report is the
    number of distinct addresses that the invocation loaded from or stored
    to: the size of the union of the key sets of the two histograms,
    whatever the counts are. *)
Theorem footprint_is_union_of_addresses (p : Plugin) (r : Report)
    (logfile_is_open : bool) :
  logMetrics logfile_is_open p = Emitted r →
  total_memory_footprint r
  = Z.of_nat (size (dom (m_storeOps p) ∪ dom (m_loadOps p))).
Proof.
  intros Hr. destruct (logMetrics_fields _ _ Hr) as (_ & _ & (_ & -> & _) & _).
  rewrite address_counts_lookup by lia. simpl. rewrite <- size_dom.
  do 2 f_equal. rewrite dom_bucketed. apply set_eq. intros a.
  rewrite elem_of_list_to_set, elem_of_union, !elem_of_dom, list_elem_of_fmap.
  split.
  - intros ([a' c] & Ha & [Hin|Hin]%elem_of_app); simpl in Ha;
      rewrite Z.shiftr_0_r in Ha; subst a';
      apply elem_of_map_to_list in Hin; eauto.
  - intros [[c Hc]|[c Hc]]; exists (a, c); simpl; rewrite Z.shiftr_0_r;
      (split; [done|]); apply elem_of_app; [left|right];
      by apply elem_of_map_to_list.
Qed.

Lemma footprint_is_union_of_addresses_witness :
  ∃ sys r,
    simulate barrier_kernel_body constructed = Some sys ∧
    logMetrics true (plugin sys) = Emitted r ∧
    total_memory_footprint r
    = Z.of_nat (size (dom (m_storeOps (plugin sys))
                      ∪ dom (m_loadOps (plugin sys)))).
Proof.
  eexists. eexists. split; [vm_compute; reflexivity|].
  split; [vm_compute; reflexivity|].
  apply (footprint_is_union_of_addresses _ _ true). vm_compute. reflexivity.
Defined.

(** *** The access totals *)

Lemma foldl_wrap32_sum {A} (f : A → Z) (l : list A) :
  (∀ x, x ∈ l → 0 <= f x) → sumZ (f <$> l) < 2 ^ 32 →
  foldl (λ acc x, wrap32 (acc + f x)) 0 l = sumZ (f <$> l)
  ∧ 0 <= sumZ (f <$> l).
Proof.
  induction l as [|x l IH] using rev_ind; intros Hnn Hsum.
  - simpl. lia.
  - assert (Hnn' : ∀ y, y ∈ l → 0 <= f y)
      by (intros y Hy; apply Hnn, elem_of_app; by left).
    assert (0 <= f x)
      by (apply Hnn, elem_of_app; right; by apply list_elem_of_singleton).
    rewrite fmap_app, sumZ_app in *.
    change (sumZ (f <$> [x])) with (f x + 0) in *. rewrite Z.add_0_r in *.
    rewrite foldl_snoc.
    assert (Hnn0 : 0 <= sumZ (f <$> l)).
    { clear -Hnn'. induction l as [|y l IH]; [simpl; lia|].
      rewrite fmap_cons, sumZ_cons.
      assert (0 <= f y) by (apply Hnn'; by left).
      assert (0 <= sumZ (f <$> l)) by (apply IH; intros; apply Hnn'; by right).
      lia. }
    destruct (IH Hnn' ltac:(lia)) as [-> _]. split; [|lia].
    apply wrap32_small. lia.
Qed.

Lemma map_entries_nonneg (m : gmap Z Z) :
  map_Forall (λ _ c, 0 <= c) m → ∀ e, e ∈ map_to_list m → 0 <= e.2.
Proof. intros Hm [a c] Hin%elem_of_map_to_list. by apply (Hm a c). Qed.

Lemma access_total_no_overflow (ops : gmap Z Z) :
  map_Forall (λ _ c, 0 <= c) ops → sum_values ops < 2 ^ 64 →
  access_total ops = sum_values ops.
Proof.
  intros Hnn Hsum. apply (total_of_no_overflow 0); [|done].
  by apply map_entries_nonneg.
Qed.

(** The histogram of skip 0 of the reducer, bucket by bucket. *)
Lemma address_counts_buckets storeOps loadOps (k : nat) :
  (k <= 10)%nat →
  map_Forall (λ _ c, 0 <= c) storeOps → map_Forall (λ _ c, 0 <= c) loadOps →
  sum_values storeOps + sum_values loadOps < 2 ^ 32 →
  let entries := map_to_list storeOps ++ map_to_list loadOps in
  ∃ m, address_counts storeOps loadOps !! k = Some m
    ∧ (∀ b c, m !! b = Some c ↔
         b ∈ (list_to_set ((λ e, e.1 ≫ Z.of_nat k) <$> entries) : gset Z)
         ∧ c = count_in (Z.of_nat k) entries b)
    ∧ sum_values m = sum_values storeOps + sum_values loadOps.
Proof.
  intros Hk Hs Hl Hsum entries.
  assert (Hnn : ∀ e, e ∈ entries → 0 <= e.2).
  { intros e [He|He]%elem_of_app;
      [by apply (map_entries_nonneg storeOps)
      |by apply (map_entries_nonneg loadOps)]. }
  assert (Htot : sumZ entries.*2 = sum_values storeOps + sum_values loadOps).
  { unfold entries. by rewrite fmap_app, sumZ_app. }
  exists (bucketed (Z.of_nat k) entries).
  split; [by apply address_counts_lookup|].
  assert (Hm : ∀ b c, bucketed (Z.of_nat k) entries !! b = Some c ↔
         b ∈ (list_to_set ((λ e, e.1 ≫ Z.of_nat k) <$> entries) : gset Z)
         ∧ c = count_in (Z.of_nat k) entries b).
  { intros b c. rewrite bucketed_lookup by (done || lia).
    rewrite elem_of_list_to_set. case_decide as Hin.
    - split; [intros [= <-]; done|intros [_ ->]; done].
    - split; [done|intros [? _]; done]. }
  split; [exact Hm|].
  unfold sum_values at 1.
  rewrite (sumZ_Permutation _
    ((λ b, (b, count_in (Z.of_nat k) entries b))
       <$> elements (list_to_set ((λ e, e.1 ≫ Z.of_nat k) <$> entries)
                     : gset Z)).*2).
  - rewrite <- list_fmap_compose.
    rewrite (list_fmap_ext _ (count_in (Z.of_nat k) entries)) by done.
    rewrite count_in_partition; [done|apply NoDup_elements|].
    intros e He. apply elem_of_elements, elem_of_list_to_set.
    by apply (list_elem_of_fmap_2 (λ e : Z * Z, e.1 ≫ Z.of_nat k)).
  - apply fmap_Permutation. by apply map_to_list_by_buckets.
Qed.

Lemma sorted_count_Permutation lac :
  sorted_count lac ≡ₚ map_to_list (default ∅ (lac !! 0%nat)).
Proof. unfold sorted_count. apply merge_sort_Permutation. Qed.

Lemma memory_access_count_no_overflow storeOps loadOps :
  map_Forall (λ _ c, 0 <= c) storeOps → map_Forall (λ _ c, 0 <= c) loadOps →
  sum_values storeOps + sum_values loadOps < 2 ^ 32 →
  memory_access_count (sorted_count (address_counts storeOps loadOps))
  = sum_values storeOps + sum_values loadOps.
Proof.
  intros Hs Hl Hsum.
  destruct (address_counts_buckets storeOps loadOps 0 ltac:(lia) Hs Hl Hsum)
    as (m & Hm & Hchar & Htot).
  pose proof (sorted_count_Permutation (address_counts storeOps loadOps)) as Hp.
  rewrite Hm in Hp. simpl in Hp.
  assert (Hsum' : sumZ (sorted_count (address_counts storeOps loadOps)).*2
                  = sum_values storeOps + sum_values loadOps).
  { rewrite <- Htot. unfold sum_values. apply sumZ_Permutation.
    by apply fmap_Permutation. }
  rewrite <- Hsum'. apply (total_of_no_overflow 0); [|lia].
  intros e He. rewrite Hp in He. destruct e as [b c].
  apply elem_of_map_to_list, Hchar in He as [_ ->]. simpl.
  apply (count_in_bounds 0).
  intros e [He|He]%elem_of_app;
    [by apply (map_entries_nonneg storeOps)
    |by apply (map_entries_nonneg loadOps)].
Qed.

(** X8: when the counts of the two address histograms are not negative
    and add up to less than 2^32, the rows of an emitted report agree with
    each other: [total_reads] is the sum of the load counts, [total_writes]
    the sum of the store counts, and [num_memory_accesses], which is summed
    over the merged histogram, is their sum. *)
Theorem accesses_are_reads_plus_writes (p : Plugin) (r : Report)
    (logfile_is_open : bool) :
  logMetrics logfile_is_open p = Emitted r →
  map_Forall (λ _ c, 0 <= c) (m_storeOps p) →
  map_Forall (λ _ c, 0 <= c) (m_loadOps p) →
  sum_values (m_storeOps p) + sum_values (m_loadOps p) < 2 ^ 32 →
  total_reads r = sum_values (m_loadOps p)
  ∧ total_writes r = sum_values (m_storeOps p)
  ∧ num_memory_accesses r = total_reads r + total_writes r.
Proof.
  intros Hr Hs Hl Hsum.
  destruct (logMetrics_fields _ _ Hr) as (_ & _ & (-> & _ & -> & -> & _) & _).
  pose proof (sum_values_nonneg _ Hs). pose proof (sum_values_nonneg _ Hl).
  rewrite !access_total_no_overflow by (done || lia).
  rewrite memory_access_count_no_overflow by done. lia.
Qed.

Lemma accesses_are_reads_plus_writes_witness :
  ∃ sys r,
    simulate barrier_kernel_body constructed = Some sys ∧
    logMetrics true (plugin sys) = Emitted r ∧
    (total_reads r = sum_values (m_loadOps (plugin sys))
     ∧ total_writes r = sum_values (m_storeOps (plugin sys))
     ∧ num_memory_accesses r = total_reads r + total_writes r).
Proof.
  eexists. eexists. split; [vm_compute; reflexivity|].
  split; [vm_compute; reflexivity|].
  apply (accesses_are_reads_plus_writes _ _ true).
  - vm_compute. reflexivity.
  - apply (bool_decide_unpack _). vm_compute. exact I.
  - apply (bool_decide_unpack _). vm_compute. exact I.
  - vm_compute. reflexivity.
Defined.

(** *** The address entropies of the report *)

Lemma entropy_term_range (c denominator : Z) :
  1 <= c <= denominator →
  let p := (IZR c / IZR denominator)%R in
  (0 <= - (p * log2 p) <= p * log2 (IZR denominator))%R.
Proof.
  intros Hc p.
  assert (Hd : (0 < IZR denominator)%R) by (apply IZR_lt; lia).
  assert (Hc1 : (1 <= IZR c)%R) by (apply IZR_le; lia).
  assert (Hcd : (IZR c <= IZR denominator)%R) by (apply IZR_le; lia).
  assert (Hinv : (0 < / IZR denominator)%R) by (by apply Rinv_0_lt_compat).
  assert (Hp0 : (0 < p)%R) by (unfold p, Rdiv; apply Rmult_lt_0_compat; lra).
  assert (Hp1 : (p <= 1)%R).
  { unfold p. apply (Rmult_le_reg_r (IZR denominator)); [done|].
    unfold Rdiv. rewrite Rmult_assoc, Rinv_l by lra. lra. }
  assert (Hplow : (/ IZR denominator <= p)%R).
  { unfold p, Rdiv. rewrite <- (Rmult_1_l (/ IZR denominator)) at 1.
    apply Rmult_le_compat_r; lra. }
  assert (Hl1 : (log2 p <= 0)%R) by (rewrite <- log2_1; by apply log2_le).
  assert (Hl2 : (- log2 (IZR denominator) <= log2 p)%R)
    by (rewrite <- log2_inv by done; by apply log2_le).
  split; nra.
Qed.

Lemma entropy_sum_range_of_total (cs : list Z) (denominator : Z) :
  (∀ c, c ∈ cs → 1 <= c) → sumZ cs <= denominator → 0 < denominator →
  (0 <= - sumR ((λ c, IZR c / IZR denominator
                      * log2 (IZR c / IZR denominator)) <$> cs)
     <= IZR (sumZ cs) / IZR denominator * log2 (IZR denominator))%R.
Proof.
  induction cs as [|c cs IH]; intros Hcs Hsum Hd.
  - simpl. lra.
  - assert (1 <= c) by (apply Hcs; by left).
    assert (Hrest : ∀ c', c' ∈ cs → 1 <= c') by (intros; apply Hcs; by right).
    pose proof (sumZ_nonneg cs Hrest). rewrite sumZ_cons in Hsum.
    specialize (IH Hrest ltac:(lia) Hd).
    pose proof (entropy_term_range c denominator ltac:(lia)) as Ht.
    cbn zeta in Ht.
    rewrite fmap_cons, sumR_cons, sumZ_cons, (plus_IZR c (sumZ cs)).
    replace ((IZR c + IZR (sumZ cs)) / IZR denominator)%R
      with (IZR c / IZR denominator + IZR (sumZ cs) / IZR denominator)%R
      by (unfold Rdiv; lra).
    rewrite Rmult_plus_distr_r. lra.
Qed.

(** The entropy pass of the reducer over the histogram of one skip. *)
Lemma reducer_entropy_range storeOps loadOps (k : nat) :
  (k <= 10)%nat →
  map_Forall (λ _ c, 0 < c) storeOps → map_Forall (λ _ c, 0 < c) loadOps →
  sum_values storeOps + sum_values loadOps < 2 ^ 32 →
  0 < sum_values storeOps + sum_values loadOps →
  ∃ m v, address_counts storeOps loadOps !! k = Some m
    ∧ (∀ e, e ∈ map_to_list m → 0 < e.2)
    ∧ local_entropy (sum_values storeOps + sum_values loadOps) m = Finite v
    ∧ (0 <= v <= log2 (IZR (sum_values storeOps + sum_values loadOps)))%R.
Proof.
  intros Hk Hs Hl Hsum Hpos.
  assert (Hs' : map_Forall (λ _ c, 0 <= c) storeOps)
    by (intros a c Hac; specialize (Hs a c Hac); simpl in Hs; lia).
  assert (Hl' : map_Forall (λ _ c, 0 <= c) loadOps)
    by (intros a c Hac; specialize (Hl a c Hac); simpl in Hl; lia).
  destruct (address_counts_buckets storeOps loadOps k Hk Hs' Hl' Hsum)
    as (m & Hm & Hchar & Htot).
  set (entries := map_to_list storeOps ++ map_to_list loadOps) in *.
  set (D := sum_values storeOps + sum_values loadOps) in *.
  assert (Hepos : ∀ e, e ∈ entries → 0 < e.2).
  { intros [a c] [He|He]%elem_of_app; apply elem_of_map_to_list in He; simpl;
      [by apply (Hs a c)|by apply (Hl a c)]. }
  assert (Hf : ∀ b, b ∈ (list_to_set ((λ e, e.1 ≫ Z.of_nat k) <$> entries)
                         : gset Z) → 0 < count_in (Z.of_nat k) entries b).
  { intros b Hb%elem_of_list_to_set.
    pose proof (count_in_present (Z.of_nat k) entries b Hepos Hb). lia. }
  exists m. eexists. split; [exact Hm|]. split.
  { intros [b c] Hin. apply elem_of_map_to_list, Hchar in Hin as [Hb ->].
    simpl. by apply Hf. }
  split; [by apply (local_entropy_by_buckets m _ _ D Hchar)|].
  rewrite (list_fmap_compose (count_in (Z.of_nat k) entries)
             (λ c, IZR c / IZR D * log2 (IZR c / IZR D))%R).
  assert (Hcs : ∀ c, c ∈ count_in (Z.of_nat k) entries
                       <$> elements (list_to_set
                             ((λ e, e.1 ≫ Z.of_nat k) <$> entries) : gset Z)
                → 1 <= c).
  { intros c (b & -> & Hb%elem_of_elements)%list_elem_of_fmap.
    specialize (Hf b Hb). lia. }
  assert (Hpart : sumZ (count_in (Z.of_nat k) entries
                          <$> elements (list_to_set
                                ((λ e, e.1 ≫ Z.of_nat k) <$> entries) : gset Z))
                  = D).
  { rewrite count_in_partition; [|apply NoDup_elements|].
    - unfold entries, D. by rewrite fmap_app, sumZ_app.
    - intros e He. apply elem_of_elements, elem_of_list_to_set.
      by apply (list_elem_of_fmap_2 (λ e : Z * Z, e.1 ≫ Z.of_nat k)). }
  destruct (entropy_sum_range_of_total _ D Hcs ltac:(lia) Hpos) as [Hlo Hhi].
  split; [exact Hlo|]. rewrite Hpart in Hhi.
  assert (HD : (0 < IZR D)%R) by (by apply IZR_lt).
  replace (IZR D / IZR D)%R with 1%R in Hhi by (field; lra). lra.
Qed.

Lemma entropy_loop_Permutation denominator l1 l2 :
  l1 ≡ₚ l2 → (∀ e, e ∈ l2 → 0 < e.2) → 0 < denominator →
  entropy_loop denominator l1 = entropy_loop denominator l2.
Proof.
  intros Hp Hpos Hd. rewrite !entropy_loop_sum; try done.
  - do 2 f_equal. apply sumR_Permutation. by apply fmap_Permutation.
  - intros e He. apply Hpos. by rewrite <- Hp.
Qed.

(** X9: when the counts of the two address histograms are positive and
    add up to less than 2^32, with at least one access, the global memory
    address entropy and the ten local memory address entropies of an
    emitted report are finite and not negative: none of them is NaN or an
    infinity, unlike the ratios of a report without accesses.  The row
    [LMAE] has one entry for each skip 1..10, in this order. *)
Theorem address_entropies_not_negative (p : Plugin) (r : Report)
    (logfile_is_open : bool) :
  logMetrics logfile_is_open p = Emitted r →
  map_Forall (λ _ c, 0 < c) (m_storeOps p) →
  map_Forall (λ _ c, 0 < c) (m_loadOps p) →
  sum_values (m_storeOps p) + sum_values (m_loadOps p) < 2 ^ 32 →
  0 < sum_values (m_storeOps p) + sum_values (m_loadOps p) →
  (∃ v, global_memory_address_entropy r = Finite v ∧ (0 <= v)%R)
  ∧ (LMAE r).*1 = seqZ 1 10
  ∧ ∀ nskip d, (nskip, d) ∈ LMAE r → ∃ v, d = Finite v ∧ (0 <= v)%R.
Proof.
  intros Hr Hs Hl Hsum Hpos.
  assert (Hs' : map_Forall (λ _ c, 0 <= c) (m_storeOps p))
    by (intros a c Hac; specialize (Hs a c Hac); simpl in Hs; lia).
  assert (Hl' : map_Forall (λ _ c, 0 <= c) (m_loadOps p))
    by (intros a c Hac; specialize (Hl a c Hac); simpl in Hl; lia).
  destruct (logMetrics_fields _ _ Hr) as (_ & _ & (Hacc & _ & _ & _ & Hent) & _).
  destruct (logMetrics_rows _ _ Hr) as (_ & _ & _ & Hlmae).
  cbn zeta in Hacc, Hent.
  rewrite memory_access_count_no_overflow in Hacc, Hent, Hlmae by done.
  split; [|split].
  - destruct (reducer_entropy_range _ _ 0 ltac:(lia) Hs Hl Hsum Hpos)
      as (m & v & Hm & Hmpos & Hv & Hrange).
    exists v. split; [|exact (proj1 Hrange)].
    rewrite Hent, <- Hv. unfold local_entropy.
    apply entropy_loop_Permutation; [|done|done].
    pose proof (sorted_count_Permutation
                  (address_counts (m_storeOps p) (m_loadOps p))) as Hp.
    by rewrite Hm in Hp.
  - rewrite Hlmae, <- list_fmap_compose. apply list_fmap_id.
  - intros nskip d Hin. rewrite Hlmae in Hin.
    apply list_elem_of_fmap in Hin as (k & [= -> ->] & Hk%skips_1_10_spec).
    destruct (reducer_entropy_range _ _ (Z.to_nat k) ltac:(lia) Hs Hl Hsum Hpos)
      as (m & v & Hm & _ & Hv & Hrange).
    exists v. split; [|exact (proj1 Hrange)]. by rewrite Hm.
Qed.

Lemma address_entropies_not_negative_witness :
  ∃ sys r,
    simulate barrier_kernel_body constructed = Some sys ∧
    logMetrics true (plugin sys) = Emitted r ∧
    ∃ v, global_memory_address_entropy r = Finite v ∧ (0 <= v)%R.
Proof.
  eexists. eexists. split; [vm_compute; reflexivity|].
  match goal with |- logMetrics _ ?p = _ ∧ _ =>
    split; [vm_compute; reflexivity|];
    eapply proj1; apply (address_entropies_not_negative p _ true)
  end.
  - vm_compute. reflexivity.
  - apply (bool_decide_unpack _). vm_compute. exact I.
  - apply (bool_decide_unpack _). vm_compute. exact I.
  - vm_compute. reflexivity.
  - vm_compute. reflexivity.
Defined.

(** *** Minimum, median and maximum *)

Lemma foldl_min_spec (l : list Z) : ∀ x,
  (foldl Z.min x l = x ∨ foldl Z.min x l ∈ l)
  ∧ foldl Z.min x l <= x ∧ ∀ y, y ∈ l → foldl Z.min x l <= y.
Proof.
  induction l as [|a l IH]; intros x; simpl.
  - split; [by left|]. split; [lia|]. by intros y Hy%elem_of_nil.
  - destruct (IH (Z.min x a)) as (Hin & Hle & Hall).
    split; [|split; [lia|]].
    + destruct Hin as [Heq|Hin]; [|right; by right].
      rewrite Heq. destruct (Z.min_spec x a) as [[_ ->]|[_ ->]];
        [by left|right; by left].
    + intros y [->|Hy]%elem_of_cons; [lia|by apply Hall].
Qed.

Lemma foldl_max_spec (l : list Z) : ∀ x,
  (foldl Z.max x l = x ∨ foldl Z.max x l ∈ l)
  ∧ x <= foldl Z.max x l ∧ ∀ y, y ∈ l → y <= foldl Z.max x l.
Proof.
  induction l as [|a l IH]; intros x; simpl.
  - split; [by left|]. split; [lia|]. by intros y Hy%elem_of_nil.
  - destruct (IH (Z.max x a)) as (Hin & Hle & Hall).
    split; [|split; [lia|]].
    + destruct Hin as [Heq|Hin]; [|right; by right].
      rewrite Heq. destruct (Z.max_spec x a) as [[_ ->]|[_ ->]];
        [right; by left|by left].
    + intros y [->|Hy]%elem_of_cons; [lia|by apply Hall].
Qed.

Lemma min_element_spec v lo :
  min_element v = Some lo → lo ∈ v ∧ ∀ y, y ∈ v → lo <= y.
Proof.
  destruct v as [|x l]; [done|]. simpl. intros [= <-].
  destruct (foldl_min_spec l x) as (Hin & Hle & Hall). split.
  - destruct Hin as [->|Hin]; [by left|by right].
  - intros y [->|Hy]%elem_of_cons; [done|by apply Hall].
Qed.

Lemma max_element_spec v hi :
  max_element v = Some hi → hi ∈ v ∧ ∀ y, y ∈ v → y <= hi.
Proof.
  destruct v as [|x l]; [done|]. simpl. intros [= <-].
  destruct (foldl_max_spec l x) as (Hin & Hle & Hall). split.
  - destruct Hin as [->|Hin]; [by left|by right].
  - intros y [->|Hy]%elem_of_cons; [done|by apply Hall].
Qed.

Lemma median_between v lo md hi :
  (∀ y, y ∈ v → 0 <= y < 2 ^ 31) →
  min_element v = Some lo → median v = Some md → max_element v = Some hi →
  lo <= md <= hi.
Proof.
  intros Hrange [_ Hlo]%min_element_spec Hmd [_ Hhi]%max_element_spec.
  assert (Hsorted : ∀ (i : nat) y, merge_sort Z.le v !! i = Some y → y ∈ v).
  { intros i y Hy%list_elem_of_lookup_2. by rewrite merge_sort_Permutation in Hy. }
  unfold median in Hmd. case_decide.
  - destruct (merge_sort Z.le v !! _) as [a|] eqn:Ha; [|done].
    destruct (merge_sort Z.le v !! Z.to_nat _) as [b|] eqn:Hb in Hmd; [|done].
    injection Hmd as <-. apply Hsorted in Ha, Hb.
    pose proof (Hrange a Ha). pose proof (Hrange b Hb).
    pose proof (Hlo a Ha). pose proof (Hlo b Hb).
    pose proof (Hhi a Ha). pose proof (Hhi b Hb).
    rewrite wrap32_small by lia. split.
    + apply Z.div_le_lower_bound; lia.
    + apply Z.div_le_upper_bound; lia.
  - apply Hsorted in Hmd. split; [by apply Hlo|by apply Hhi].
Qed.

(** X10: in every emitted report the minimum of the instructions to
    barrier is the smallest and the maximum the largest value of the
    sequence, and the same holds for the instructions per work-item; when
    all values of a sequence are below 2^31, its median lies between its
    minimum and its maximum.  (The median of an even number of values is
    half the sum of the two middle ones, and that sum is a [uint32_t].) *)
Theorem min_median_max_ordered (p : Plugin) (r : Report)
    (logfile_is_open : bool) :
  logMetrics logfile_is_open p = Emitted r →
  (min_ITB r ∈ m_instructionsToBarrier p
   ∧ max_ITB r ∈ m_instructionsToBarrier p
   ∧ (∀ y, y ∈ m_instructionsToBarrier p → min_ITB r <= y <= max_ITB r)
   ∧ ((∀ y, y ∈ m_instructionsToBarrier p → 0 <= y < 2 ^ 31) →
      min_ITB r <= median_ITB r <= max_ITB r))
  ∧ (min_IPT r ∈ m_instructionsPerWorkitem p
     ∧ max_IPT r ∈ m_instructionsPerWorkitem p
     ∧ (∀ y, y ∈ m_instructionsPerWorkitem p → min_IPT r <= y <= max_IPT r)
     ∧ ((∀ y, y ∈ m_instructionsPerWorkitem p → 0 <= y < 2 ^ 31) →
        min_IPT r <= median_IPT r <= max_IPT r)).
Proof.
  intros Hr.
  destruct (logMetrics_fields _ _ Hr)
    as ((H1 & H2 & H3 & H4 & H5 & H6) & _).
  split.
  - destruct (min_element_spec _ _ H1) as [? Hlo].
    destruct (max_element_spec _ _ H2) as [? Hhi].
    split; [done|]. split; [done|]. split.
    + intros y Hy. split; [by apply Hlo|by apply Hhi].
    + intros Hrange. by apply (median_between (m_instructionsToBarrier p)).
  - destruct (min_element_spec _ _ H4) as [? Hlo].
    destruct (max_element_spec _ _ H5) as [? Hhi].
    split; [done|]. split; [done|]. split.
    + intros y Hy. split; [by apply Hlo|by apply Hhi].
    + intros Hrange. by apply (median_between (m_instructionsPerWorkitem p)).
Qed.

Lemma min_median_max_ordered_witness :
  ∃ sys r,
    simulate barrier_kernel_body constructed = Some sys ∧
    logMetrics true (plugin sys) = Emitted r ∧
    min_ITB r ∈ m_instructionsToBarrier (plugin sys).
Proof.
  eexists. eexists. split; [vm_compute; reflexivity|].
  match goal with |- logMetrics _ ?p = _ ∧ _ =>
    split; [vm_compute; reflexivity|];
    eapply proj1; eapply proj1; apply (min_median_max_ordered p _ true)
  end.
  vm_compute. reflexivity.
Defined.

(** *** The widths of the operands *)

Lemma weighted_sum_bounds (l : list (Z * Z)) (lo hi : Z) :
  (∀ it, it ∈ l → lo <= it.1 <= hi ∧ 0 <= it.2) →
  lo * sumZ ((λ it, it.2) <$> l) <= sumZ ((λ it, it.2 * it.1) <$> l)
  ∧ sumZ ((λ it, it.2 * it.1) <$> l) <= hi * sumZ ((λ it, it.2) <$> l).
Proof.
  induction l as [|it l IH]; intros Hall.
  - simpl. lia.
  - rewrite !fmap_cons, !sumZ_cons.
    destruct (Hall it ltac:(left)) as [Hk Hc].
    destruct IH as [IH1 IH2]; [intros; apply Hall; by right|]. nia.
Qed.

(** X11: when the keys and the counts of the width histogram are not
    negative and neither the number of executed instructions nor the sum of
    their widths reaches 2^32, the mean width of an emitted report is the
    sum of the widths divided by the number of instructions, and it lies
    between the minimum and the maximum width. *)
Theorem mean_width_between_min_and_max (p : Plugin) (r : Report)
    (logfile_is_open : bool) :
  logMetrics logfile_is_open p = Emitted r →
  map_Forall (λ width c, 0 <= width ∧ 0 <= c) (m_instructionWidth p) →
  0 < sum_values (m_instructionWidth p) < 2 ^ 32 →
  sumZ ((λ it, it.2 * it.1) <$> map_to_list (m_instructionWidth p)) < 2 ^ 32 →
  SIMD_operand_sum r
  = sumZ ((λ it, it.2 * it.1) <$> map_to_list (m_instructionWidth p))
  ∧ ∃ mean, mean_SIMD_width r = Finite mean
      ∧ mean = (IZR (SIMD_operand_sum r)
                / IZR (sum_values (m_instructionWidth p)))%R
      ∧ (IZR (min_SIMD_width r) <= mean <= IZR (max_SIMD_width r))%R.
Proof.
  intros Hr Hnn Hnum Hsum.
  destruct (logMetrics_fields _ _ Hr) as (_ & (Hmin & Hmax & Hs & Hmean) & _).
  cbn zeta in Hmin, Hmax, Hs, Hmean.
  set (widths := map_to_list (m_instructionWidth p)) in *.
  assert (Hent : ∀ it, it ∈ widths → 0 <= it.1 ∧ 0 <= it.2).
  { intros [k c] Hin%elem_of_map_to_list. by apply (Hnn k c). }
  destruct (foldl_wrap32_sum (λ it : Z * Z, it.2 * it.1) widths) as [Hs1 _];
    [intros it Hit; destruct (Hent it Hit); nia|done|].
  destruct (foldl_wrap32_sum snd widths) as [Hs2 _];
    [intros it Hit; by destruct (Hent it Hit)|
     unfold sum_values in Hnum; fold widths in Hnum; lia|].
  rewrite Hs1 in Hs, Hmean. rewrite Hs2 in Hmean.
  change (sumZ widths.*2) with (sum_values (m_instructionWidth p)) in Hmean.
  split; [exact Hs|].
  assert (HN : (0 < IZR (sum_values (m_instructionWidth p)))%R)
    by (apply IZR_lt; lia).
  unfold of_Z in Hmean. rewrite ddiv_finite in Hmean by done.
  eexists. split; [exact Hmean|]. rewrite Hs. split; [done|].
  destruct (min_element_spec _ _ Hmin) as [_ Hlo].
  destruct (max_element_spec _ _ Hmax) as [_ Hhi].
  destruct (weighted_sum_bounds widths (min_SIMD_width r) (max_SIMD_width r))
    as [Hb1 Hb2].
  { intros it Hit. split; [|by destruct (Hent it Hit)].
    assert (it.1 ∈ widths.*1) by (by apply list_elem_of_fmap_2).
    split; [by apply Hlo|by apply Hhi]. }
  change (sumZ ((λ it : Z * Z, it.2) <$> widths))
    with (sum_values (m_instructionWidth p)) in Hb1, Hb2.
  apply IZR_le in Hb1, Hb2. rewrite mult_IZR in Hb1, Hb2.
  assert (Hinv : (0 < / IZR (sum_values (m_instructionWidth p)))%R)
    by (by apply Rinv_0_lt_compat).
  assert (Hone : (IZR (sum_values (m_instructionWidth p))
                  * / IZR (sum_values (m_instructionWidth p)) = 1)%R)
    by (apply Rinv_r; lra).
  apply (Rmult_le_compat_r _ _ _ (Rlt_le _ _ Hinv)) in Hb1, Hb2.
  rewrite Rmult_assoc, Hone, Rmult_1_r in Hb1, Hb2.
  unfold Rdiv. by split.
Qed.

Lemma mean_width_between_min_and_max_witness :
  ∃ sys r,
    simulate barrier_kernel_body constructed = Some sys ∧
    logMetrics true (plugin sys) = Emitted r ∧
    SIMD_operand_sum r
    = sumZ ((λ it, it.2 * it.1)
              <$> map_to_list (m_instructionWidth (plugin sys))).
Proof.
  eexists. eexists. split; [vm_compute; reflexivity|].
  match goal with |- logMetrics _ ?p = _ ∧ _ =>
    split; [vm_compute; reflexivity|];
    eapply proj1; apply (mean_width_between_min_and_max p _ true)
  end.
  - vm_compute. reflexivity.
  - apply (bool_decide_unpack _). vm_compute. exact I.
  - vm_compute. split; reflexivity.
  - vm_compute. reflexivity.
Defined.

(** *** A kernel without memory accesses *)

Lemma ddiv_zero_zero : (of_Z 0 / of_Z 0)%D = NaN.
Proof. unfold of_Z, ddiv. by rewrite Rsign_zero. Qed.

(** X12: the reducer divides without looking at the divisor.  In an
    emitted report [freedom_to_reorder] is NaN (0 / 0) when the invocation
    executed no load and no store instruction; and when it accessed no
    address outside private memory, the totals and the footprint are 0,
    [rereads], [rewrites] and [unique_read_write_ratio] are NaN, and the
    global and the ten local address entropies are 0. *)
Theorem report_without_memory_accesses (p : Plugin) (r : Report)
    (logfile_is_open : bool) :
  logMetrics logfile_is_open p = Emitted r →
  (m_instructionsBetweenLoadOrStore p = [] → freedom_to_reorder r = NaN)
  ∧ (m_storeOps p = ∅ → m_loadOps p = ∅ →
     num_memory_accesses r = 0 ∧ total_memory_footprint r = 0
     ∧ total_reads r = 0 ∧ total_writes r = 0
     ∧ unique_reads r = 0 ∧ unique_writes r = 0
     ∧ rereads r = NaN ∧ rewrites r = NaN ∧ unique_read_write_ratio r = NaN
     ∧ global_memory_address_entropy r = Finite 0
     ∧ LMAE r = (λ nskip, (nskip, Finite 0)) <$> skips_1_10).
Proof.
  intros Hr.
  destruct (logMetrics_fields _ _ Hr)
    as (_ & _ & (Hacc & Hfoot & Hreads & Hwrites & Hent) & Hfree & Hrr & Hrw).
  destruct (logMetrics_rows _ _ Hr) as (Hur & Huw & Hratio & Hlmae).
  cbn zeta in *. split.
  - intros Hnil. rewrite Hfree, Hnil. simpl. apply ddiv_zero_zero.
  - intros Hs Hl. rewrite Hs, Hl in *.
    assert (Hlac : address_counts ∅ ∅ = replicate 11 ∅).
    { unfold address_counts. by rewrite map_to_list_empty. }
    rewrite Hlac in *.
    assert (Hsorted : sorted_count (replicate 11 (∅ : gmap Z Z)) = []).
    { unfold sorted_count. simpl. by rewrite map_to_list_empty. }
    rewrite Hsorted in *.
    assert (Htot : access_total ∅ = 0).
    { unfold access_total. by rewrite map_to_list_empty. }
    rewrite Htot in *. rewrite map_size_empty in *.
    change (Z.of_nat 0) with 0 in *. rewrite ddiv_zero_zero in *.
    split; [done|]. split; [by rewrite Hfoot|].
    do 7 (split; [done|]). split; [done|].
    rewrite Hlmae. apply list_fmap_ext. intros i k Hk%list_elem_of_lookup_2.
    apply skips_1_10_spec in Hk. f_equal.
    rewrite lookup_replicate_2 by lia. simpl.
    unfold local_entropy. by rewrite map_to_list_empty.
Qed.

Lemma report_without_memory_accesses_witness :
  ∃ sys r,
    simulate (branch_kernel_body 16) constructed = Some sys ∧
    logMetrics true (plugin sys) = Emitted r ∧
    m_instructionsBetweenLoadOrStore (plugin sys) = [] ∧
    freedom_to_reorder r = NaN.
Proof.
  eexists. eexists. split; [vm_compute; reflexivity|].
  match goal with |- logMetrics _ ?p = _ ∧ _ =>
    split; [vm_compute; reflexivity|];
    split; [vm_compute; reflexivity|];
    apply (proj1 (report_without_memory_accesses p _ true
                    ltac:(vm_compute; reflexivity)))
  end.
  vm_compute. reflexivity.
Defined.

(** ** Parallel spatial locality *)

Lemma entropy_length histogram : length (entropy histogram) = 11%nat.
Proof.
  unfold entropy. case_decide; [by rewrite length_replicate|].
  rewrite length_fmap. unfold entropy_counts.
  by destruct (entropy_counts_fold histogram (map_to_list histogram)) as [-> _].
Qed.

Lemma parallelSpatialLocality_length hist :
  length (parallelSpatialLocality hist) = 11%nat.
Proof. unfold parallelSpatialLocality. by rewrite length_fmap, length_seq. Qed.

Lemma weighted_avg_psl_length per_barrier :
  length (weighted_avg_psl per_barrier) = 11%nat.
Proof. unfold weighted_avg_psl. by rewrite length_fmap, length_seq. Qed.

Lemma logMetrics_psl {logfile_is_open} p r :
  logMetrics logfile_is_open p = Emitted r → avg_psl p = Some (normed_PSL r).
Proof.
  unfold logMetrics. repeat case_match; try discriminate.
  intros [= <-]. simpl. done.
Qed.

Lemma avg_psl_length p psl first rest :
  m_psl_per_group p = first :: rest → avg_psl p = Some psl →
  length psl = length first.
Proof.
  unfold avg_psl. intros ->. intros [= <-].
  by rewrite length_fmap, length_seq.
Qed.

Lemma callback_step_psl_lengths sys cb sys' :
  callback_step sys cb = Some sys' →
  (∀ v, v ∈ m_psl_per_group (plugin sys) → length v = 11%nat) →
  (∀ r, r ∈ emitted sys → length (normed_PSL r) = 11%nat) →
  (∀ v, v ∈ m_psl_per_group (plugin sys') → length v = 11%nat)
  ∧ (∀ r, r ∈ emitted sys' → length (normed_PSL r) = 11%nat).
Proof.
  intros Hstep Hg He. destruct sys as [p s e]. simpl in Hg, He.
  destruct cb; simpl in Hstep; unfold on_worker in Hstep; simpl in Hstep;
    try (injection Hstep as <-; by split).
  - unfold kernelBegin in Hstep.
    destruct (Transfer.kernelBegin _ _) as [tr|]; [|done].
    injection Hstep as <-. simpl. split; [|done]. by intros v Hv%elem_of_nil.
  - unfold kernelEnd in Hstep.
    destruct (logMetrics _ p) as [r| |] eqn:Hr; try done.
    + injection Hstep as <-. simpl. split; [done|].
      intros r' [Hr'|Hr'%list_elem_of_singleton]%elem_of_app; [by apply He|].
      subst r'. apply logMetrics_psl in Hr.
      destruct (m_psl_per_group p) as [|first rest] eqn:Hpsl.
      * unfold avg_psl in Hr. by rewrite Hpsl in Hr.
      * rewrite (avg_psl_length p _ first rest Hpsl Hr). apply Hg. by left.
    + injection Hstep as <-. simpl. rewrite app_nil_r. by split.
  - injection Hstep as <-. simpl. split; [|done].
    intros v [Hv|Hv%list_elem_of_singleton]%elem_of_app; [by apply Hg|].
    subst v. apply weighted_avg_psl_length.
  - destruct (instructionExecuted _ _ _); [|done]. injection Hstep as <-.
    by split.
  - destruct (memoryLoad _ _ _ _ _); [|done]. injection Hstep as <-. by split.
  - destruct (memoryStore _ _ _ _ _); [|done]. injection Hstep as <-. by split.
Qed.

(** X13: every locality vector has eleven entries, one per skip 0..10:
    what [entropy], [parallelSpatialLocality] and the weighted average of a
    work-group return, and therefore, whatever callbacks the plugin has
    received since its construction, every vector of [m_psl_per_group] and
    the row [normed_PSL] of every report written so far. *)
Theorem locality_vectors_have_eleven_entries (cbs : list callback)
    (sys : System) :
  simulate cbs constructed = Some sys →
  (∀ v, v ∈ m_psl_per_group (plugin sys) → length v = 11%nat)
  ∧ (∀ r, r ∈ emitted sys → length (normed_PSL r) = 11%nat)
  ∧ (∀ rec, rec ∈ psl_per_barrier (worker sys) → length rec.1 = 11%nat).
Proof.
  intros Hsim.
  assert (Hgen : ∀ cbs sys0 sys1, simulate cbs sys0 = Some sys1 →
    (∀ v, v ∈ m_psl_per_group (plugin sys0) → length v = 11%nat) →
    (∀ r, r ∈ emitted sys0 → length (normed_PSL r) = 11%nat) →
    (∀ rec, rec ∈ psl_per_barrier (worker sys0) → length rec.1 = 11%nat) →
    (∀ v, v ∈ m_psl_per_group (plugin sys1) → length v = 11%nat)
    ∧ (∀ r, r ∈ emitted sys1 → length (normed_PSL r) = 11%nat)
    ∧ (∀ rec, rec ∈ psl_per_barrier (worker sys1) → length rec.1 = 11%nat)).
  { clear. induction cbs as [|cb cbs IH]; intros sys0 sys1 Hsim Hg He Hb.
    - injection Hsim as <-. done.
    - simpl in Hsim. destruct (callback_step sys0 cb) as [sys'|] eqn:Hstep;
        [|done].
      destruct (callback_step_psl_lengths _ _ _ Hstep Hg He) as [Hg' He'].
      apply (IH sys' sys1 Hsim Hg' He'). clear IH Hsim Hg' He'.
      destruct sys0 as [p s e]. simpl in Hb.
      destruct cb; simpl in Hstep; unfold on_worker in Hstep; simpl in Hstep;
        try (injection Hstep as <-; exact Hb).
      + destruct (kernelBegin _ _); [|done]. injection Hstep as <-. exact Hb.
      + destruct (kernelEnd _ _) as [[? ?]|]; [|done]. injection Hstep as <-.
        exact Hb.
      + injection Hstep as <-. simpl. intros rec Hrec.
        destruct (allocated s); [by apply Hb|by apply elem_of_nil in Hrec].
      + injection Hstep as <-. simpl.
        intros rec [Hrec|Hrec%list_elem_of_singleton]%elem_of_app;
          [by apply Hb|]. subst rec. apply parallelSpatialLocality_length.
      + injection Hstep as <-. simpl.
        intros rec [Hrec|Hrec%list_elem_of_singleton]%elem_of_app;
          [by apply Hb|]. subst rec. apply parallelSpatialLocality_length.
      + unfold instructionExecuted in Hstep.
        destruct (if previous_instruction_is_branch s then _ else _); [|done].
        injection Hstep as <-. exact Hb.
      + unfold memoryLoad, threadMemoryLedger in Hstep.
        destruct space; try (injection Hstep as <-; exact Hb);
          destruct (ledger_push _ _ _); try done; injection Hstep as <-;
          exact Hb.
      + unfold memoryStore, threadMemoryLedger in Hstep.
        destruct space; try (injection Hstep as <-; exact Hb);
          destruct (ledger_push _ _ _); try done; injection Hstep as <-;
          exact Hb. }
  apply (Hgen cbs constructed sys Hsim); simpl; by intros ? ?%elem_of_nil.
Qed.

Lemma locality_vectors_have_eleven_entries_witness :
  ∃ sys, simulate barrier_kernel constructed = Some sys
    ∧ ∀ r, r ∈ emitted sys → length (normed_PSL r) = 11%nat.
Proof.
  eexists. split; [vm_compute; reflexivity|].
  eapply proj1, proj2.
  apply (locality_vectors_have_eleven_entries barrier_kernel).
  vm_compute. reflexivity.
Defined.

(** *** An empty ledger *)

Lemma max_row_length_spec (hist : list (list ledgerElement)) : ∀ start,
  0 <= start →
  let m := foldl (λ maxLength row,
                    if decide (Z.of_nat (length row) > maxLength)
                    then Z.of_nat (length row) else maxLength) start hist in
  start <= m
  ∧ (∀ row, row ∈ hist → Z.of_nat (length row) <= m)
  ∧ (m = start ∨ ∃ row, row ∈ hist ∧ m = Z.of_nat (length row)).
Proof.
  induction hist as [|row hist IH]; intros start Hstart; cbn zeta.
  - simpl. split; [lia|]. split; [by intros ? ?%elem_of_nil|by left].
  - cbn [foldl]. case_decide as Hgt.
    + destruct (IH (Z.of_nat (length row)) ltac:(lia)) as (Hle & Hall & Hex).
      cbn zeta in Hle, Hall, Hex. split; [lia|]. split.
      * intros r [->|Hr]%elem_of_cons; [done|by apply Hall].
      * right. destruct Hex as [->|(r & Hr & ->)]; [exists row|exists r];
          split; try done; [by left|by right].
    + destruct (IH start Hstart) as (Hle & Hall & Hex).
      cbn zeta in Hle, Hall, Hex. split; [done|]. split.
      * intros r [->|Hr]%elem_of_cons; [lia|by apply Hall].
      * destruct Hex as [->|(r & Hr & ->)]; [by left|].
        right. exists r. split; [by right|done].
Qed.

Lemma max_row_length_empty (hist : list (list ledgerElement)) :
  (∀ row, row ∈ hist → row = []) → max_row_length hist = 0.
Proof.
  intros Hall. unfold max_row_length.
  destruct (max_row_length_spec hist 0 ltac:(lia)) as (_ & _ & [Heq|Hex]);
    [done|]. cbn zeta in Hex. destruct Hex as (row & Hrow & ->).
  by rewrite (Hall row Hrow).
Qed.

Lemma parallelSpatialLocality_empty (hist : list (list ledgerElement)) :
  (∀ row, row ∈ hist → row = []) →
  parallelSpatialLocality hist = replicate 11 (Finite 0).
Proof.
  intros Hall. unfold parallelSpatialLocality.
  rewrite (max_row_length_empty hist Hall).
  change (Z.to_nat 0) with 0%nat. cbn [seq fmap list_fmap foldl length].
  assert (Hz : (Finite 0 * Finite 1 / (of_Z (Z.of_nat 0) + Finite 1))%D
               = Finite 0).
  { unfold of_Z. change (Z.of_nat 0) with 0. cbn [dmul dadd].
    rewrite ddiv_finite by lra.
    f_equal. field. }
  rewrite !Hz. reflexivity.
Qed.

Lemma barrier_on_empty_ledger (s : WorkerState) :
  (∀ row, row ∈ ledger s → row = []) →
  psl_per_barrier (workGroupBarrier s)
  = psl_per_barrier s ++ [(replicate 11 (Finite 0), 0)]
  ∧ psl_per_barrier (workGroupComplete_state s)
    = psl_per_barrier s ++ [(replicate 11 (Finite 0), 0)].
Proof.
  intros Hall. cbn [workGroupBarrier workGroupComplete_state psl_per_barrier].
  by rewrite parallelSpatialLocality_empty, max_row_length_empty.
Qed.

Lemma instructionExecuted_ledger instruction num s s' :
  instructionExecuted instruction num s = Some s' → ledger s' = ledger s.
Proof.
  unfold instructionExecuted. intros Hi.
  repeat case_match; simplify_eq; done.
Qed.

(** A callback that does not append to the ledger leaves an empty ledger
    empty. *)
Lemma callback_step_ledger_empty sys cb sys' :
  callback_step sys cb = Some sys' → appends_to_ledger cb = false →
  (∀ row, row ∈ ledger (worker sys) → row = []) →
  ∀ row, row ∈ ledger (worker sys') → row = [].
Proof.
  intros Hstep Hcb Hempty. destruct sys as [p s e]. simpl in Hempty.
  assert (Hcleared : ∀ (l : list (list ledgerElement)) row,
            row ∈ (λ _, [] : list ledgerElement) <$> l → row = []).
  { intros l row (? & -> & _)%list_elem_of_fmap. done. }
  destruct cb; simpl in Hstep; unfold on_worker in Hstep; simpl in Hstep;
    try (injection Hstep as <-; exact Hempty);
    try (injection Hstep as <-; apply Hcleared).
  - destruct (kernelBegin _ _); [|done]. injection Hstep as <-. exact Hempty.
  - destruct (kernelEnd _ _) as [[? ?]|]; [|done]. injection Hstep as <-.
    exact Hempty.
  - destruct (instructionExecuted _ _ _) as [s'|] eqn:Hi; [|done].
    injection Hstep as <-. simpl.
    by rewrite (instructionExecuted_ledger _ _ _ _ Hi).
  - destruct space; try discriminate. injection Hstep as <-. exact Hempty.
  - destruct space; try discriminate. injection Hstep as <-. exact Hempty.
Qed.

Lemma simulate_ledger_empty cbs : ∀ sys sys',
  simulate cbs sys = Some sys' →
  Forall (λ cb, appends_to_ledger cb = false) cbs →
  (∀ row, row ∈ ledger (worker sys) → row = []) →
  ∀ row, row ∈ ledger (worker sys') → row = [].
Proof.
  induction cbs as [|cb cbs IH]; intros sys sys' Hsim Hall Hempty.
  - by injection Hsim as <-.
  - simpl in Hsim. destruct (callback_step sys cb) as [sys1|] eqn:Hstep;
      [|done].
    apply Forall_cons in Hall as [Hcb Hall].
    apply (IH sys1 sys' Hsim Hall).
    by apply (callback_step_ledger_empty _ _ _ Hstep Hcb).
Qed.

(** The begin of a work-group, a barrier and the end of a work-group leave
    every row of the ledger empty. *)
Lemma callback_step_empties_ledger sys cb sys' :
  callback_step sys cb = Some sys' → empties_ledger cb = true →
  ∀ row, row ∈ ledger (worker sys') → row = [].
Proof.
  intros Hstep Hcb.
  destruct cb; try discriminate; simpl in Hstep; unfold on_worker in Hstep;
    simpl in Hstep; injection Hstep as <-; simpl;
    intros row (? & -> & _)%list_elem_of_fmap; done.
Qed.

(** X14: the locality of an empty ledger is the zero vector with the
    weight 0.  The begin of a work-group, a barrier and the end of a
    work-group leave every row of the ledger empty, and no callback but a
    load or a store outside private memory appends to it: a barrier, or
    the end of the work-group, that follows one of the three without such
    an access in between appends the record (eleven zeros, 0) to
    [psl_per_barrier]. *)
Theorem barrier_after_barrier_records_zero (sys : System)
    (first last : callback) (between : list callback) (sys1 : System) :
  (∀ hist : list (list ledgerElement),
     (∀ row, row ∈ hist → row = []) →
     parallelSpatialLocality hist = replicate 11 (Finite 0)
     ∧ max_row_length hist = 0)
  ∧ (empties_ledger first = true →
     Forall (λ cb, appends_to_ledger cb = false) between →
     records_locality last = true →
     simulate (first :: between) sys = Some sys1 →
     ∃ sys2,
       callback_step sys1 last = Some sys2
       ∧ psl_per_barrier (worker sys2)
         = psl_per_barrier (worker sys1) ++ [(replicate 11 (Finite 0), 0)]).
Proof.
  split.
  - intros hist Hall. split;
      [by apply parallelSpatialLocality_empty|by apply max_row_length_empty].
  - intros Hfirst Hbetween Hlast Hsim.
    cbn [simulate] in Hsim.
    destruct (callback_step sys first) as [sys0|] eqn:Hstep; [|done].
    pose proof (callback_step_empties_ledger _ _ _ Hstep Hfirst) as Hempty0.
    pose proof (simulate_ledger_empty _ _ _ Hsim Hbetween Hempty0) as Hempty.
    destruct (barrier_on_empty_ledger (worker sys1) Hempty) as [Hbar Hend].
    destruct last; try discriminate; cbn [callback_step]; unfold on_worker;
      eexists; (split; [reflexivity|]); cbn [worker]; done.
Qed.

Lemma barrier_after_barrier_records_zero_witness :
  ∃ sys1 sys2,
    simulate [CbWorkGroupBegin; CbWorkItemBegin;
              CbInstructionExecuted ret_inst 1; CbWorkItemComplete]
      first_kernel_begun = Some sys1
    ∧ callback_step sys1 CbWorkGroupComplete = Some sys2
    ∧ psl_per_barrier (worker sys2)
      = psl_per_barrier (worker sys1) ++ [(replicate 11 (Finite 0), 0)].
Proof.
  eexists.
  refine ((λ Hsim, match (proj2 (barrier_after_barrier_records_zero
                      first_kernel_begun CbWorkGroupBegin CbWorkGroupComplete
                      [CbWorkItemBegin; CbInstructionExecuted ret_inst 1;
                       CbWorkItemComplete] _)) eq_refl _ eq_refl Hsim
                   with
                   | ex_intro _ sys2 Hlast =>
                       ex_intro _ sys2 (conj Hsim Hlast)
                   end) _).
  - repeat constructor.
  - vm_compute. reflexivity.
Defined.

(** *** The range of the locality *)

Lemma entropy_entry_range (histogram : gmap Z Z) (i : nat) (d : double) :
  map_Forall (λ _ c, 0 < c) histogram →
  hist_total histogram < 2 ^ 32 →
  entropy histogram !! i = Some d →
  ∃ v, d = Finite v ∧ (0 <= v <= log2 (IZR (hist_total histogram + 1)))%R.
Proof.
  intros Hpos Hsmall Hd.
  assert (Hi : (i <= 10)%nat).
  { apply lookup_lt_Some in Hd. rewrite entropy_length in Hd. lia. }
  assert (Htot : 0 <= hist_total histogram).
  { apply sum_values_nonneg. intros a c Hac. specialize (Hpos a c Hac).
    simpl in Hpos. lia. }
  destruct (small_total_buckets histogram Hpos Hsmall) as [Hbuckets Htotal].
  exists (entropy_spec histogram (Z.of_nat i)).
  split; [|by apply entropy_spec_range].
  unfold entropy in Hd.
  rewrite (entropy_counts_total histogram Hpos Htotal) in Hd.
  unfold entropy_spec. case_decide as Hzero.
  - apply lookup_replicate in Hd as [-> _]. done.
  - rewrite wrap64_small in Hd by lia. rewrite list_lookup_fmap in Hd.
    destruct (entropy_counts_bucket histogram Hpos Hbuckets i Hi)
      as (m & Hm & Hchar).
    rewrite Hm in Hd. injection Hd as <-.
    apply (local_entropy_by_buckets m _ _ _ Hchar); [|lia].
    intros b Hb. unfold buckets in Hb. apply elem_of_list_to_set in Hb.
    pose proof (count_in_present (Z.of_nat i) (map_to_list histogram) b
                  (entries_positive histogram Hpos) Hb) as Hc.
    unfold bucket_total. unfold count_in in Hc. lia.
Qed.

Lemma locality_sum_range (es : list (list double)) (i : nat) (L : R) :
  (0 <= L)%R →
  (∀ e, e ∈ es → ∃ v, e !! i = Some (Finite v) ∧ (0 <= v <= L)%R) →
  ∀ a, ∃ total,
    foldl (λ acc e, acc + default (Finite 0) (e !! i))%D (Finite a) es
    = Finite (a + total)
    ∧ (0 <= total <= IZR (Z.of_nat (length es)) * L)%R.
Proof.
  intros HL. induction es as [|e es IH]; intros Hall a.
  - exists 0%R. cbn [foldl length]. change (Z.of_nat 0) with 0.
    split; [f_equal; lra|lra].
  - destruct (Hall e ltac:(left)) as (v & Hv & Hrange).
    cbn [foldl]. rewrite Hv.
    change (Finite a + default (Finite 0) (Some (Finite v)))%D
      with (Finite (a + v)).
    destruct (IH ltac:(intros; apply Hall; by right) (a + v)%R)
      as (total & -> & Ht).
    exists (v + total)%R. split; [f_equal; lra|].
    cbn [length]. rewrite Nat2Z.inj_succ, succ_IZR. nra.
Qed.

Lemma parallelSpatialLocality_entries (hist : list (list ledgerElement))
    (d : double) :
  Z.of_nat (length hist) < 2 ^ 32 →
  d ∈ parallelSpatialLocality hist →
  ∃ v, d = Finite v
       ∧ (0 <= v <= log2 (IZR (Z.of_nat (length hist) + 1)))%R.
Proof.
  intros Hlen Hd. unfold parallelSpatialLocality in Hd.
  apply list_elem_of_fmap in Hd as (i & -> & Hi%elem_of_seq).
  set (L := log2 (IZR (Z.of_nat (length hist) + 1))).
  assert (HL : (0 <= L)%R).
  { unfold L. rewrite <- log2_1. apply log2_le; [lra|]. apply IZR_le. lia. }
  set (es := (λ t, entropy (timestep_histogram hist t))
               <$> seq 0 (Z.to_nat (max_row_length hist))).
  destruct (locality_sum_range es i L HL) with (a := 0%R)
    as (total & Hsum & Htotal).
  { intros e (t & -> & _)%list_elem_of_fmap.
    destruct (timestep_histogram_fold t hist ∅ 0) as [Hpos Hle].
    - apply map_Forall_empty.
    - pose proof (sum_values_empty (K:=Z)). lia.
    - lia.
    - cbn zeta in Hpos, Hle. fold (timestep_histogram hist t) in Hpos, Hle.
      destruct (lookup_lt_is_Some_2 (entropy (timestep_histogram hist t)) i)
        as [d Hd]; [rewrite entropy_length; lia|].
      destruct (entropy_entry_range _ i d Hpos ltac:(unfold hist_total; lia) Hd)
        as (v & -> & Hv).
      exists v. split; [done|]. split; [lra|].
      eapply Rle_trans; [apply Hv|]. unfold L. apply log2_le.
      + apply IZR_lt.
        assert (0 <= hist_total (timestep_histogram hist t)); [|lia].
        apply sum_values_nonneg. intros a c Hac. specialize (Hpos a c Hac).
        simpl in Hpos. lia.
      + apply IZR_le. unfold hist_total. lia. }
  rewrite Hsum. unfold of_Z. cbn [dmul dadd].
  set (T := IZR (Z.of_nat (length es))) in *.
  assert (HT : (0 <= T)%R) by (unfold T; apply IZR_le; lia).
  rewrite ddiv_finite by lra. eexists. split; [reflexivity|].
  assert (Hinv : (0 < / (T + 1))%R) by (apply Rinv_0_lt_compat; lra).
  assert (Hone : ((T + 1) * / (T + 1) = 1)%R) by (apply Rinv_r; lra).
  unfold Rdiv. rewrite Rplus_0_l, Rmult_1_r. split.
  - apply Rmult_le_pos; lra.
  - apply (Rmult_le_reg_r (T + 1)); [lra|].
    rewrite Rmult_assoc, (Rmult_comm (/ (T + 1))), Hone. nra.
Qed.

(** X15: for a ledger with fewer than 2^32 rows,
    [parallelSpatialLocality] returns eleven values, each of them finite
    and between 0 and log2 (rows + 1): an entry is the sum of the entropies
    of the timesteps, each of them at most log2 (rows + 1), divided by the
    number of timesteps plus one. *)
Theorem parallel_spatial_locality_range (hist : list (list ledgerElement)) :
  Z.of_nat (length hist) < 2 ^ 32 →
  length (parallelSpatialLocality hist) = 11%nat
  ∧ ∀ d, d ∈ parallelSpatialLocality hist →
      ∃ v, d = Finite v
           ∧ (0 <= v <= log2 (IZR (Z.of_nat (length hist) + 1)))%R.
Proof.
  intros Hlen. split; [apply parallelSpatialLocality_length|].
  intros d Hd. by apply parallelSpatialLocality_entries.
Qed.

Lemma parallel_spatial_locality_range_witness :
  length (parallelSpatialLocality [[mkLedgerElement 4096 0]; []]) = 11%nat.
Proof.
  apply (parallel_spatial_locality_range [[mkLedgerElement 4096 0]; []]).
  vm_compute. reflexivity.
Defined.

(** *** The records of a thread *)

Lemma callback_step_locality_records sys cb sys' :
  callback_step sys cb = Some sys' → allocated (worker sys) = true →
  allocated (worker sys') = true
  ∧ ∃ added, psl_per_barrier (worker sys')
             = psl_per_barrier (worker sys) ++ added
      ∧ length added = if records_locality cb then 1%nat else 0%nat.
Proof.
  intros Hstep Halloc. destruct sys as [p s e]. simpl in Halloc.
  destruct cb; simpl in Hstep; unfold on_worker in Hstep; simpl in Hstep;
    try (injection Hstep as <-; simpl; split; [done|]; exists [];
         by rewrite app_nil_r);
    try (injection Hstep as <-; simpl; split; [done|]; by eexists [_]).
  - destruct (kernelBegin _ _); [|done]. injection Hstep as <-.
    simpl. split; [done|]. exists []. by rewrite app_nil_r.
  - destruct (kernelEnd _ _) as [[? ?]|]; [|done]. injection Hstep as <-.
    simpl. split; [done|]. exists []. by rewrite app_nil_r.
  - injection Hstep as <-. simpl. rewrite Halloc. split; [done|].
    exists []. by rewrite app_nil_r.
  - unfold instructionExecuted in Hstep.
    destruct (if previous_instruction_is_branch s then _ else _); [|done].
    injection Hstep as <-. simpl. split; [done|]. exists [].
    by rewrite app_nil_r.
  - unfold memoryLoad, threadMemoryLedger in Hstep.
    destruct space;
      try (destruct (ledger_push _ _ _); [|done]);
      injection Hstep as <-; simpl; (split; [done|]); exists [];
      by rewrite app_nil_r.
  - unfold memoryStore, threadMemoryLedger in Hstep.
    destruct space;
      try (destruct (ledger_push _ _ _); [|done]);
      injection Hstep as <-; simpl; (split; [done|]); exists [];
      by rewrite app_nil_r.
Qed.

(** X16: a thread never clears [psl_per_barrier].  Once the thread has
    allocated its state, every callback keeps the records that are there,
    every barrier of a work-group and every end of a work-group appends one
    record, and the begin of the next work-group or of the next kernel
    removes none: the weighted average that [workGroupComplete] takes over
    [psl_per_barrier] covers all barriers of all work-groups the thread has
    run so far. *)
Theorem locality_records_never_cleared (cbs : list callback)
    (sys sys' : System) :
  simulate cbs sys = Some sys' → allocated (worker sys) = true →
  ∃ added,
    psl_per_barrier (worker sys') = psl_per_barrier (worker sys) ++ added
    ∧ length added = length (filter (λ cb, records_locality cb = true) cbs).
Proof.
  revert sys. induction cbs as [|cb cbs IH]; intros sys Hsim Halloc.
  - injection Hsim as <-. exists []. by rewrite app_nil_r.
  - simpl in Hsim. destruct (callback_step sys cb) as [sys1|] eqn:Hstep;
      [|done].
    destruct (callback_step_locality_records _ _ _ Hstep Halloc)
      as (Halloc1 & added1 & Heq1 & Hlen1).
    destruct (IH sys1 Hsim Halloc1) as (added & Heq & Hlen).
    exists (added1 ++ added). rewrite Heq, Heq1, <- app_assoc.
    split; [done|]. rewrite length_app, Hlen, Hlen1.
    destruct (records_locality cb) eqn:Hcb.
    + by rewrite filter_cons_True.
    + by rewrite filter_cons_False by congruence.
Qed.

Lemma locality_records_never_cleared_witness :
  ∃ sys' added,
    simulate [CbWorkGroupBegin; CbWorkGroupComplete;
              CbKernelBegin (kernel_1d "k" 1);
              CbWorkGroupBegin; CbWorkGroupComplete] allocated_thread
    = Some sys'
    ∧ psl_per_barrier (worker sys')
      = psl_per_barrier (worker allocated_thread) ++ added
    ∧ length added = 2%nat.
Proof.
  destruct (simulate [CbWorkGroupBegin; CbWorkGroupComplete;
              CbKernelBegin (kernel_1d "k" 1);
              CbWorkGroupBegin; CbWorkGroupComplete] allocated_thread)
    as [sys'|] eqn:Hsim; [|vm_compute in Hsim; discriminate].
  destruct (locality_records_never_cleared _ _ _ Hsim eq_refl)
    as (added & Heq & Hlen).
  exists sys', added. done.
Defined.

(** *** The rows of the ledger *)

Lemma ledger_row_value (m_local_num localID : Size3.t) :
  in_group m_local_num localID →
  Size3.x m_local_num * Size3.y m_local_num * Size3.z m_local_num < 2 ^ 64 →
  ledger_row m_local_num localID
  = Size3.x localID * (Size3.y m_local_num * Size3.z m_local_num)
    + (Size3.y localID * Size3.z m_local_num + Size3.z localID)
  ∧ 0 <= Size3.y localID * Size3.z m_local_num + Size3.z localID
      < Size3.y m_local_num * Size3.z m_local_num
  ∧ 0 <= ledger_row m_local_num localID < items_of m_local_num.
Proof.
  destruct m_local_num as [X Y Z0], localID as [x y z].
  unfold in_group, ledger_row, items_of. simpl. intros (Hx & Hy & Hz) Hsmall.
  assert (Hin : 0 <= y * Z0 + z < Y * Z0) by nia.
  assert (Hrow : 0 <= x * (Y * Z0) + (y * Z0 + z) < X * Y * Z0) by nia.
  assert (0 <= X * Y * Z0) by nia.
  rewrite (wrap64_small (X * Y * Z0)) by lia.
  replace (x * Y * Z0 + y * Z0 + z) with (x * (Y * Z0) + (y * Z0 + z)) by lia.
  rewrite wrap64_small by lia. done.
Qed.

(** X17: in a work-group whose number of work-items fits [size_t], the
    row of the ledger that [threadMemoryLedger] computes from a local ID
    lies inside the ledger of a thread allocated for that group size, and
    two different local IDs get two different rows; a load or a store by a
    work-item of the group therefore never leaves the ledger. *)
Theorem ledger_rows_of_work_items (m_local_num id1 id2 : Size3.t)
    (s : WorkerState) (space : AddrSpace) (a : Z) :
  Size3.x m_local_num * Size3.y m_local_num * Size3.z m_local_num < 2 ^ 64 →
  in_group m_local_num id1 → in_group m_local_num id2 →
  0 <= ledger_row m_local_num id1 < items_of m_local_num
  ∧ (ledger_row m_local_num id1 = ledger_row m_local_num id2 → id1 = id2)
  ∧ (length (ledger s) = Z.to_nat (items_of m_local_num) →
     is_Some (memoryLoad m_local_num space id1 a s)
     ∧ is_Some (memoryStore m_local_num space id1 a s)).
Proof.
  intros Hsmall H1 H2.
  destruct (ledger_row_value _ _ H1 Hsmall) as (Hv1 & Hin1 & Hr1).
  destruct (ledger_row_value _ _ H2 Hsmall) as (Hv2 & Hin2 & Hr2).
  split; [done|]. split.
  - rewrite Hv1, Hv2. intros Heq.
    destruct m_local_num as [X Y Z0], id1 as [x1 y1 z1], id2 as [x2 y2 z2].
    unfold in_group in H1, H2. simpl in *.
    rewrite !(Z.mul_comm _ (Y * Z0)) in Heq.
    apply Z.div_mod_unique in Heq as [-> Heq]; [|lia|lia].
    rewrite !(Z.mul_comm _ Z0) in Heq.
    apply Z.div_mod_unique in Heq as [-> ->]; [done|lia|lia].
  - intros Hlen.
    assert (Hpush : ∀ le l, length l = length (ledger s) →
              is_Some (ledger_push (ledger_row m_local_num id1) le l)).
    { intros le l Hl. unfold ledger_push. rewrite decide_True; [eauto|].
      rewrite Hl, Hlen. lia. }
    unfold memoryLoad, memoryStore, threadMemoryLedger.
    destruct space; (split; [try by eauto|try by eauto]);
      cbn [ledger set_loadOps set_storeOps];
      match goal with |- is_Some (match ledger_push ?r ?le ?l with _ => _ end) =>
        destruct (Hpush le l eq_refl) as [l' ->]; eauto
      end.
Qed.

Lemma ledger_rows_of_work_items_witness :
  0 <= ledger_row (Size3.mk 2 3 1) (Size3.mk 1 2 0) < items_of (Size3.mk 2 3 1).
Proof.
  apply (ledger_rows_of_work_items (Size3.mk 2 3 1) (Size3.mk 1 2 0)
           (Size3.mk 0 0 0) m_state_initial AddrSpaceGlobal 0).
  - vm_compute. reflexivity.
  - unfold in_group. simpl. lia.
  - unfold in_group. simpl. lia.
Defined.

(** *** The instructions of a work-group *)

Section CountingMapBounds.
Context `{Countable K}.

Lemma sum_values_nonneg_any (m : gmap K Z) :
  map_Forall (λ _ c, 0 <= c) m → 0 <= sum_values m.
Proof.
  induction m as [|a c m Hfresh IH] using map_ind; intros Hall.
  - pose proof (sum_values_empty (K:=K)). lia.
  - rewrite sum_values_insert_fresh by done.
    apply map_Forall_insert in Hall as [Hc Hall]; [|done].
    specialize (IH Hall). simpl in Hc. lia.
Qed.

Lemma bump_wrap64_total (m : gmap K Z) (k : K) :
  map_Forall (λ _ c, 0 <= c) m → sum_values m + 1 < 2 ^ 64 →
  map_Forall (λ _ c, 0 <= c) (bump wrap64 k 1 m)
  ∧ sum_values (bump wrap64 k 1 m) = sum_values m + 1.
Proof.
  intros Hnn Hsum.
  assert (Hold : 0 <= default 0 (m !! k) <= sum_values m).
  { destruct (m !! k) as [c|] eqn:Hk; simpl.
    - split; [by apply (Hnn k c)|].
      rewrite <- (insert_delete_id m k c) by done.
      rewrite sum_values_insert_fresh by apply lookup_delete_eq.
      pose proof (sum_values_nonneg_any (delete k m)
                    (map_Forall_delete _ _ _ Hnn)). lia.
    - split; [lia|by apply sum_values_nonneg_any]. }
  unfold bump. rewrite wrap64_small by lia. split.
  - apply map_Forall_insert_2; [lia|done].
  - rewrite sum_values_insert. lia.
Qed.

End CountingMapBounds.

Lemma callback_step_instruction_maps sys cb sys' :
  callback_step sys cb = Some sys' → is_group_begin cb = false →
  match cb with
  | CbInstructionExecuted instruction num =>
      computeOps (worker sys')
      = bump wrap64 (getOpcode instruction) 1 (computeOps (worker sys))
      ∧ instructionWidth (worker sys')
        = bump wrap64 (wrap16 num) 1 (instructionWidth (worker sys))
  | _ =>
      computeOps (worker sys') = computeOps (worker sys)
      ∧ instructionWidth (worker sys') = instructionWidth (worker sys)
  end.
Proof.
  intros Hstep Hcb. destruct sys as [p s e].
  destruct cb; try discriminate; simpl in Hstep; unfold on_worker in Hstep;
    simpl in Hstep; try (injection Hstep as <-; done).
  - destruct (kernelBegin _ _); [|done]. by injection Hstep as <-.
  - destruct (kernelEnd _ _) as [[? ?]|]; [|done]. by injection Hstep as <-.
  - unfold instructionExecuted in Hstep.
    destruct (if previous_instruction_is_branch s then _ else _); [|done].
    by injection Hstep as <-.
  - unfold memoryLoad, threadMemoryLedger in Hstep.
    destruct space; try (destruct (ledger_push _ _ _); [|done]);
      by injection Hstep as <-.
  - unfold memoryStore, threadMemoryLedger in Hstep.
    destruct space; try (destruct (ledger_push _ _ _); [|done]);
      by injection Hstep as <-.
Qed.

Lemma simulate_instruction_totals (cbs : list callback) : ∀ sys sys' n,
  simulate cbs sys = Some sys' →
  Forall (λ cb, is_group_begin cb = false) cbs →
  map_Forall (λ _ c, 0 <= c) (computeOps (worker sys)) →
  map_Forall (λ _ c, 0 <= c) (instructionWidth (worker sys)) →
  sum_values (computeOps (worker sys)) = n →
  sum_values (instructionWidth (worker sys)) = n →
  n + Z.of_nat (length (filter (λ cb, is_instruction cb = true) cbs)) < 2 ^ 64 →
  sum_values (computeOps (worker sys'))
  = n + Z.of_nat (length (filter (λ cb, is_instruction cb = true) cbs))
  ∧ sum_values (instructionWidth (worker sys'))
    = n + Z.of_nat (length (filter (λ cb, is_instruction cb = true) cbs)).
Proof.
  induction cbs as [|cb cbs IH]; intros sys sys' n Hsim Hnb Hc Hw Hsc Hsw Hn.
  - injection Hsim as <-. simpl. lia.
  - simpl in Hsim. destruct (callback_step sys cb) as [sys1|] eqn:Hstep;
      [|done].
    apply Forall_cons in Hnb as [Hcb Hnb].
    pose proof (callback_step_instruction_maps _ _ _ Hstep Hcb) as Hmaps.
    destruct (is_instruction cb) eqn:Hi.
    + destruct cb; try discriminate. destruct Hmaps as [Hc1 Hw1].
      rewrite filter_cons_True in * by done. simpl length in *.
      destruct (bump_wrap64_total (computeOps (worker sys))
                  (getOpcode instruction) Hc ltac:(lia)) as [Hc' Hsc'].
      destruct (bump_wrap64_total (instructionWidth (worker sys))
                  (wrap16 num) Hw ltac:(lia)) as [Hw' Hsw'].
      rewrite <- Hc1 in Hc', Hsc'. rewrite <- Hw1 in Hw', Hsw'.
      destruct (IH sys1 sys' (n + 1) Hsim Hnb Hc' Hw' ltac:(lia) ltac:(lia)
                  ltac:(lia)) as [-> ->]. lia.
    + rewrite filter_cons_False in * by congruence.
      assert (Heq : computeOps (worker sys1) = computeOps (worker sys)
                    ∧ instructionWidth (worker sys1)
                      = instructionWidth (worker sys))
        by (destruct cb; try discriminate; exact Hmaps).
      destruct Heq as [Hc1 Hw1].
      apply (IH sys1 sys' n Hsim Hnb); rewrite ?Hc1, ?Hw1; done.
Qed.

(** X18: between the begin of a work-group and the begin of the next one,
    as long as fewer than 2^64 instructions are executed, the opcode
    histogram and the width histogram of the thread each count exactly the
    calls of [instructionExecuted]: no other callback changes them, and
    every executed instruction adds one to one opcode and to one width. *)
Theorem histograms_count_executed_instructions (cbs : list callback)
    (sys sys' : System) :
  simulate (CbWorkGroupBegin :: cbs) sys = Some sys' →
  Forall (λ cb, is_group_begin cb = false) cbs →
  Z.of_nat (length (filter (λ cb, is_instruction cb = true) cbs)) < 2 ^ 64 →
  sum_values (computeOps (worker sys'))
  = Z.of_nat (length (filter (λ cb, is_instruction cb = true) cbs))
  ∧ sum_values (instructionWidth (worker sys'))
    = Z.of_nat (length (filter (λ cb, is_instruction cb = true) cbs)).
Proof.
  intros Hsim Hnb Hn. cbn [simulate callback_step on_worker] in Hsim.
  apply (simulate_instruction_totals cbs _ sys' 0 Hsim Hnb);
    [apply map_Forall_empty|apply map_Forall_empty
    |apply (sum_values_empty (K:=Z))|apply (sum_values_empty (K:=Z))|lia].
Qed.

Lemma histograms_count_executed_instructions_witness :
  ∃ sys',
    simulate (CbWorkGroupBegin
              :: [CbWorkItemBegin; CbInstructionExecuted load_inst 1;
                  CbInstructionExecuted ret_inst 1; CbWorkItemComplete])
      allocated_thread = Some sys'
    ∧ sum_values (computeOps (worker sys')) = 2.
Proof.
  destruct (simulate (CbWorkGroupBegin
              :: [CbWorkItemBegin; CbInstructionExecuted load_inst 1;
                  CbInstructionExecuted ret_inst 1; CbWorkItemComplete])
      allocated_thread) as [sys'|] eqn:Hsim; [|vm_compute in Hsim; discriminate].
  exists sys'. split; [done|].
  refine (proj1 (histograms_count_executed_instructions _ _ _ Hsim _ _)).
  - repeat constructor.
  - vm_compute. reflexivity.
Defined.

(** *** The outcome of a branch *)

(** X19: a conditional branch is resolved by the instruction that is
    executed next on the thread.  After a conditional branch with the
    targets [t1] and [t2], the next instruction appends one outcome to the
    sequence of the branch: taken when its block is [t1] (also when
    [t1 = t2]), not taken when its block is [t2] and not [t1]; when its
    block is neither, the callback ends in the error path and records
    nothing. *)
Theorem branch_resolved_by_next_instruction (s : WorkerState)
    (branch next : Instruction) (num num' t1 t2 : Z) :
  previous_instruction_is_branch s = false →
  conditional_targets branch = Some (t1, t2) →
  ∃ s1, instructionExecuted branch num s = Some s1
    ∧ branchOps s1 = branchOps s
    ∧ match instructionExecuted next num' s1 with
      | Some s2 =>
          (getParent next = t1 ∨ getParent next = t2)
          ∧ branchOps s2
            = push_outcome (inst_handle branch)
                (bool_decide (getParent next = t1)) (branchOps s)
      | None => getParent next ≠ t1 ∧ getParent next ≠ t2
      end.
Proof.
  intros Hprev Htargets. unfold instructionExecuted at 1. rewrite Hprev.
  eexists. split; [reflexivity|]. cbn [branchOps]. split; [done|].
  unfold instructionExecuted.
  cbn [previous_instruction_is_branch target1 target2 branch_loc branchOps].
  rewrite Htargets.
  destruct (decide (getParent next = t1)) as [H1|H1].
  - rewrite bool_decide_eq_true_2 by done. cbn [branchOps]. split; [by left|done].
  - rewrite bool_decide_eq_false_2 by done.
    destruct (decide (getParent next = t2)) as [H2|H2].
    + cbn [branchOps]. split; [by right|done].
    + done.
Qed.

Lemma branch_resolved_by_next_instruction_witness :
  ∃ s1, instructionExecuted br_inst 1 (worker allocated_thread) = Some s1
    ∧ branchOps s1 = branchOps (worker allocated_thread)
    ∧ match instructionExecuted taken_inst 1 s1 with
      | Some s2 =>
          (getParent taken_inst = 11 ∨ getParent taken_inst = 12)
          ∧ branchOps s2
            = push_outcome (inst_handle br_inst)
                (bool_decide (getParent taken_inst = 11))
                (branchOps (worker allocated_thread))
      | None => getParent taken_inst ≠ 11 ∧ getParent taken_inst ≠ 12
      end.
Proof.
  apply (branch_resolved_by_next_instruction (worker allocated_thread)
           br_inst taken_inst 1 1 11 12); reflexivity.
Defined.

(** *** The instructions of a work-item *)

Lemma callback_step_work_item sys cb sys' :
  callback_step sys cb = Some sys' → inside_work_item cb = true →
  instructionsPerWorkitem (worker sys') = instructionsPerWorkitem (worker sys)
  ∧ threads_invoked (worker sys') = threads_invoked (worker sys)
  ∧ workitem_instruction_count (worker sys')
    = workitem_instruction_count (worker sys)
      + (if is_instruction cb then 1 else 0)
  ∧ barriers_hit (worker sys')
    = barriers_hit (worker sys) + (if is_item_barrier cb then 1 else 0).
Proof.
  intros Hstep Hcb. destruct sys as [p s e].
  destruct cb; try discriminate; simpl in Hstep; unfold on_worker in Hstep;
    simpl in Hstep;
    try (injection Hstep as <-; simpl; repeat split; lia).
  - destruct (kernelBegin _ _); [|done]. injection Hstep as <-. simpl.
    repeat split; lia.
  - destruct (kernelEnd _ _) as [[? ?]|]; [|done]. injection Hstep as <-.
    simpl. repeat split; lia.
  - unfold instructionExecuted in Hstep.
    destruct (if previous_instruction_is_branch s then _ else _); [|done].
    injection Hstep as <-. simpl. repeat split; lia.
  - unfold memoryLoad, threadMemoryLedger in Hstep.
    destruct space; try (destruct (ledger_push _ _ _); [|done]);
      injection Hstep as <-; simpl; repeat split; lia.
  - unfold memoryStore, threadMemoryLedger in Hstep.
    destruct space; try (destruct (ledger_push _ _ _); [|done]);
      injection Hstep as <-; simpl; repeat split; lia.
Qed.

Lemma simulate_work_item (cbs : list callback) : ∀ sys sys',
  simulate cbs sys = Some sys' →
  Forall (λ cb, inside_work_item cb = true) cbs →
  instructionsPerWorkitem (worker sys') = instructionsPerWorkitem (worker sys)
  ∧ threads_invoked (worker sys') = threads_invoked (worker sys)
  ∧ workitem_instruction_count (worker sys')
    = workitem_instruction_count (worker sys)
      + Z.of_nat (length (filter (λ cb, is_instruction cb = true) cbs))
  ∧ barriers_hit (worker sys')
    = barriers_hit (worker sys)
      + Z.of_nat (length (filter (λ cb, is_item_barrier cb = true) cbs)).
Proof.
  induction cbs as [|cb cbs IH]; intros sys sys' Hsim Hall.
  - injection Hsim as <-. simpl. repeat split; lia.
  - simpl in Hsim. destruct (callback_step sys cb) as [sys1|] eqn:Hstep;
      [|done].
    apply Forall_cons in Hall as [Hcb Hall].
    destruct (callback_step_work_item _ _ _ Hstep Hcb) as (H1 & H2 & H3 & H4).
    destruct (IH sys1 sys' Hsim Hall) as (-> & -> & -> & ->).
    rewrite H1, H2, H3, H4. split; [done|]. split; [done|]. split.
    + destruct (is_instruction cb) eqn:Hi.
      * rewrite filter_cons_True by done. simpl length. lia.
      * rewrite filter_cons_False by congruence. lia.
    + destruct (is_item_barrier cb) eqn:Hi.
      * rewrite filter_cons_True by done. simpl length. lia.
      * rewrite filter_cons_False by congruence. lia.
Qed.

(** X20: the entry that [workItemComplete] appends to
    [instructionsPerWorkitem] is the number of instructions, modulo 2^32,
    that the thread has executed since the last [workItemBegin], whatever
    barriers, memory accesses and other callbacks came in between; the
    begin of the work-item counts one more thread, and every barrier of a
    work-item one more barrier. *)
Theorem work_item_instructions_counted (cbs : list callback)
    (sys sys' : System) :
  simulate (CbWorkItemBegin :: cbs ++ [CbWorkItemComplete]) sys = Some sys' →
  Forall (λ cb, inside_work_item cb = true) cbs →
  instructionsPerWorkitem (worker sys')
  = instructionsPerWorkitem (worker sys)
    ++ [wrap32 (Z.of_nat
                  (length (filter (λ cb, is_instruction cb = true) cbs)))]
  ∧ threads_invoked (worker sys') = threads_invoked (worker sys) + 1
  ∧ barriers_hit (worker sys')
    = barriers_hit (worker sys)
      + Z.of_nat (length (filter (λ cb, is_item_barrier cb = true) cbs)).
Proof.
  intros Hsim Hall. cbn [simulate callback_step on_worker] in Hsim.
  rewrite simulate_app in Hsim.
  destruct (simulate cbs _) as [sys1|] eqn:Hbody; [|done].
  destruct (simulate_work_item _ _ _ Hbody Hall) as (H1 & H2 & H3 & H4).
  cbn [worker workItemBegin instructionsPerWorkitem threads_invoked
       workitem_instruction_count barriers_hit] in H1, H2, H3, H4.
  cbn [simulate callback_step on_worker] in Hsim. injection Hsim as <-.
  cbn [worker workItemComplete instructionsPerWorkitem threads_invoked
       barriers_hit].
  rewrite H1, H2, H3, H4. done.
Qed.

Lemma work_item_instructions_counted_witness :
  ∃ sys',
    simulate (CbWorkItemBegin
              :: [CbInstructionExecuted load_inst 1; CbWorkItemBarrier;
                  CbWorkItemClearBarrier; CbInstructionExecuted ret_inst 1]
              ++ [CbWorkItemComplete]) allocated_thread = Some sys'
    ∧ instructionsPerWorkitem (worker sys')
      = instructionsPerWorkitem (worker allocated_thread) ++ [wrap32 2].
Proof.
  destruct (simulate (CbWorkItemBegin
              :: [CbInstructionExecuted load_inst 1; CbWorkItemBarrier;
                  CbWorkItemClearBarrier; CbInstructionExecuted ret_inst 1]
              ++ [CbWorkItemComplete]) allocated_thread)
    as [sys'|] eqn:Hsim; [|vm_compute in Hsim; discriminate].
  exists sys'. split; [done|].
  refine (proj1 (work_item_instructions_counted _ _ _ Hsim _)).
  repeat constructor.
Defined.

(** *** The normed locality of a report *)

Lemma foldl_wrap64_sum {A} (f : A → Z) (l : list A) :
  (∀ x, x ∈ l → 0 <= f x) → sumZ (f <$> l) < 2 ^ 64 →
  foldl (λ acc x, wrap64 (acc + f x)) 0 l = sumZ (f <$> l)
  ∧ 0 <= sumZ (f <$> l).
Proof.
  induction l as [|x l IH] using rev_ind; intros Hnn Hsum.
  - simpl. lia.
  - assert (Hnn' : ∀ y, y ∈ l → 0 <= f y)
      by (intros y Hy; apply Hnn, elem_of_app; by left).
    assert (0 <= f x)
      by (apply Hnn, elem_of_app; right; by apply list_elem_of_singleton).
    rewrite fmap_app, sumZ_app in *.
    change (sumZ (f <$> [x])) with (f x + 0) in *. rewrite Z.add_0_r in *.
    rewrite foldl_snoc.
    assert (Hnn0 : 0 <= sumZ (f <$> l)).
    { clear -Hnn'. induction l as [|y l IH]; [simpl; lia|].
      rewrite fmap_cons, sumZ_cons.
      assert (0 <= f y) by (apply Hnn'; by left).
      assert (0 <= sumZ (f <$> l)) by (apply IH; intros; apply Hnn'; by right).
      lia. }
    destruct (IH Hnn' ltac:(lia)) as [-> _]. split; [|lia].
    apply wrap64_small. lia.
Qed.

Lemma locality_within_lookup hi v (i : nat) :
  locality_within hi v → (i <= 10)%nat →
  ∃ x, v !! i = Some (Finite x) ∧ (0 <= x <= hi)%R.
Proof.
  intros [Hlen Hall] Hi.
  destruct (lookup_lt_is_Some_2 v i) as [d Hd]; [lia|].
  destruct (Hall d (list_elem_of_lookup_2 _ _ _ Hd)) as (x & -> & Hx).
  by exists x.
Qed.

Lemma locality_within_mono hi hi' v :
  (hi <= hi')%R → locality_within hi v → locality_within hi' v.
Proof.
  intros Hle [Hlen Hall]. split; [done|]. intros d Hd.
  destruct (Hall d Hd) as (x & -> & Hx). exists x. split; [done|lra].
Qed.

Lemma weighted_sum_range (per_barrier : list (list double * Z)) (i : nat)
    (hi : R) :
  (0 <= hi)%R → (i <= 10)%nat →
  (∀ rec, rec ∈ per_barrier → 0 <= rec.2 ∧ locality_within hi rec.1) →
  ∀ a, ∃ total,
    foldl (λ acc elem,
             acc + default (Finite 0) (elem.1 !! i) * of_Z elem.2)%D
          (Finite a) per_barrier
    = Finite (a + total)
    ∧ (0 <= total <= hi * IZR (sumZ per_barrier.*2))%R.
Proof.
  intros Hhi Hi. induction per_barrier as [|rec pb IH]; intros Hall a.
  - exists 0%R. cbn [foldl fmap list_fmap sumZ foldr].
    split; [f_equal; lra|lra].
  - destruct (Hall rec ltac:(left)) as [Hw Hvec].
    destruct (locality_within_lookup _ _ i Hvec Hi) as (x & Hx & Hrange).
    cbn [foldl]. rewrite Hx.
    change (Finite a + default (Finite 0) (Some (Finite x)) * of_Z rec.2)%D
      with (Finite (a + x * IZR rec.2)).
    destruct (IH ltac:(intros; apply Hall; by right) (a + x * IZR rec.2)%R)
      as (total & -> & Ht).
    exists (x * IZR rec.2 + total)%R. split; [f_equal; lra|].
    rewrite fmap_cons, sumZ_cons, plus_IZR.
    assert (0 <= IZR rec.2)%R by (apply IZR_le; lia). nra.
Qed.

(** The weighted average of records within [hi] is within [hi]. *)
Lemma weighted_avg_psl_within (per_barrier : list (list double * Z)) (hi : R) :
  (0 <= hi)%R →
  (∀ rec, rec ∈ per_barrier → 0 <= rec.2 ∧ locality_within hi rec.1) →
  sumZ per_barrier.*2 < 2 ^ 64 - 1 →
  locality_within hi (weighted_avg_psl per_barrier).
Proof.
  intros Hhi Hall Hsum. split; [apply weighted_avg_psl_length|].
  intros d Hd. unfold weighted_avg_psl in Hd.
  apply list_elem_of_fmap in Hd as (i & -> & Hi%elem_of_seq).
  destruct (foldl_wrap64_sum snd per_barrier) as [Hw Hw0];
    [intros rec Hrec; by destruct (Hall rec Hrec)|lia|].
  rewrite Hw.
  destruct (weighted_sum_range per_barrier i hi Hhi ltac:(lia) Hall 0%R)
    as (total & -> & Ht).
  set (W := sumZ per_barrier.*2) in *.
  case_decide as Hzero.
  - exists (0 + total)%R. split; [done|]. rewrite Hzero in Ht. lra.
  - rewrite wrap64_small by lia. unfold of_Z.
    assert (HW : (0 < IZR (W + 1))%R) by (apply IZR_lt; lia).
    rewrite ddiv_finite by done. eexists. split; [reflexivity|].
    assert (Hinv : (0 < / IZR (W + 1))%R) by (by apply Rinv_0_lt_compat).
    assert (Hone : (IZR (W + 1) * / IZR (W + 1) = 1)%R) by (apply Rinv_r; lra).
    assert (HW0 : (0 <= IZR W)%R) by (apply IZR_le; lia).
    rewrite plus_IZR in *. unfold Rdiv. rewrite Rplus_0_l. split.
    + apply Rmult_le_pos; lra.
    + apply (Rmult_le_reg_r (IZR W + 1)); [lra|].
      rewrite Rmult_assoc, (Rmult_comm (/ (IZR W + 1))), Hone. nra.
Qed.

Lemma log2_2 : log2 2 = 1%R.
Proof. unfold log2. pose proof ln_2_pos. field. lra. Qed.

(** The normed average over the work-groups. *)
Lemma avg_psl_within (p : Plugin) (psl : list double) :
  1 <= Size3.x (m_local_num p) * Size3.y (m_local_num p)
       * Size3.z (m_local_num p) < 2 ^ 32 - 1 →
  (∀ g, g ∈ m_psl_per_group p →
     locality_within
       (log2 (IZR (Size3.x (m_local_num p) * Size3.y (m_local_num p)
                   * Size3.z (m_local_num p) + 1))) g) →
  avg_psl p = Some psl →
  locality_within 1 psl.
Proof.
  intros Hitems Hall Hpsl. unfold avg_psl in Hpsl.
  destruct (m_psl_per_group p) as [|first rest] eqn:Hgroups; [done|].
  apply (inj Some) in Hpsl. subst psl.
  set (items := Size3.x (m_local_num p) * Size3.y (m_local_num p)
                * Size3.z (m_local_num p)) in *.
  set (hi := log2 (IZR (items + 1))) in *.
  assert (Hhi : (1 <= hi)%R).
  { unfold hi. rewrite <- log2_2. apply log2_le; [lra|]. apply IZR_le. lia. }
  destruct (Hall first ltac:(left)) as [Hlen _].
  split; [by rewrite length_fmap, length_seq|].
  intros d (i & -> & Hi%elem_of_seq)%list_elem_of_fmap.
  destruct (locality_sum_range (first :: rest) i hi ltac:(lra)) with (a := 0%R)
    as (total & -> & Ht).
  { intros g Hg. apply locality_within_lookup; [by apply Hall|lia]. }
  set (G := IZR (Z.of_nat (length (first :: rest)))) in *.
  assert (HG : (1 <= G)%R) by (unfold G; apply IZR_le; simpl length; lia).
  unfold of_Z. fold G. rewrite ddiv_finite by lra.
  rewrite (wrap32_small items) by lia. rewrite wrap32_small by lia.
  rewrite dlog2_pos by (apply IZR_lt; lia). fold hi.
  rewrite ddiv_finite by lra. eexists. split; [reflexivity|].
  assert (HinvG : (0 < / G)%R) by (apply Rinv_0_lt_compat; lra).
  assert (HoneG : (G * / G = 1)%R) by (apply Rinv_r; lra).
  assert (Hinvh : (0 < / hi)%R) by (apply Rinv_0_lt_compat; lra).
  assert (Honeh : (hi * / hi = 1)%R) by (apply Rinv_r; lra).
  unfold Rdiv. rewrite Rplus_0_l.
  assert (Hmean : (0 <= total * / G <= hi)%R).
  { split; [apply Rmult_le_pos; lra|].
    apply (Rmult_le_reg_r G); [lra|].
    rewrite Rmult_assoc, (Rmult_comm (/ G)), HoneG. nra. }
  split.
  - apply Rmult_le_pos; lra.
  - apply (Rmult_le_reg_r hi); [lra|].
    rewrite Rmult_assoc, (Rmult_comm (/ hi)), Honeh. lra.
Qed.

Lemma ledger_elements_nonneg l : 0 <= ledger_elements l.
Proof.
  unfold ledger_elements. induction l as [|row l IH]; [simpl; lia|].
  rewrite fmap_cons, sumZ_cons. lia.
Qed.

Lemma ledger_elements_cleared (l : list (list ledgerElement)) :
  ledger_elements ((λ _, []) <$> l) = 0.
Proof.
  unfold ledger_elements. induction l as [|row l IH]; [done|].
  rewrite !fmap_cons, sumZ_cons, IH. done.
Qed.

Lemma max_row_length_le_elements l :
  0 <= max_row_length l <= ledger_elements l.
Proof.
  unfold max_row_length.
  destruct (max_row_length_spec l 0 ltac:(lia)) as (Hle & _ & Hex).
  cbn zeta in Hle, Hex. split; [done|].
  destruct Hex as [->|(row & Hrow & ->)]; [apply ledger_elements_nonneg|].
  unfold ledger_elements. clear Hle.
  induction l as [|row' l IH]; [by apply elem_of_nil in Hrow|].
  rewrite fmap_cons, sumZ_cons. pose proof (ledger_elements_nonneg l) as Hnn.
  unfold ledger_elements in Hnn.
  apply elem_of_cons in Hrow as [->|Hrow]; [lia|].
  specialize (IH Hrow). lia.
Qed.

Lemma alter_elements (le : ledgerElement) (l : list (list ledgerElement)) :
  ∀ i : nat, (i < length l)%nat →
  ledger_elements (alter (λ r, r ++ [le]) i l) = ledger_elements l + 1.
Proof.
  unfold ledger_elements. induction l as [|row l IH]; intros i Hi;
    [simpl in Hi; lia|].
  destruct i as [|i]; cbn [alter list_alter].
  - rewrite !fmap_cons, !sumZ_cons, length_app. simpl length. lia.
  - rewrite !fmap_cons, !sumZ_cons. cbn [alter list_alter] in IH.
    rewrite IH by (simpl in Hi; lia). lia.
Qed.

Lemma ledger_push_elements row le l l' :
  0 <= row → ledger_push row le l = Some l' →
  ledger_elements l' = ledger_elements l + 1 ∧ length l' = length l.
Proof.
  intros Hrow. unfold ledger_push. case_decide; [|done]. intros [= <-].
  split; [apply alter_elements; lia|apply length_alter].
Qed.

Section NormedLocality.
Variable ls : Size3.t.
Hypothesis Hitems :
  1 <= Size3.x ls * Size3.y ls * Size3.z ls < 2 ^ 32 - 1.

Lemma items_of_small :
  items_of ls = Size3.x ls * Size3.y ls * Size3.z ls.
Proof. unfold items_of. apply wrap64_small. lia. Qed.

Lemma locality_bound_nonneg : (0 <= log2 (IZR (items_of ls + 1)))%R.
Proof.
  rewrite items_of_small, <- log2_1. apply log2_le; [lra|].
  apply IZR_le. lia.
Qed.

Lemma barrier_record_within (l : list (list ledgerElement)) :
  Z.of_nat (length l) <= items_of ls →
  0 <= max_row_length l
  ∧ locality_within (log2 (IZR (items_of ls + 1))) (parallelSpatialLocality l).
Proof.
  intros Hrows. split; [apply max_row_length_le_elements|].
  rewrite items_of_small in *.
  split; [apply parallelSpatialLocality_length|]. intros d Hd.
  destruct (parallelSpatialLocality_entries l d ltac:(lia) Hd) as (v & -> & Hv).
  exists v. split; [done|]. split; [lra|].
  eapply Rle_trans; [apply Hv|]. apply log2_le; [apply IZR_lt; lia|].
  apply IZR_le. lia.
Qed.

Lemma worker_locality_step sys cb sys' :
  callback_step sys cb = Some sys' →
  m_local_num (plugin sys) = ls →
  worker_locality_inv ls (worker sys) →
  worker_locality_inv ls (worker sys')
  ∧ locality_budget (worker sys') <= locality_budget (worker sys) + 1.
Proof.
  intros Hstep Hls [Hrows Hrecs]. destruct sys as [p s e].
  simpl in Hls, Hrows, Hrecs.
  assert (Hsame : worker_locality_inv ls s
                  ∧ locality_budget s <= locality_budget s + 1)
    by (split; [by split|lia]).
  assert (Hw : 0 <= sumZ (psl_per_barrier s).*2).
  { clear -Hrecs. induction (psl_per_barrier s) as [|rec l IH]; [simpl; lia|].
    rewrite fmap_cons, sumZ_cons.
    destruct (Hrecs rec ltac:(left)) as [? _].
    assert (0 <= sumZ l.*2) by (apply IH; intros; apply Hrecs; by right).
    lia. }
  pose proof (ledger_elements_nonneg (ledger s)) as He.
  pose proof (max_row_length_le_elements (ledger s)) as Hmax.
  destruct (barrier_record_within (ledger s) Hrows) as [Hw0 Hvec].
  destruct cb; simpl in Hstep; unfold on_worker in Hstep; simpl in Hstep;
    try (injection Hstep as <-; exact Hsame).
  - destruct (kernelBegin _ _); [|done]. injection Hstep as <-. exact Hsame.
  - destruct (kernelEnd _ _) as [[? ?]|]; [|done]. injection Hstep as <-.
    exact Hsame.
  - injection Hstep as <-. unfold worker_locality_inv, locality_budget.
    cbn [worker workGroupBegin ledger psl_per_barrier].
    rewrite length_fmap, ledger_elements_cleared. rewrite Hls.
    destruct (allocated s).
    + split; [by split|lia].
    + rewrite length_replicate. split; [|simpl; lia]. split.
      * pose proof (ledger_elements_nonneg []). rewrite items_of_small. lia.
      * by intros rec Hrec%elem_of_nil.
  - injection Hstep as <-. unfold worker_locality_inv, locality_budget.
    cbn [worker workGroupBarrier ledger psl_per_barrier].
    rewrite length_fmap, ledger_elements_cleared, fmap_app, sumZ_app.
    split; [split; [done|]|simpl; lia].
    intros rec [Hrec|Hrec%list_elem_of_singleton]%elem_of_app;
      [by apply Hrecs|by subst rec].
  - injection Hstep as <-. unfold worker_locality_inv, locality_budget.
    cbn [worker workGroupComplete_state ledger psl_per_barrier].
    rewrite length_fmap, ledger_elements_cleared, fmap_app, sumZ_app.
    split; [split; [done|]|simpl; lia].
    intros rec [Hrec|Hrec%list_elem_of_singleton]%elem_of_app;
      [by apply Hrecs|by subst rec].
  - unfold instructionExecuted in Hstep.
    destruct (if previous_instruction_is_branch s then _ else _); [|done].
    injection Hstep as <-. exact Hsame.
  - unfold memoryLoad, threadMemoryLedger in Hstep.
    destruct space; try (injection Hstep as <-; exact Hsame);
      cbn [ledger set_loadOps] in Hstep;
      destruct (ledger_push _ _ _) as [l'|] eqn:Hpush; try done;
      injection Hstep as <-;
      apply ledger_push_elements in Hpush as [Hel Hlen];
        try apply wrap64_range;
      unfold worker_locality_inv, locality_budget;
      cbn [worker set_ledger set_loadOps ledger psl_per_barrier];
      rewrite Hel, Hlen; (split; [by split|lia]).
  - unfold memoryStore, threadMemoryLedger in Hstep.
    destruct space; try (injection Hstep as <-; exact Hsame);
      cbn [ledger set_storeOps] in Hstep;
      destruct (ledger_push _ _ _) as [l'|] eqn:Hpush; try done;
      injection Hstep as <-;
      apply ledger_push_elements in Hpush as [Hel Hlen];
        try apply wrap64_range;
      unfold worker_locality_inv, locality_budget;
      cbn [worker set_ledger set_storeOps ledger psl_per_barrier];
      rewrite Hel, Hlen; (split; [by split|lia]).
Qed.

Lemma plugin_locality_step sys cb sys' :
  callback_step sys cb = Some sys' → local_size_is ls cb →
  plugin_locality_inv ls (plugin sys) →
  worker_locality_inv ls (worker sys) →
  locality_budget (worker sys) + 1 < 2 ^ 64 - 1 →
  plugin_locality_inv ls (plugin sys').
Proof.
  intros Hstep Hcb [Hls Hgroups] Hworker Hbudget.
  destruct (worker_locality_step _ _ _ Hstep Hls Hworker) as [[_ Hrecs'] Hb'].
  destruct sys as [p s e]. simpl in Hls, Hgroups, Hworker, Hbudget.
  assert (Hsame : plugin_locality_inv ls p) by (by split).
  destruct cb; simpl in Hstep; unfold on_worker in Hstep; simpl in Hstep;
    try (injection Hstep as <-; exact Hsame).
  - unfold kernelBegin in Hstep.
    destruct (Transfer.kernelBegin _ _); [|done]. injection Hstep as <-.
    split; [exact Hcb|]. by intros g Hg%elem_of_nil.
  - unfold kernelEnd in Hstep.
    destruct (logMetrics _ p); try done; injection Hstep as <-; exact Hsame.
  - injection Hstep as <-. split; [done|]. cbn [worker] in Hrecs', Hb'.
    cbn [plugin workGroupComplete_plugin m_psl_per_group].
    intros g [Hg|Hg%list_elem_of_singleton]%elem_of_app; [by apply Hgroups|].
    subst g.
    apply weighted_avg_psl_within;
      [apply locality_bound_nonneg|exact Hrecs'|].
    unfold locality_budget in Hb', Hbudget.
    cbn [workGroupComplete_state ledger psl_per_barrier] in Hb' |- *.
    rewrite ledger_elements_cleared in Hb'.
    pose proof (ledger_elements_nonneg (ledger s)). lia.
  - destruct (instructionExecuted _ _ _); [|done]. injection Hstep as <-.
    exact Hsame.
  - destruct (memoryLoad _ _ _ _ _); [|done]. injection Hstep as <-.
    exact Hsame.
  - destruct (memoryStore _ _ _ _ _); [|done]. injection Hstep as <-.
    exact Hsame.
Qed.

Lemma emitted_locality_step sys cb sys' :
  callback_step sys cb = Some sys' →
  plugin_locality_inv ls (plugin sys) →
  (∀ r, r ∈ emitted sys → locality_within 1 (normed_PSL r)) →
  ∀ r, r ∈ emitted sys' → locality_within 1 (normed_PSL r).
Proof.
  intros Hstep [Hls Hgroups] He. destruct sys as [p s e].
  simpl in Hls, Hgroups, He.
  destruct cb; simpl in Hstep; unfold on_worker in Hstep; simpl in Hstep;
    try (injection Hstep as <-; exact He).
  - destruct (kernelBegin _ _); [|done]. injection Hstep as <-. exact He.
  - unfold kernelEnd in Hstep. destruct (logMetrics _ p) as [r0| |] eqn:Hr;
      try done.
    + injection Hstep as <-. simpl.
      intros r [Hr'|Hr'%list_elem_of_singleton]%elem_of_app; [by apply He|].
      subst r.
      apply logMetrics_psl in Hr.
      apply (avg_psl_within p); [by rewrite Hls| |done].
      rewrite Hls, <- items_of_small. exact Hgroups.
    + injection Hstep as <-. simpl. rewrite app_nil_r. exact He.
  - destruct (instructionExecuted _ _ _); [|done]. injection Hstep as <-.
    exact He.
  - destruct (memoryLoad _ _ _ _ _); [|done]. injection Hstep as <-. exact He.
  - destruct (memoryStore _ _ _ _ _); [|done]. injection Hstep as <-. exact He.
Qed.

Lemma simulate_normed_locality (cbs : list callback) : ∀ sys sys',
  simulate cbs sys = Some sys' → Forall (local_size_is ls) cbs →
  plugin_locality_inv ls (plugin sys) →
  worker_locality_inv ls (worker sys) →
  locality_budget (worker sys) + Z.of_nat (length cbs) < 2 ^ 64 - 1 →
  (∀ r, r ∈ emitted sys → locality_within 1 (normed_PSL r)) →
  ∀ r, r ∈ emitted sys' → locality_within 1 (normed_PSL r).
Proof.
  induction cbs as [|cb cbs IH]; intros sys sys' Hsim Hall Hp Hw Hb He.
  - by injection Hsim as <-.
  - simpl in Hsim. destruct (callback_step sys cb) as [sys1|] eqn:Hstep;
      [|done].
    apply Forall_cons in Hall as [Hcb Hall]. simpl length in Hb.
    destruct (worker_locality_step _ _ _ Hstep (proj1 Hp) Hw) as [Hw1 Hb1].
    apply (IH sys1 sys' Hsim Hall).
    + apply (plugin_locality_step _ _ _ Hstep Hcb Hp Hw). lia.
    + exact Hw1.
    + lia.
    + by apply (emitted_locality_step _ _ _ Hstep Hp).
Qed.

End NormedLocality.

(** X21: on a thread that starts with the plugin, while every kernel has
    the same local size with between 1 and 2^32 - 2 work-items, every entry
    of the row [normed_PSL] of every report is finite and lies between 0
    and 1: the locality of a barrier is at most log2 (work-items + 1), the
    weighted average over the barriers and the average over the work-groups
    keep that bound, and the reducer divides by log2 (work-items + 1). *)
Theorem normed_locality_in_unit_interval (ki : KernelInvocation)
    (cbs : list callback) (sys : System) :
  simulate (CbKernelBegin ki :: cbs) constructed = Some sys →
  Forall (local_size_is (getLocalSize ki)) cbs →
  1 <= Size3.x (getLocalSize ki) * Size3.y (getLocalSize ki)
       * Size3.z (getLocalSize ki) < 2 ^ 32 - 1 →
  Z.of_nat (length cbs) < 2 ^ 64 - 1 →
  ∀ r, r ∈ emitted sys →
    length (normed_PSL r) = 11%nat
    ∧ ∀ d, d ∈ normed_PSL r → ∃ v, d = Finite v ∧ (0 <= v <= 1)%R.
Proof.
  intros Hsim Hall Hitems Hlen.
  cbn [simulate callback_step] in Hsim. unfold kernelBegin in Hsim.
  cbn [constructed plugin transfers] in Hsim.
  change (Transfer.kernelBegin (getName ki) Transfer.init)
    with (Some (Transfer.mk [] [] (getName ki) 0)) in Hsim.
  cbn [worker emitted] in Hsim.
  apply (simulate_normed_locality (getLocalSize ki) Hitems cbs _ sys Hsim Hall).
  - split; [done|]. by intros g Hg%elem_of_nil.
  - split.
    + simpl. rewrite (items_of_small _ Hitems). lia.
    + by intros rec Hrec%elem_of_nil.
  - change (locality_budget _) with 0. lia.
  - by intros r Hr%elem_of_nil.
Qed.

Lemma normed_locality_in_unit_interval_witness :
  ∃ sys,
    simulate barrier_kernel constructed = Some sys
    ∧ ∀ r, r ∈ emitted sys →
        length (normed_PSL r) = 11%nat
        ∧ ∀ d, d ∈ normed_PSL r → ∃ v, d = Finite v ∧ (0 <= v <= 1)%R.
Proof.
  destruct (simulate barrier_kernel constructed) as [sys|] eqn:Hsim;
    [|vm_compute in Hsim; discriminate].
  exists sys. split; [done|].
  apply (normed_locality_in_unit_interval (kernel_1d "k" 1)
           (tail barrier_kernel) sys Hsim).
  - repeat constructor.
  - vm_compute. split; [discriminate|reflexivity].
  - vm_compute. reflexivity.
Defined.

(** ** The branch entropies *)

Lemma land_double (x y : Z) (a b : bool) :
  Z.land (2 * x + Z.b2z a) (2 * y + Z.b2z b)
  = 2 * Z.land x y + Z.b2z (a && b).
Proof.
  apply Z.bits_inj'. intros n Hn. rewrite Z.land_spec.
  destruct (decide (n = 0)) as [->|Hne].
  - by rewrite !Z.testbit_0_r.
  - replace n with (Z.succ (n - 1)) by lia.
    rewrite !Z.testbit_succ_r by lia. by rewrite Z.land_spec.
Qed.

Lemma pos_popcount_pos q : 1 <= pos_popcount q.
Proof. induction q; simpl; lia. Qed.

Lemma popcount_double z : 0 <= z → popcount (2 * z) = popcount z.
Proof. destruct z; try done; lia. Qed.

(** One round of the loop clears the lowest bit that is set. *)
Lemma land_pred (q : positive) :
  0 <= Z.land (Zpos q) (Zpos q - 1) < Zpos q
  ∧ popcount (Z.land (Zpos q) (Zpos q - 1)) = pos_popcount q - 1.
Proof.
  induction q as [q IH|q IH|].
  - replace (Zpos q~1) with (2 * Zpos q + Z.b2z true) by (simpl; lia).
    replace (2 * Zpos q + Z.b2z true - 1) with (2 * Zpos q + Z.b2z false)
      by (simpl; lia).
    rewrite land_double, Z.land_diag. simpl Z.b2z. rewrite Z.add_0_r.
    split; [lia|]. rewrite popcount_double by lia. simpl. lia.
  - replace (Zpos q~0) with (2 * Zpos q + Z.b2z false) by (simpl; lia).
    replace (2 * Zpos q + Z.b2z false - 1)
      with (2 * (Zpos q - 1) + Z.b2z true) by (simpl; lia).
    rewrite land_double. simpl Z.b2z. rewrite Z.add_0_r.
    destruct IH as [Hr Hp]. split; [lia|].
    rewrite popcount_double by lia. rewrite Hp. simpl. lia.
  - change (Z.land 1 (1 - 1)) with 0. split; [lia|done].
Qed.

Lemma pos_popcount_bound (q : positive) : ∀ n : nat,
  Zpos q < 2 ^ Z.of_nat n → pos_popcount q <= Z.of_nat n.
Proof.
  induction q as [q IH|q IH|]; intros n Hq.
  - destruct n as [|n]; [simpl in Hq; lia|].
    rewrite Nat2Z.inj_succ, Z.pow_succ_r in Hq by lia.
    specialize (IH n ltac:(lia)). cbn [pos_popcount]. lia.
  - destruct n as [|n]; [simpl in Hq; lia|].
    rewrite Nat2Z.inj_succ, Z.pow_succ_r in Hq by lia.
    specialize (IH n ltac:(lia)). cbn [pos_popcount]. lia.
  - destruct n as [|n]; [simpl in Hq; lia|]. simpl pos_popcount. lia.
Qed.

Lemma popcount_bound p : 0 <= p < 2 ^ 16 → 0 <= popcount p <= 16.
Proof.
  intros Hp. destruct p as [|q|q]; simpl; try lia.
  pose proof (pos_popcount_pos q).
  pose proof (pos_popcount_bound q 16 ltac:(simpl; lia)). lia.
Qed.

Lemma wrap16_small z : 0 <= z < 2 ^ 16 → wrap16 z = z.
Proof. intros Hz. unfold wrap16. by apply Z.mod_small. Qed.

Lemma kernighan_popcount (fuel : nat) : ∀ p taken,
  0 <= p < 2 ^ 16 → 0 <= taken → taken + popcount p < 2 ^ 32 →
  (Z.to_nat (popcount p) < fuel)%nat →
  kernighan fuel p taken = Some (taken + popcount p).
Proof.
  induction fuel as [|fuel IH]; intros p taken Hp Ht Hsum Hfuel; [lia|].
  cbn [kernighan]. case_decide as Hzero.
  - subst p. simpl. f_equal. lia.
  - destruct p as [|q|q]; try lia.
    destruct (land_pred q) as [Hr Hc]. pose proof (pos_popcount_pos q).
    cbn [popcount] in *.
    rewrite (wrap16_small (Z.land _ _)) by lia.
    rewrite wrap32_small by lia.
    rewrite IH; [f_equal; lia|lia|lia|lia|].
    pose proof (popcount_bound (Z.land (Z.pos q) (Z.pos q - 1)) ltac:(lia)).
    lia.
Qed.

(** X22: the loop that counts the taken branches of a history pattern
    ends after at most 16 rounds, whatever the pattern, and it returns the
    number of bits that are set in the 16-bit pattern, a number between 0
    and 16. *)
Theorem kernighan_counts_set_bits (pattern : Z) :
  kernighan 17 (wrap16 pattern) 0 = Some (popcount (wrap16 pattern))
  ∧ 0 <= popcount (wrap16 pattern) <= 16.
Proof.
  pose proof (wrap16_range pattern) as Hp.
  pose proof (popcount_bound _ Hp) as Hc. split; [|done].
  rewrite kernighan_popcount; [done|done|lia|lia|lia].
Qed.

Lemma Rsign_neg r : (r < 0)%R → Rsign r = Lt.
Proof.
  intros Hr. unfold Rsign. destruct (total_order_T r 0) as [[Hlt|Heq]|Hgt];
    [done|lra|lra].
Qed.

Lemma Rsign_cases r :
  (r < 0 ∧ Rsign r = Lt)%R ∨ (r = 0%R ∧ Rsign r = Eq) ∨ (0 < r ∧ Rsign r = Gt)%R.
Proof.
  unfold Rsign. destruct (total_order_T r 0) as [[Hlt|Heq]|Hgt]; auto.
Qed.

(** The smaller of a probability and its complement is at most a half. *)
Lemma dmin_complement q :
  (0 <= q <= 1)%R →
  ∃ m, dmin (Finite q) (Finite 1 - Finite q)%D = Finite m
       ∧ (0 <= m)%R ∧ (2 * m <= 1)%R.
Proof.
  intros Hq. unfold dmin, dsub, dopp, dadd, dlt.
  destruct (Rsign_cases (1 + - q - q)) as [[Hs ->]|[[Hs ->]|[Hs ->]]].
  - exists (1 + - q)%R. split; [done|]. lra.
  - exists q. split; [done|]. lra.
  - exists q. split; [done|]. lra.
Qed.

Lemma pattern_step_spec (A Y : R) (Y0 : double) (N : Z) (h : Z * Z) :
  0 <= h.2 → 0 <= N → N + h.2 < 2 ^ 32 →
  ∃ lin dy Y0',
    pattern_step (Some (Finite A, Y0, Finite Y, N)) h
    = Some (Finite (A + IZR h.2 * lin), Y0', Finite (Y + dy), N + h.2)
    ∧ (0 <= lin <= 1)%R ∧ (0 <= dy)%R.
Proof.
  intros Hn HN Hsum. unfold pattern_step.
  destruct (kernighan_counts_set_bits h.1) as [-> Ht].
  set (t := popcount (wrap16 h.1)) in *. unfold logMetrics_m.
  rewrite (wrap32_small (16 - t)) by lia.
  replace (16 - t + t) with 16 by lia.
  rewrite (wrap32_small 16) by lia. rewrite (wrap32_small h.2) by lia.
  rewrite (wrap32_small (N + h.2)) by lia.
  unfold of_Z. rewrite ddiv_finite by lra.
  set (q := (IZR t / 16)%R).
  assert (Hq : (0 <= q <= 1)%R).
  { unfold q. assert (0 <= IZR t <= 16)%R
      by (split; [apply (IZR_le 0)|apply (IZR_le _ 16)]; lia). lra. }
  destruct (dmin_complement q Hq) as (m & -> & Hm0 & Hm1).
  exists (2 * m)%R. cbn [dmul dadd].
  destruct (Rsign_cases q) as [[Hs Hsign]|[[Hs Hsign]|[Hs Hsign]]]; [lra| |].
  - exists 0%R. eexists. unfold dne0. rewrite Hsign.
    split; [by rewrite Rplus_0_r|]. lra.
  - exists (- (q * log2 q))%R. eexists. unfold dne0. rewrite Hsign.
    rewrite dlog2_pos by done. cbn [dmul dsub dopp dadd].
    split; [done|]. split; [lra|].
    assert (log2 q <= 0)%R by (rewrite <- log2_1; apply log2_le; lra). nra.
Qed.

Lemma pattern_loop_spec (entries : list (Z * Z)) : ∀ (A Y : R) (Y0 : double) N,
  Forall (λ h, 0 <= h.2) entries → 0 <= N →
  N + sumZ entries.*2 < 2 ^ 32 →
  ∃ A' Y' Y0',
    foldl pattern_step (Some (Finite A, Y0, Finite Y, N)) entries
    = Some (Finite A', Y0', Finite Y', N + sumZ entries.*2)
    ∧ (A <= A' <= A + IZR (sumZ entries.*2))%R ∧ (Y <= Y')%R
    ∧ 0 <= sumZ entries.*2.
Proof.
  induction entries as [|h entries IH]; intros A Y Y0 N Hnn HN Hsum.
  - exists A, Y, Y0. cbn [foldl fmap list_fmap sumZ foldr].
    rewrite Z.add_0_r, Rplus_0_r. repeat split; lra || lia.
  - apply Forall_cons in Hnn as [Hh Hnn]. rewrite fmap_cons, sumZ_cons in *.
    assert (Hrest : 0 <= sumZ entries.*2).
    { clear -Hnn. induction Hnn as [|h l Hh _ IH]; [simpl; lia|].
      rewrite fmap_cons, sumZ_cons. lia. }
    destruct (pattern_step_spec A Y Y0 N h Hh HN ltac:(lia))
      as (lin & dy & Y1 & Hstep & Hlin & Hdy).
    cbn [foldl]. rewrite Hstep.
    destruct (IH (A + IZR h.2 * lin)%R (Y + dy)%R Y1 (N + h.2) Hnn
                ltac:(lia) ltac:(lia)) as (A' & Y' & Y0' & -> & HA & HY & _).
    exists A', Y', Y0'. rewrite Z.add_assoc. split; [done|].
    rewrite (plus_IZR h.2).
    assert (0 <= IZR h.2)%R by (apply (IZR_le 0); lia).
    split; [nra|]. split; [lra|lia].
Qed.

Lemma branch_loops_flat (l : list (Z * gmap Z Z)) : ∀ st,
  foldl (λ st branch, foldl pattern_step st (map_to_list branch.2)) st l
  = foldl pattern_step st (mjoin ((λ branch, map_to_list branch.2) <$> l)).
Proof.
  induction l as [|branch l IH]; intros st; [done|].
  cbn [foldl fmap list_fmap mjoin list_join]. by rewrite foldl_app, IH.
Qed.

(** X23: when the occurrence counts of the history patterns are not
    negative and add up to less than 2^32, the loops over the patterns end
    and yield two rows that are finite and not negative,
    [yokota_branch_entropy] and [average_linear_branch_entropy]: neither is
    NaN.  When no occurrence of a pattern was recorded, the average is
    0 / 0, which the check for NaN replaces by 0, and the Yokota entropy
    is 0. *)
Theorem branch_entropies_not_negative (branchPatterns : gmap Z (gmap Z Z)) :
  Forall (λ h, 0 <= h.2) (pattern_entries branchPatterns) →
  sumZ (pattern_entries branchPatterns).*2 < 2 ^ 32 →
  ∃ yokota average,
    branch_entropies branchPatterns = Some (Finite yokota, Finite average)
    ∧ (0 <= yokota)%R ∧ (0 <= average)%R
    ∧ (pattern_entries branchPatterns = [] →
       yokota = 0%R ∧ average = 0%R)
    ∧ (sumZ (pattern_entries branchPatterns).*2 = 0 → average = 0%R).
Proof.
  intros Hnn Hsum. unfold branch_entropies. rewrite branch_loops_flat.
  fold (pattern_entries branchPatterns).
  destruct (pattern_loop_spec (pattern_entries branchPatterns) 0 0 (Finite 0) 0
              Hnn ltac:(lia) ltac:(lia))
    as (A & Y & Y0 & Heq & HA & HY & Htot).
  assert (Hnil : pattern_entries branchPatterns = [] → Y = 0%R).
  { intros Hnil. rewrite Hnil in Heq. cbn [foldl] in Heq.
    congruence. }
  rewrite Heq, Z.add_0_l.
  set (total := sumZ (pattern_entries branchPatterns).*2) in *.
  destruct (decide (total = 0)) as [Hzero|Hpos].
  - rewrite Hzero in *. assert (A = 0%R) as -> by lra.
    unfold of_Z. cbn [ddiv]. rewrite Rsign_zero. cbn [signed_inf isnan].
    exists Y, 0%R. split; [reflexivity|]. split; [lra|].
    split; [lra|]. split; [|intros _; reflexivity].
    intros Hempty. split; [by apply Hnil|reflexivity].
  - assert (Ht : (0 < IZR total)%R) by (apply (IZR_lt 0); lia).
    unfold of_Z. rewrite ddiv_finite by done. cbn [isnan].
    exists Y, (A / IZR total)%R. split; [reflexivity|]. split; [lra|].
    assert (Hinv : (0 < / IZR total)%R) by (by apply Rinv_0_lt_compat).
    split; [unfold Rdiv; apply Rmult_le_pos; lra|].
    split; [|intros Hz; contradiction].
    intros Hempty. exfalso. apply Hpos. unfold total. by rewrite Hempty.
Qed.

Lemma branch_entropies_not_negative_witness :
  ∃ yokota average,
    branch_entropies {[200 := {[65535 := 1]}]}
    = Some (Finite yokota, Finite average)
    ∧ (0 <= yokota)%R ∧ (0 <= average)%R.
Proof.
  destruct (branch_entropies_not_negative {[200 := {[65535 := 1]}]})
    as (yokota & average & Heq & Hy & Ha & _).
  - apply (bool_decide_unpack _). vm_compute. exact I.
  - vm_compute. reflexivity.
  - exists yokota, average. split; [exact Heq|]. split; [exact Hy|exact Ha].
Defined.

(** ** The sorted rows *)

Section StrictMergeSort.
Context {A} (R : relation A) `{∀ x y, Decision (R x y)}.
Hypothesis R_asym : ∀ x y, R x y → ¬ R y x.

Lemma HdRel_list_merge_strict x l1 l2 :
  HdRel (not_after R) x l1 → HdRel (not_after R) x l2 →
  HdRel (not_after R) x (list_merge R l1 l2).
Proof.
  destruct 1 as [|x1 l1 H1], 1 as [|x2 l2 H2];
    rewrite ?list_merge_cons; simpl; repeat case_decide; auto.
Qed.

Lemma Sorted_list_merge_strict l1 l2 :
  Sorted (not_after R) l1 → Sorted (not_after R) l2 →
  Sorted (not_after R) (list_merge R l1 l2).
Proof.
  intros Hl1. revert l2. induction Hl1 as [|x1 l1 Hs1 IH1 Hhd1];
    induction 1 as [|x2 l2 Hs2 IH2 Hhd2]; rewrite ?list_merge_cons; simpl;
    try (by constructor).
  case_decide as Hx.
  - constructor.
    + apply IH1. by constructor.
    + apply HdRel_list_merge_strict; [done|]. constructor. by apply R_asym.
  - constructor.
    + exact IH2.
    + apply HdRel_list_merge_strict; [by constructor|done].
Qed.

Lemma Sorted_merge_list_to_stack_strict st l :
  merge_stack_Sorted (not_after R) st → Sorted (not_after R) l →
  merge_stack_Sorted (not_after R) (merge_list_to_stack R st l).
Proof.
  intros Hst. revert l. induction Hst as [|st Hst IH|l' st Hl' Hst IH];
    intros l Hl; simpl.
  - repeat constructor; done.
  - by constructor.
  - constructor. apply IH. by apply Sorted_list_merge_strict.
Qed.

Lemma Sorted_merge_stack_strict st :
  merge_stack_Sorted (not_after R) st → Sorted (not_after R) (merge_stack R st).
Proof.
  induction 1; simpl; [constructor|done|by apply Sorted_list_merge_strict].
Qed.

Lemma Sorted_merge_sort_aux_strict st l :
  merge_stack_Sorted (not_after R) st → Sorted (not_after R) (merge_sort_aux R st l).
Proof.
  revert st. induction l as [|x l IH]; intros st Hst; simpl.
  - by apply Sorted_merge_stack_strict.
  - apply IH, Sorted_merge_list_to_stack_strict; [done|].
    repeat constructor.
Qed.

Lemma Sorted_merge_sort_strict l : Sorted (not_after R) (merge_sort R l).
Proof. apply Sorted_merge_sort_aux_strict. constructor. Qed.

End StrictMergeSort.

Lemma StronglySorted_lookup {A} (R : relation A) (l : list A) :
  StronglySorted R l →
  ∀ (i j : nat) a b, (i < j)%nat → l !! i = Some a → l !! j = Some b → R a b.
Proof.
  induction 1 as [|x l Hs IH Hall]; intros i j a b Hij Ha Hb.
  - by rewrite lookup_nil in Ha.
  - destruct j as [|j]; [lia|]. simpl in Hb. destruct i as [|i].
    + injection Ha as <-. rewrite Forall_forall in Hall.
      apply Hall. by apply list_elem_of_lookup_2 in Hb.
    + simpl in Ha. apply (IH i j); [lia|done|done].
Qed.

Lemma by_count_sorted (l : list (Z * Z)) (i j : nat) a b :
  (i < j)%nat →
  merge_sort count_greater l !! i = Some a →
  merge_sort count_greater l !! j = Some b →
  a.2 >= b.2.
Proof.
  intros Hij Ha Hb.
  assert (Hs : Sorted (not_after count_greater)
                 (merge_sort count_greater l)).
  { apply Sorted_merge_sort_strict. unfold count_greater. intros x y. lia. }
  apply Sorted.Sorted_StronglySorted in Hs.
  - pose proof (StronglySorted_lookup _ _ Hs i j a b Hij Ha Hb) as Hab.
    unfold not_after, count_greater in Hab. lia.
  - intros x y z. unfold not_after, count_greater. lia.
Qed.

(** X24: the rows [opcode_counts] and [branch_counts] list every entry of
    [m_computeOps] and of [m_branchCounts] exactly once, and so does the
    vector [sorted_count] for the address histogram; the opcodes and the
    addresses come by descending count, and the branches by descending
    count with the smaller id first among equal counts. *)
Theorem report_rows_sorted (computeOps branchCounts : gmap Z Z)
    (instruction_to_id : Z → Z) (lac : list (gmap Z Z)) :
  (sorted_ops computeOps ≡ₚ map_to_list computeOps
   ∧ ∀ (i j : nat) a b, (i < j)%nat →
       sorted_ops computeOps !! i = Some a →
       sorted_ops computeOps !! j = Some b → a.2 >= b.2)
  ∧ (sorted_count lac ≡ₚ map_to_list (default ∅ (lac !! 0%nat))
     ∧ ∀ (i j : nat) a b, (i < j)%nat →
         sorted_count lac !! i = Some a →
         sorted_count lac !! j = Some b → a.2 >= b.2)
  ∧ (sorted_branch_ops instruction_to_id branchCounts
     ≡ₚ (λ item, (wrap64 (instruction_to_id item.1), wrap32 item.2))
          <$> map_to_list branchCounts
     ∧ ∀ (i j : nat) a b, (i < j)%nat →
         sorted_branch_ops instruction_to_id branchCounts !! i = Some a →
         sorted_branch_ops instruction_to_id branchCounts !! j = Some b →
         a.2 > b.2 ∨ (a.2 = b.2 ∧ a.1 <= b.1)).
Proof.
  split; [|split].
  - split; [apply merge_sort_Permutation|]. intros i j a b.
    apply by_count_sorted.
  - split; [apply merge_sort_Permutation|]. intros i j a b.
    apply by_count_sorted.
  - split; [apply merge_sort_Permutation|]. intros i j a b Hij Ha Hb.
    assert (Hs : Sorted (not_after branch_before)
                   (sorted_branch_ops instruction_to_id branchCounts)).
    { apply Sorted_merge_sort_strict. unfold branch_before. intros x y.
      repeat case_decide; lia. }
    apply Sorted.Sorted_StronglySorted in Hs.
    + pose proof (StronglySorted_lookup _ _ Hs i j a b Hij Ha Hb) as Hab.
      unfold not_after, branch_before in Hab. case_decide; lia.
    + intros x y z. unfold not_after, branch_before. repeat case_decide; lia.
Qed.
